(** * native-window: typed IPC channel, window facade and script sanitizer

    A shallow embedding of the TypeScript sources of the repository:

    - [Ipc]: the host side of [native-window-ipc] ([src/unnamed/part_002]) --
      the envelope codec ([encode], [decode], [isEnvelope]), origin
      normalisation ([normalizeOrigin], [isOriginTrusted]), the injected
      client template ([getClientScript]) and the host channel
      ([createChannel] with its [onMessage], [onPageLoad], [send], [on],
      [off] closures);
    - [Win]: the [NativeWindow] class of [native-window]
      ([src/unnamed/part_005]) with its [_closed] flag and the [unsafe]
      accessor;
    - [San]: [sanitizeForJs] of the same file;
    - [Reach], [Host]: runs of calls on a host channel, and [createWindow];
    - [Process], [Cookies]: the window count and the event pump of
      [native-window] over the life of several windows, [onClose], and
      [_validateCookies] / [getCookies];
    - [Escapes]: how a JavaScript literal reads the output of
      [sanitizeForJs];
    - [Client]: the bundled webview client, [createChannelClient]
      ([src/packages/native-window-ipc/vite.config.ts], the part after the
      build configuration);
    - [Tsdb]: [createDataSource]
      ([src/packages/native-window-tsdb/index.ts]) and
      [nativeWindowCollectionOptions] ([src/unnamed/part_003]).

    Built-ins of the JavaScript platform that the sources call ([JSON.parse],
    [JSON.stringify], [new URL(s).origin]) are an interface ([Builtins]); the
    general statements hold for every implementation of it, and a small
    reference implementation ([Ref]) lets the model run on concrete messages.
    [Date.now()] and [Math.random().toString(36)] are arguments of the
    functions that read them, and so is what the native addon does when a
    window is constructed.  Strings are held in UTF-8 and measured in UTF-16
    code units ([Js.str_length]); a number given as an option is a rational,
    [NaN] or an infinity ([Js.number]); and [in] finds the property names
    that an object inherits from [Object.prototype] as well as its own
    ([Js.in_]). *)

From Stdlib Require Import String Ascii List ZArith NArith Bool Arith Lia.
From Stdlib Require QArith.
Import ListNotations.

Set Implicit Arguments.
Set Warnings "-register-all".

(* ===================================================================== *)
(** * JavaScript values *)
(* ===================================================================== *)

Module Js.
Local Open Scope string_scope.

(** The values that cross the bridge: what [JSON.parse] can return, plus
    [undefined] (a payload that is absent).  Numbers in a message are the
    integer-valued ones; an object is its list of own properties in
    insertion order. *)
Inductive value : Type :=
| VUndefined
| VNull
| VBool (b : bool)
| VNum (n : Z)
| VStr (s : string)
| VArr (xs : list value)
| VObj (props : list (string * value)).

(** [o[k]] on a property list: the first binding of [k], [undefined] when
    there is none. *)
Fixpoint lookup (A : Type) (k : string) (props : list (string * A)) : option A :=
  match props with
  | [] => None
  | (k', v) :: rest => if String.eqb k k' then Some v else lookup k rest
  end.

(** [k] is an own property of the object. *)
Definition has_key (A : Type) (k : string) (props : list (string * A)) : bool :=
  match lookup k props with Some _ => true | None => false end.

(** The property names of [Object.prototype], which an object written as a
    literal or returned by [JSON.parse] inherits. *)
Definition objectPrototype : list string :=
  ["constructor"; "__defineGetter__"; "__defineSetter__"; "hasOwnProperty";
   "__lookupGetter__"; "__lookupSetter__"; "isPrototypeOf";
   "propertyIsEnumerable"; "toString"; "valueOf"; "__proto__";
   "toLocaleString"].

Definition inherited (k : string) : bool :=
  existsb (String.eqb k) objectPrototype.

(** [k in o]: an inherited property or an own one. *)
Definition in_ (A : Type) (k : string) (props : list (string * A)) : bool :=
  inherited k || has_key k props.

(** [delete o[k]]. *)
Definition delete_key (A : Type) (k : string) (props : list (string * A))
  : list (string * A) :=
  filter (fun kv => negb (String.eqb k (fst kv))) props.

(** [v.k] for any value: [undefined] unless [v] is an object that has [k]. *)
Definition get (k : string) (v : value) : value :=
  match v with
  | VObj props => match lookup k props with Some x => x | None => VUndefined end
  | _ => VUndefined
  end.

(** [typeof v === "object" && v !== null]. *)
Definition is_object (v : value) : bool :=
  match v with
  | VArr _ | VObj _ => true
  | _ => false
  end.

(** [typeof v === "string"]. *)
Definition is_string (v : value) : bool :=
  match v with
  | VStr _ => true
  | _ => false
  end.

(** [s.length]: the number of UTF-16 code units of a string.  The strings of
    the model are held in UTF-8: a character of one to three bytes is one
    code unit, a character of four bytes is two (a surrogate pair), and the
    bytes that continue a character count nothing. *)
Definition units (c : ascii) : nat :=
  let b := nat_of_ascii c in
  if Nat.ltb b 128 then 1
  else if Nat.ltb b 192 then 0
  else if Nat.ltb b 240 then 1
  else 2.

Fixpoint str_length (s : string) : nat :=
  match s with
  | EmptyString => 0
  | String c rest => units c + str_length rest
  end.

(** A number given as an option.  A finite number is the rational it is
    (every double is one); the code only ever compares such a number with a
    length or a count, or with zero. *)
Inductive number : Type :=
| Finite (q : QArith_base.Q)
| PosInfinity
| NegInfinity
| NaN.

Definition ofZ (n : Z) : number := Finite (QArith_base.inject_Z n).

(** [n > m] and [n >= m] for a whole number [n]; [m > 0].  A comparison with
    [NaN] is false. *)
Definition int_gt (n : Z) (m : number) : bool :=
  match m with
  | Finite q => negb (QArith_base.Qle_bool (QArith_base.inject_Z n) q)
  | PosInfinity => false
  | NegInfinity => true
  | NaN => false
  end.

Definition int_ge (n : Z) (m : number) : bool :=
  match m with
  | Finite q => QArith_base.Qle_bool q (QArith_base.inject_Z n)
  | PosInfinity => false
  | NegInfinity => true
  | NaN => false
  end.

Definition gt_zero (m : number) : bool :=
  match m with
  | Finite q => negb (QArith_base.Qle_bool q (QArith_base.inject_Z 0))
  | PosInfinity => true
  | NegInfinity => false
  | NaN => false
  end.

(** A [__proto__] own property at any depth of a parsed value. *)
Fixpoint has_proto_key (v : value) : bool :=
  match v with
  | VArr xs => existsb has_proto_key xs
  | VObj props =>
      existsb (fun kv => String.eqb (fst kv) "__proto__" || has_proto_key (snd kv))
              props
  | _ => false
  end.

End Js.

(* ===================================================================== *)
(** * Platform built-ins *)
(* ===================================================================== *)

(** What the sources take from the JavaScript runtime.  [JSON_parse] is
    [None] where [JSON.parse] throws; [URL_origin s] is [None] where
    [new URL(s)] throws and otherwise the [origin] property, which is
    the string [null] for an opaque origin. *)
Class Builtins : Type := {
  JSON_parse : string -> option Js.value;
  JSON_stringify : Js.value -> string;
  URL_origin : string -> option string
}.

(* ===================================================================== *)
(** * The typed channel (native-window-ipc) *)
(* ===================================================================== *)

Module Ipc.
Import Js.
Local Open Scope string_scope.

(** A schema is its [safeParse]: [Some data] for [{success: true, data}],
    [None] for [{success: false}]. *)
Definition SchemaLike : Type := value -> option value.

(** The schema map, an object used as a map: its own properties are the
    schemas, and like every object literal it inherits the properties of
    [Object.prototype], which [type in schemas] finds as well. *)
Definition SchemaMap : Type := list (string * SchemaLike).

(** Handlers are compared by identity ([Set] membership); what a handler does
    with its payload is outside the channel, so a handler is its identity.
    Handlers and schemas are taken not to call back into the channel while
    a message is being dispatched; an exception a handler throws is caught
    by the dispatch loop and changes nothing. *)
Definition handler : Type := nat.

(** The [channelId] option: [string | true | undefined]. *)
Inductive ChannelIdOpt : Type :=
| CidString (s : string)
| CidAuto
| CidNone.

Record ChannelOptions : Type := {
  schemas : SchemaMap;
  injectClient : option bool;
  onValidationError : bool;
  trustedOrigins : option (list string);
  maxMessageSize : option number;
  rateLimit : option number;
  maxListenersPerEvent : option number;
  channelIdOpt : ChannelIdOpt
}.

(** Everything the channel does to the outside world, in program order.
    [ThrowTypeError] ends the callback: [schema.safeParse] was called on a
    value that has no such method. *)
Inductive effect : Type :=
| SafeParse (type : string) (data : value)
| ValidationError (type : string) (payload : value)
| Call (h : handler) (payload : value)
| PostMessage (message : string)
| EvaluateJs (script : string)
| ThrowTypeError.

Definition MAX_MESSAGE_SIZE : Z := 1048576.

Definition validatePayload (schema : SchemaLike) (data : value) : option value :=
  schema data.

Definition isEnvelope (data : value) : bool :=
  is_object data &&
  match data with
  | VObj props => in_ "$ch" props && is_string (get "$ch" data)
  | _ => false
  end.

(** The parsed value is an object whose own [$ch] is a string. *)
Definition hasStringCh (parsed : value) : bool :=
  match parsed with
  | VObj props =>
      match lookup "$ch" props with
      | Some (VStr _) => true
      | _ => false
      end
  | _ => false
  end.

Section WithBuiltins.
Context {B : Builtins}.

Definition encode (type : string) (payload : value) : string :=
  JSON_stringify (VObj [("$ch", VStr type); ("p", payload)]).

(** [decode(raw, maxSize = MAX_MESSAGE_SIZE)].  [__proto__] is inherited by
    every object, so the [in] test before [delete] succeeds for each;
    [delete] removes an own property of that name, which an array that
    [JSON.parse] returns never has. *)
Definition decode (raw : string) (maxSize : option number) : option value :=
  let maxSize :=
    match maxSize with Some m => m | None => ofZ MAX_MESSAGE_SIZE end in
  if int_gt (Z.of_nat (str_length raw)) maxSize then None
  else
    match JSON_parse raw with
    | None => None
    | Some parsed =>
        let parsed :=
          match parsed with
          | VObj props =>
              if in_ "__proto__" props
              then VObj (delete_key "__proto__" props)
              else parsed
          | other => other
          end in
        if isEnvelope parsed then Some parsed else None
    end.

Definition normalizeOrigin (origin : string) : option string :=
  match URL_origin origin with
  | Some o => if String.eqb o "null" then None else Some o
  | None => None
  end.

Definition includes (l : list string) (x : string) : bool :=
  existsb (String.eqb x) l.

Definition isOriginTrusted (url : string) (trusted : list string) : bool :=
  match URL_origin url with
  | Some o => includes trusted o
  | None => false
  end.

(** ** The injected client *)

(** The double quote, which a string literal here cannot hold. *)
Definition dq : string := String (ascii_of_nat 34) EmptyString.

(** The template of [getClientScript] up to the interpolated prefix literal:
    the top of the bundle. *)
Definition clientScriptTop : string :=
  "(function(){
var _slice=Array.prototype.slice;
var _filter=Array.prototype.filter;
var _push=Array.prototype.push;
var _indexOf=Array.prototype.indexOf;
var _splice=Array.prototype.splice;
var _pfx=".

(** The template after the prefix literal, line by line.  First the listener
    table [_l] and the external listeners [_el]. *)
Definition clientState : string :=
  ";
var _l=Object.create(null);
var _el=[];
".

(** [_e], [_d] and [_uch]: encode, decode, unprefix. *)
Definition clientCodec : string :=
  "function _e(t,p){return JSON.stringify({$ch:_pfx?_pfx+" ++ dq ++
  ":" ++ dq ++
  "+t:t,p:p})}
function _d(r){if(r.length>1048576)return null;try{var o=JSON.parse(r);if(typeof o===" ++ dq ++
  "object" ++ dq ++
  "&&o!==null&&" ++ dq ++
  "__proto__" ++ dq ++
  " in o)delete o.__proto__;if(o&&typeof o.$ch===" ++ dq ++
  "string" ++ dq ++
  ")return o}catch(e){}return null}
function _uch(ch){if(!_pfx)return ch;if(ch.indexOf(_pfx+" ++ dq ++
  ":" ++ dq ++
  ")===0)return ch.slice(_pfx.length+1);return null}
".

(** The [ch] object: [send], [on], [off]. *)
Definition clientChannel : string :=
  "var ch={
send:function(t,p){window.ipc.postMessage(_e(t,p))},
on:function(t,h){if(!_l[t])_l[t]=[];_l[t].push(h)},
off:function(t,h){if(!_l[t])return;_l[t]=_filter.call(_l[t],function(f){return f!==h})}
};
".

(** The dispatcher, installed as [__native_message__]. *)
Definition clientDispatcher : string :=
  "var _orig=window.__native_message__;
try{Object.defineProperty(window,'__native_message__',{value:function(msg){
var env=_d(msg);
if(env){var key=_uch(env.$ch);if(key!==null&&_l[key]){var fns=_slice.call(_l[key]);for(var i=0;i<fns.length;i++){try{fns[i](env.p)}catch(e){}}}
else{for(var j=0;j<_el.length;j++){try{_el[j](msg)}catch(e){}}if(_orig){_orig(msg)}}}
else{for(var j=0;j<_el.length;j++){try{_el[j](msg)}catch(e){}}if(_orig){_orig(msg)}}
},writable:false,configurable:false})}catch(e){}
".

(** The listener registry, installed as [__native_message_listeners__]. *)
Definition clientRegistry : string :=
  "try{Object.defineProperty(window,'__native_message_listeners__',{value:Object.freeze({add:function(fn){if(typeof fn==='function')_push.call(_el,fn)},remove:function(fn){var i=_indexOf.call(_el,fn);if(i!==-1)_splice.call(_el,i,1)}}),writable:false,configurable:false})}catch(e){}
".

(** The channel, installed as [__channel__], and the end of the bundle. *)
Definition clientInstall : string :=
  "try{Object.defineProperty(window,'__channel__',{value:Object.freeze(ch),writable:false,configurable:false})}catch(e){}
})();".

(** All of the template after the prefix literal. *)
Definition clientScriptRest : string :=
  clientState ++ clientCodec ++ clientChannel ++
  clientDispatcher ++ clientRegistry ++ clientInstall.

Definition getClientScript (channelId : option string) : string :=
  let prefix := match channelId with Some c => c | None => EmptyString end in
  let prefixLiteral := JSON_stringify (VStr prefix) in
  clientScriptTop ++ prefixLiteral ++ clientScriptRest.

(** *** What the script is checked against *)

(** [part] occurs in [s]. *)
Definition Contains (part s : string) : Prop :=
  exists before after, s = before ++ part ++ after.

Fixpoint occurs (part s : string) : bool :=
  String.prefix part s ||
  match s with
  | String _ rest => occurs part rest
  | EmptyString => false
  end.

(** Wherever [name] occurs in [s] it is followed by an opening parenthesis:
    the name is only ever called, never read into a variable. *)
Fixpoint onlyCalled (name s : string) : bool :=
  (if String.prefix name s then String.prefix (name ++ "(") s else true) &&
  match s with
  | String _ rest => onlyCalled name rest
  | EmptyString => true
  end.

(** ** createChannel *)

(** What [createChannel] closes over once the options are resolved. *)
Record Channel : Type := {
  options : ChannelOptions;
  channelId : string;
  normalizedOrigins : option (list string)
}.

(** The mutable part of the closure: [listeners], a [Map] from event type to
    an insertion-ordered [Set] of handlers, and [_rateLimitWindow]. *)
Record ChannelState : Type := {
  listeners : list (string * list handler);
  _rateLimitWindow : list Z
}.

Definition initialState : ChannelState :=
  {| listeners := []; _rateLimitWindow := [] |}.

(** [s.slice(a, b)] and [s.slice(a)] for indices inside the string.  They
    count bytes; the code slices the ASCII text of a random number, and a
    channel name at the end of a prefix that it starts with, where counting
    bytes and counting code units cut at the same place. *)
Definition slice (a b : nat) (s : string) : string := substring a (b - a) s.
Definition slice_from (a : nat) (s : string) : string :=
  substring a (String.length s - a) s.

(** [channelIdOpt === true ? Math.random().toString(36).slice(2, 10)
     : (channelIdOpt ?? "")]; [random36] is what
    [Math.random().toString(36)] evaluated to. *)
Definition resolveChannelId (opt : ChannelIdOpt) (random36 : string) : string :=
  match opt with
  | CidAuto => slice 2 10 random36
  | CidString s => s
  | CidNone => EmptyString
  end.

(** [.map(normalizeOrigin).filter(o => o !== null)]. *)
Definition normalizeAll (origins : list string) : list string :=
  flat_map (fun o => match normalizeOrigin o with
                     | Some n => [n]
                     | None => []
                     end) origins.

(** [normalizedOrigins && normalizedOrigins.length > 0]. *)
Definition originsEnforced (ch : Channel) : bool :=
  match normalizedOrigins ch with
  | Some (_ :: _) => true
  | _ => false
  end.

Definition trustedList (ch : Channel) : list string :=
  match normalizedOrigins ch with
  | Some l => l
  | None => []
  end.

Definition prefixCh (ch : Channel) (type : string) : string :=
  if String.eqb (channelId ch) EmptyString then type
  else channelId ch ++ ":" ++ type.

Definition unprefixCh (ch : Channel) (c : string) : option string :=
  if String.eqb (channelId ch) EmptyString then Some c
  else
    let pfx := channelId ch ++ ":" in
    if String.prefix pfx c then Some (slice_from (String.length pfx) c) else None.

(** The [while] loop that shifts expired timestamps off the window. *)
Fixpoint shiftExpired (now : Z) (window : list Z) : list Z :=
  match window with
  | [] => []
  | t :: rest =>
      if (t <=? now - 1000)%Z then shiftExpired now rest else window
  end.

(** The rate-limiting block of the message handler: whether the message goes
    on, and the window it leaves. *)
Definition rateLimiter (limit : option number) (now : Z) (window : list Z)
  : bool * list Z :=
  match limit with
  | Some r =>
      if gt_zero r then
        let window := shiftExpired now window in
        if int_ge (Z.of_nat (length window)) r then (false, window)
        else (true, (window ++ [now])%list)
      else (true, window)
  | None => (true, window)
  end.

Definition envelope_ch (env : value) : string :=
  match get "$ch" env with
  | VStr s => s
  | _ => EmptyString
  end.

Definition envelope_p (env : value) : value := get "p" env.

(** The message handler after the rate limiter.  [schemas[eventType]] for a
    name that is inherited and not an own key is a function or object of
    [Object.prototype]: it passes [if (schema)], and [validatePayload] throws
    on its missing [safeParse]. *)
Definition dispatch (ch : Channel) (st : ChannelState)
           (raw sourceUrl : string) : list effect :=
  match decode raw (maxMessageSize (options ch)) with
  | None => []
  | Some env =>
      match unprefixCh ch (envelope_ch env) with
      | None => []
      | Some eventType =>
          if originsEnforced ch && negb (isOriginTrusted sourceUrl (trustedList ch))
          then []
          else
            match lookup eventType (listeners st) with
            | None => []
            | Some set =>
                if negb (in_ eventType (schemas (options ch))) then []
                else
                  match lookup eventType (schemas (options ch)) with
                  | None => [ThrowTypeError]
                  | Some schema =>
                      SafeParse eventType (envelope_p env) ::
                      match validatePayload schema (envelope_p env) with
                      | None =>
                          if onValidationError (options ch)
                          then [ValidationError eventType (envelope_p env)]
                          else []
                      | Some data => map (fun fn => Call fn data) set
                      end
                  end
            end
      end
  end.

(** The callback given to [win.onMessage]; [now] is [Date.now()]. *)
Definition onMessage (ch : Channel) (st : ChannelState) (now : Z)
           (raw sourceUrl : string) : ChannelState * list effect :=
  let (admitted, window) :=
    rateLimiter (rateLimit (options ch)) now (_rateLimitWindow st) in
  ({| listeners := listeners st; _rateLimitWindow := window |},
   if admitted then dispatch ch st raw sourceUrl else []).

Definition injectClientOn (opts : ChannelOptions) : bool :=
  match injectClient opts with
  | Some b => b
  | None => true
  end.

(** [win.unsafe.evaluateJs(getClientScript({ channelId: channelId || undefined }))]. *)
Definition inject (ch : Channel) : list effect :=
  [EvaluateJs (getClientScript
                 (if String.eqb (channelId ch) EmptyString then None
                  else Some (channelId ch)))].

Inductive PageLoadEvent : Type := started | finished.

(** The callback given to [win.onPageLoad]; it is registered only when
    [injectClient] is on. *)
Definition onPageLoad (ch : Channel) (event : PageLoadEvent) (url : string)
  : list effect :=
  if injectClientOn (options ch) then
    match event with
    | started => []
    | finished =>
        if originsEnforced ch && negb (isOriginTrusted url (trustedList ch))
        then []
        else inject ch
    end
  else [].

(** [createChannel(win, options)]: the resolved closure and what it does to
    the window while it is being set up. *)
Definition createChannel (opts : ChannelOptions) (random36 : string)
  : Channel * list effect :=
  let ch := {| options := opts;
               channelId := resolveChannelId (channelIdOpt opts) random36;
               normalizedOrigins := option_map normalizeAll (trustedOrigins opts) |} in
  (ch, if injectClientOn opts then
         if originsEnforced ch then [] else inject ch
       else []).

Definition send (ch : Channel) (type : string) (payload : value) : list effect :=
  [PostMessage (encode (prefixCh ch type) payload)].

(** [set.add(h)] and [set.delete(h)] on an insertion-ordered [Set]. *)
Definition set_add (h : handler) (set : list handler) : list handler :=
  if existsb (Nat.eqb h) set then set else (set ++ [h])%list.

Definition set_delete (h : handler) (set : list handler) : list handler :=
  filter (fun x => negb (Nat.eqb h x)) set.

(** [map.set(k, v)]: in place for a key that is there, appended otherwise. *)
Fixpoint map_set (A : Type) (k : string) (v : A) (m : list (string * A))
  : list (string * A) :=
  match m with
  | [] => [(k, v)]
  | (k', v') :: rest =>
      if String.eqb k k' then (k, v) :: rest else (k', v') :: map_set k v rest
  end.

Definition on (ch : Channel) (st : ChannelState) (type : string) (h : handler)
  : ChannelState :=
  if negb (in_ type (schemas (options ch))) then st
  else
    let (set, ls) :=
      match lookup type (listeners st) with
      | Some set => (set, listeners st)
      | None => ([], map_set type [] (listeners st))
      end in
    let full :=
      match maxListenersPerEvent (options ch) with
      | Some m => int_ge (Z.of_nat (length set)) m
      | None => false
      end in
    {| listeners := if full then ls else map_set type (set_add h set) ls;
       _rateLimitWindow := _rateLimitWindow st |}.

Definition off (st : ChannelState) (type : string) (h : handler) : ChannelState :=
  match lookup type (listeners st) with
  | Some set =>
      {| listeners := map_set type (set_delete h set) (listeners st);
         _rateLimitWindow := _rateLimitWindow st |}
  | None => st
  end.

(** The handlers registered for a type, in the order the [Set] iterates. *)
Definition handlersOf (st : ChannelState) (type : string) : list handler :=
  match lookup type (listeners st) with
  | Some set => set
  | None => []
  end.

(** What [JSON.parse(JSON.stringify({ $ch: type, p: payload }))] is for a
    payload that JSON can carry: [stringify] leaves an [undefined] property
    out. *)
Definition carried (type : string) (payload : value) : value :=
  VObj (("$ch", VStr type) ::
        match payload with
        | VUndefined => []
        | _ => [("p", payload)]
        end).

(** Whether the callback was left by an exception. *)
Definition threw (es : list effect) : bool :=
  existsb (fun e => match e with ThrowTypeError => true | _ => false end) es.

(** Handlers called by a run of effects, with their payloads, in order. *)
Definition calls (es : list effect) : list (handler * value) :=
  flat_map (fun e => match e with Call h v => [(h, v)] | _ => [] end) es.

Definition safeParses (es : list effect) : list (string * value) :=
  flat_map (fun e => match e with SafeParse t v => [(t, v)] | _ => [] end) es.

Definition posted (es : list effect) : list string :=
  flat_map (fun e => match e with PostMessage m => [m] | _ => [] end) es.

Definition evaluated (es : list effect) : list string :=
  flat_map (fun e => match e with EvaluateJs s => [s] | _ => [] end) es.

End WithBuiltins.

End Ipc.

(* ===================================================================== *)
(** * The NativeWindow facade (native-window) *)
(* ===================================================================== *)

Module Win.
Local Open Scope string_scope.

(** Calls into the native addon ([this._native.*]). *)
Inductive NativeCall : Type :=
| NLoadUrl (url : string)
| NLoadHtml (html : string)
| NPostMessage (message : string)
| NEvaluateJs (script : string)
| NSetTitle (title : string)
| NSetSize (width height : Z)
| NSetMinSize (width height : Z)
| NSetMaxSize (width height : Z)
| NSetPosition (x y : Z)
| NSetResizable (resizable : bool)
| NSetDecorations (decorations : bool)
| NSetAlwaysOnTop (alwaysOnTop : bool)
| NShow | NHide | NClose | NFocus | NMaximize | NMinimize | NUnmaximize | NReload
| NOnClose | NOnMessage | NOnResize | NOnMove | NOnFocus | NOnBlur | NOnPageLoad
| NOnTitleChanged | NOnReload | NOnCookies
| NGetCookies (url : option string).

(** A native call as the addon sees it: the call, and the value the
    [_closed] flag had when it was issued. *)
Record Issued : Type := { call : NativeCall; closedWhenIssued : bool }.

(** One window with the module state it shares ([_pump], [_windowCount]). *)
Record NativeWindow : Type := {
  _closed : bool;
  _unsafe : bool;
  _userCloseCallback : bool;
  _windowCount : Z;
  _pump : bool;
  issued : list Issued;
  userCloseCalls : nat
}.

Inductive Error : Type :=
| WindowIsClosed.

(** [new Error("Window is closed")]. *)
Definition message (e : Error) : string :=
  match e with
  | WindowIsClosed => "Window is closed"
  end.

(** Methods either throw or return, and may change the window on the way. *)
Definition M (A : Type) : Type := NativeWindow -> (Error + A) * NativeWindow.

Definition ret (A : Type) (a : A) : M A := fun w => (inr a, w).

Definition throw {A : Type} (e : Error) : M A := fun w => (inl e, w).

Definition bind (A B : Type) (m : M A) (k : A -> M B) : M B :=
  fun w =>
    match m w with
    | (inl e, w') => (inl e, w')
    | (inr a, w') => k a w'
    end.

Notation "m ;; k" := (bind m (fun _ => k)) (at level 61, right associativity).
Notation "x <- m ;; k" := (bind m (fun x => k))
  (at level 61, m at next level, right associativity).

Definition _ensureOpen : M unit :=
  fun w => if _closed w then throw WindowIsClosed w else ret tt w.

Definition native (c : NativeCall) : M unit :=
  fun w =>
    (inr tt,
     {| _closed := _closed w; _unsafe := _unsafe w;
        _userCloseCallback := _userCloseCallback w;
        _windowCount := _windowCount w; _pump := _pump w;
        issued := (issued w ++ [{| call := c; closedWhenIssued := _closed w |}])%list;
        userCloseCalls := userCloseCalls w |}).

Definition setClosed : M unit :=
  fun w =>
    (inr tt,
     {| _closed := true; _unsafe := _unsafe w;
        _userCloseCallback := _userCloseCallback w;
        _windowCount := _windowCount w; _pump := _pump w;
        issued := issued w; userCloseCalls := userCloseCalls w |}).

Definition cacheUnsafe : M unit :=
  fun w =>
    (inr tt,
     {| _closed := _closed w; _unsafe := true;
        _userCloseCallback := _userCloseCallback w;
        _windowCount := _windowCount w; _pump := _pump w;
        issued := issued w; userCloseCalls := userCloseCalls w |}).

(** What a method hands back. *)
Inductive Result : Type :=
| Void
| Namespace
| Promise.

(** The methods of the class that start with [this._ensureOpen()]. *)
Inductive Method : Type :=
| loadUrl (url : string)
| loadHtml (html : string)
| postMessage (message : string)
| unsafe
| setTitle (title : string)
| setSize (width height : Z)
| setMinSize (width height : Z)
| setMaxSize (width height : Z)
| setPosition (x y : Z)
| setResizable (resizable : bool)
| setDecorations (decorations : bool)
| setAlwaysOnTop (alwaysOnTop : bool)
| show | hide | close | focus | maximize | minimize | unmaximize | reload
| onMessage | onResize | onMove | onFocus | onBlur | onPageLoad
| onTitleChanged | onReload
| getCookies (url : option string).

Definition simply (c : NativeCall) : M Result :=
  _ensureOpen ;; native c ;; ret Void.

Definition invoke (m : Method) : M Result :=
  match m with
  | loadUrl url => simply (NLoadUrl url)
  | loadHtml html => simply (NLoadHtml html)
  | postMessage msg => simply (NPostMessage msg)
  | unsafe =>
      _ensureOpen ;;
      (fun w => if _unsafe w then ret tt w else cacheUnsafe w) ;;
      ret Namespace
  | setTitle t => simply (NSetTitle t)
  | setSize a b => simply (NSetSize a b)
  | setMinSize a b => simply (NSetMinSize a b)
  | setMaxSize a b => simply (NSetMaxSize a b)
  | setPosition x y => simply (NSetPosition x y)
  | setResizable b => simply (NSetResizable b)
  | setDecorations b => simply (NSetDecorations b)
  | setAlwaysOnTop b => simply (NSetAlwaysOnTop b)
  | show => simply NShow
  | hide => simply NHide
  | close => _ensureOpen ;; setClosed ;; native NClose ;; ret Void
  | focus => simply NFocus
  | maximize => simply NMaximize
  | minimize => simply NMinimize
  | unmaximize => simply NUnmaximize
  | reload => simply NReload
  | onMessage => simply NOnMessage
  | onResize => simply NOnResize
  | onMove => simply NOnMove
  | onFocus => simply NOnFocus
  | onBlur => simply NOnBlur
  | onPageLoad => simply NOnPageLoad
  | onTitleChanged => simply NOnTitleChanged
  | onReload => simply NOnReload
  | getCookies url =>
      _ensureOpen ;; native NOnCookies ;; native (NGetCookies url) ;; ret Promise
  end.

(** [evaluateJs] of the object that the [unsafe] getter returns; the object
    closes over the window, so it can be called through a reference taken
    earlier. *)
Definition evaluateJs (script : string) : M Result :=
  _ensureOpen ;; native (NEvaluateJs script) ;; ret Void.

(** [_handleClose], the handler the constructor registers for the native
    close event. *)
Definition _handleClose (w : NativeWindow) : NativeWindow :=
  if _closed w then w
  else
    let count := (_windowCount w - 1)%Z in
    let stop := (count <=? 0)%Z in
    {| _closed := true; _unsafe := _unsafe w;
       _userCloseCallback := _userCloseCallback w;
       _windowCount := if stop then 0%Z else count;
       _pump := if stop then false else _pump w;
       issued := issued w;
       userCloseCalls :=
         if _userCloseCallback w then S (userCloseCalls w) else userCloseCalls w |}.

(** The window that a constructor which returns leaves, given the window
    count it found: the pump is set, the count is one higher, and
    [_handleClose] is registered with the native window. *)
Definition construct (windowCount : Z) : NativeWindow :=
  {| _closed := false; _unsafe := false; _userCloseCallback := false;
     _windowCount := (windowCount + 1)%Z; _pump := true;
     issued := [{| call := NOnClose; closedWhenIssued := false |}];
     userCloseCalls := 0 |}.

(** How a call into the native addon ends. *)
Inductive Outcome : Type :=
| Returns
| Throws.

(** What the addon does while a window is constructed: [init()], which
    [ensureInit] calls when the pump is not set, and
    [new _NativeWindow(options)]. *)
Record Addon : Type := {
  init : Outcome;
  _NativeWindow : Outcome
}.

(** What [new NativeWindow(options)] leaves: a window, or an exception and
    the module state as it is then. *)
Inductive Constructed : Type :=
| Built (w : NativeWindow)
| Failed (pump : bool) (windowCount : Z).

(** The constructor: [ensureInit()], [_windowCount++],
    [new _NativeWindow(options)], [this._native.onClose(...)]. *)
Definition new (addon : Addon) (pump : bool) (windowCount : Z) : Constructed :=
  match pump, init addon with
  | false, Throws => Failed false windowCount
  | _, _ =>
      match _NativeWindow addon with
      | Throws => Failed true (windowCount + 1)%Z
      | Returns => Built (construct windowCount)
      end
  end.

(** The native calls a window has received, oldest first. *)
Definition nativeCalls (w : NativeWindow) : list NativeCall :=
  map call (issued w).

End Win.

(* ===================================================================== *)
(** * sanitizeForJs (native-window) *)
(* ===================================================================== *)

Module San.

(** A JavaScript string is a sequence of UTF-16 code units. *)
Definition jsstring : Type := list N.

(** The code units of an ASCII literal. *)
Fixpoint str (s : string) : jsstring :=
  match s with
  | EmptyString => []
  | String c rest => N_of_ascii c :: str rest
  end.

Definition backslash : N := 92.
Definition quote : N := 39.
Definition dquote : N := 34.
Definition backtick : N := 96.
Definition dollar : N := 36.
Definition lbrace : N := 123.
Definition LF : N := 10.
Definition CR : N := 13.
Definition NUL : N := 0.
Definition LS : N := 8232.
Definition PS : N := 8233.

(** How a regular expression compares a pattern character with an input
    character: exactly, or under the [i] flag.  Without the [u] flag the
    [i] flag compares upper-cased code units and never lets a code unit
    outside ASCII stand for an ASCII one, so against an ASCII pattern it is
    the comparison of the ASCII upper-cases. *)
Definition upper (c : N) : N :=
  if (97 <=? c)%N && (c <=? 122)%N then (c - 32)%N else c.

Definition sameChar (ignoreCase : bool) (p c : N) : bool :=
  if ignoreCase then N.eqb (upper p) (upper c) else N.eqb p c.

(** The literal pattern [pat] matches at the head of [s]. *)
Fixpoint matchesAt (ignoreCase : bool) (pat s : jsstring) : bool :=
  match pat, s with
  | [], _ => true
  | _ :: _, [] => false
  | p :: pat', c :: s' => sameChar ignoreCase p c && matchesAt ignoreCase pat' s'
  end.

(** [s.replace(/pat/g, repl)] for a literal, non-empty pattern and a
    replacement without [$] patterns: left to right, each match replaced and
    the search resumed after it.  [skip] counts the characters of the
    current match that are still to be passed over. *)
Fixpoint replaceFrom (ignoreCase : bool) (pat repl : jsstring)
         (skip : nat) (s : jsstring) : jsstring :=
  match s with
  | [] => []
  | c :: rest =>
      match skip with
      | S k => replaceFrom ignoreCase pat repl k rest
      | O =>
          if matchesAt ignoreCase pat s
          then repl ++ replaceFrom ignoreCase pat repl (length pat - 1) rest
          else c :: replaceFrom ignoreCase pat repl 0 rest
      end
  end.

Definition replace (ignoreCase : bool) (pat repl : jsstring) (s : jsstring)
  : jsstring :=
  replaceFrom ignoreCase pat repl 0 s.

Definition g : bool := false.
Definition gi : bool := true.

(** The chain of [replace] calls, in source order. *)
Definition sanitizeForJs (input : jsstring) : jsstring :=
  let s := replace g [backslash] [backslash; backslash] input in
  let s := replace g [quote] [backslash; quote] s in
  let s := replace g [dquote] [backslash; dquote] s in
  let s := replace g [backtick] [backslash; backtick] s in
  let s := replace g [dollar; lbrace] [backslash; dollar; lbrace] s in
  let s := replace g [LF] (str "\n") s in
  let s := replace g [CR] (str "\r") s in
  let s := replace g [NUL] (str "\0") s in
  let s := replace g [LS] (str "\u2028") s in
  let s := replace g [PS] (str "\u2029") s in
  replace gi (str "</script>") (str "<\/script>") s.

(** *** What the output is checked against *)

(** [s] contains a case variant of the ASCII text [pat]. *)
Definition containsIgnoringCase (pat s : jsstring) : Prop :=
  exists before after m,
    s = before ++ m ++ after /\ map upper m = map upper pat.

(** The number of backslashes that [s] starts with, and that it ends with. *)
Fixpoint leadingBackslashes (s : jsstring) : nat :=
  match s with
  | c :: rest => if N.eqb c backslash then S (leadingBackslashes rest) else 0
  | [] => 0
  end.

Definition trailingBackslashes (s : jsstring) : nat :=
  leadingBackslashes (rev s).

(** The characters that would end a string literal or open a template
    substitution: a quote of any kind, or [$] followed by [{]. *)
Definition isQuote (c : N) : bool :=
  N.eqb c quote || N.eqb c dquote || N.eqb c backtick.

Definition opensSubstitution (c : N) (rest : jsstring) : bool :=
  N.eqb c dollar &&
  match rest with
  | d :: _ => N.eqb d lbrace
  | [] => false
  end.

Definition sensitive (c : N) (rest : jsstring) : bool :=
  isQuote c || opensSubstitution c rest.

(** Every sensitive character of [s] stands after an odd number of
    backslashes. *)
Definition escaped (s : jsstring) : Prop :=
  forall before c rest,
    s = before ++ c :: rest ->
    sensitive c rest = true ->
    Nat.odd (trailingBackslashes before) = true.

(** One left-to-right pass that checks backslash parities: [odd] is the
    parity of the run of backslashes read so far, and [required c rest] is
    the parity that the character [c], followed by [rest], must find (any,
    when [None]).  The text must not end in an odd run. *)
Definition requirement : Type := N -> jsstring -> option bool.

Fixpoint scanWith (required : requirement) (odd : bool) (s : jsstring) : bool :=
  match s with
  | [] => negb odd
  | c :: rest =>
      if N.eqb c backslash then scanWith required (negb odd) rest
      else
        match required c rest with
        | Some parity => Bool.eqb odd parity
        | None => true
        end && scanWith required false rest
  end.

(** In the output: an odd run before every sensitive character. *)
Definition finally : requirement :=
  fun c rest => if sensitive c rest then Some true else None.

Definition scan (odd : bool) (s : jsstring) : bool := scanWith finally odd s.

(** Once the backslashes are doubled and the characters [quotes] escaped:
    an odd run before each of those, an even run before every other
    character. *)
Definition afterEscaping (quotes : list N) : requirement :=
  fun c _ => Some (existsb (N.eqb c) quotes).

(** Some occurrence of the pattern [pat], compared as the [i] flag does. *)
Fixpoint matchesSomewhere (pat s : jsstring) : bool :=
  matchesAt gi pat s ||
  match s with
  | _ :: rest => matchesSomewhere pat rest
  | [] => false
  end.

(** What ends a script element in an HTML document: [</script] in any case,
    followed by white space (tab, LF, FF, CR, space), a slash or [>].  The
    tokenizer does not look at what a script says: inside a string literal
    an end tag ends the element all the same. *)
Definition endsTagName (c : N) : bool :=
  existsb (N.eqb c) [9; 10; 12; 13; 32; 47; 62]%N.

Fixpoint endsScriptElement (s : jsstring) : bool :=
  (matchesAt gi (str "</script") s &&
   match skipn 8 s with
   | c :: _ => endsTagName c
   | [] => false
   end) ||
  match s with
  | _ :: rest => endsScriptElement rest
  | [] => false
  end.

(** *** Reading the output as the body of a literal *)

(** What a JavaScript lexer makes of a text placed between two quotes. *)
Inductive reading : Type :=
| Body
| Closed (outside : jsstring)
| Substitution (code : jsstring)
| LineBreak
| Dangling.

Definition lineTerminator (c : N) : bool :=
  N.eqb c LF || N.eqb c CR || N.eqb c LS || N.eqb c PS.

(** The body of a string literal opened by [q]: a backslash takes the next
    character with it; an unescaped [q] closes the literal and leaves the
    rest outside; an unescaped line terminator is an error; [Body] when the
    whole text belongs to the literal, [Dangling] when it ends in a backslash
    that would take the closing quote. *)
Fixpoint stringLiteral (q : N) (escaping : bool) (s : jsstring) : reading :=
  match s with
  | [] => if escaping then Dangling else Body
  | c :: rest =>
      if escaping then stringLiteral q false rest
      else if N.eqb c backslash then stringLiteral q true rest
      else if N.eqb c q then Closed rest
      else if lineTerminator c then LineBreak
      else stringLiteral q false rest
  end.

(** The body of a template literal: line terminators are allowed, a
    backtick closes it, and [${] opens a substitution, which is code. *)
Fixpoint templateLiteral (escaping : bool) (s : jsstring) : reading :=
  match s with
  | [] => if escaping then Dangling else Body
  | c :: rest =>
      if escaping then templateLiteral false rest
      else if N.eqb c backslash then templateLiteral true rest
      else if N.eqb c backtick then Closed rest
      else if opensSubstitution c rest then Substitution (tl rest)
      else templateLiteral false rest
  end.

(** *** Names for the proofs *)

(** The closing tag and its escaped form; [${] and its escaped form; the
    three quote characters. *)
Definition closing : jsstring := str "</script>".
Definition closingEscaped : jsstring := str "<\/script>".
Definition substitution : jsstring := [dollar; lbrace].
Definition substitutionEscaped : jsstring := [backslash; dollar; lbrace].
Definition allQuotes : list N := [quote; dquote; backtick].

(** A character that the scan passes over: no backslash, nothing sensitive. *)
Definition plain (c : N) : Prop :=
  N.eqb c backslash = false /\ forall rest, sensitive c rest = false.

End San.

(* ===================================================================== *)
(** * A reference implementation of the built-ins *)
(* ===================================================================== *)

(** Enough of [JSON] and of the URL parser to run the channel on concrete
    messages: integers, ASCII strings with the short escapes, arrays and
    objects; [http], [https], [ws], [wss] and [ftp] origins. *)
Module Ref.
Import Js.
Local Open Scope string_scope.
Local Open Scope char_scope.

Definition dquote : ascii := ascii_of_nat 34.
Definition backslash : ascii := ascii_of_nat 92.

(** ** JSON.stringify *)

Fixpoint quoteChars (s : string) : string :=
  match s with
  | EmptyString => EmptyString
  | String c rest =>
      let tail := quoteChars rest in
      if Ascii.eqb c dquote then String backslash (String dquote tail)
      else if Ascii.eqb c backslash then String backslash (String backslash tail)
      else if Ascii.eqb c (ascii_of_nat 10) then String backslash (String "n" tail)
      else if Ascii.eqb c (ascii_of_nat 13) then String backslash (String "r" tail)
      else if Ascii.eqb c (ascii_of_nat 9) then String backslash (String "t" tail)
      else String c tail
  end.

Definition quoteString (s : string) : string :=
  String dquote (quoteChars s ++ String dquote EmptyString).

Fixpoint digits (fuel : nat) (n : N) (acc : string) : string :=
  match fuel with
  | O => acc
  | S fuel' =>
      let d := ascii_of_N (48 + N.modulo n 10) in
      let q := N.div n 10 in
      if N.eqb q 0 then String d acc else digits fuel' q (String d acc)
  end.

Definition showZ (z : Z) : string :=
  let n := Z.abs_N z in
  let body := digits (S (N.to_nat (N.log2 n))) n EmptyString in
  if (z <? 0)%Z then String "-" body else body.

Fixpoint join (sep : string) (parts : list string) : string :=
  match parts with
  | [] => EmptyString
  | [p] => p
  | p :: rest => p ++ sep ++ join sep rest
  end.

Definition isUndefined (v : value) : bool :=
  match v with
  | VUndefined => true
  | _ => false
  end.

Fixpoint stringify (v : value) : string :=
  match v with
  | VUndefined => "null"
  | VNull => "null"
  | VBool true => "true"
  | VBool false => "false"
  | VNum n => showZ n
  | VStr s => quoteString s
  | VArr xs => "[" ++ join "," (map stringify xs) ++ "]"
  | VObj props =>
      "{" ++
      join ","
        (flat_map
           (fun kv =>
              match kv with
              | (k, x) =>
                  if isUndefined x then []
                  else [quoteString k ++ ":" ++ stringify x]
              end) props) ++
      "}"
  end.

(** ** JSON.parse *)

Definition isSpace (c : ascii) : bool :=
  Ascii.eqb c " " || Ascii.eqb c (ascii_of_nat 10) ||
  Ascii.eqb c (ascii_of_nat 13) || Ascii.eqb c (ascii_of_nat 9).

Fixpoint skipSpace (s : string) : string :=
  match s with
  | String c rest => if isSpace c then skipSpace rest else s
  | EmptyString => s
  end.

Definition isDigit (c : ascii) : bool :=
  let n := N_of_ascii c in (48 <=? n)%N && (n <=? 57)%N.

(** The characters of a string literal after its opening quote, and what
    follows the closing one. *)
Fixpoint parseChars (s : string) : option (string * string) :=
  match s with
  | EmptyString => None
  | String c rest =>
      if Ascii.eqb c dquote then Some (EmptyString, rest)
      else if Ascii.eqb c backslash then
        match rest with
        | String e rest' =>
            let unescaped :=
              if Ascii.eqb e "n" then Some (ascii_of_nat 10)
              else if Ascii.eqb e "r" then Some (ascii_of_nat 13)
              else if Ascii.eqb e "t" then Some (ascii_of_nat 9)
              else if Ascii.eqb e dquote || Ascii.eqb e backslash || Ascii.eqb e "/"
                   then Some e
              else None in
            match unescaped, parseChars rest' with
            | Some u, Some (body, after) => Some (String u body, after)
            | _, _ => None
            end
        | EmptyString => None
        end
      else if (N_of_ascii c <? 32)%N then None
      else
        match parseChars rest with
        | Some (body, after) => Some (String c body, after)
        | None => None
        end
  end.

Fixpoint parseDigits (acc : Z) (s : string) : Z * string :=
  match s with
  | String c rest =>
      if isDigit c
      then parseDigits (acc * 10 + Z.of_N (N_of_ascii c) - 48)%Z rest
      else (acc, s)
  | EmptyString => (acc, s)
  end.

Definition parseNumber (s : string) : option (Z * string) :=
  match s with
  | String "-" (String c rest) =>
      if isDigit c
      then let (n, after) := parseDigits 0 (String c rest) in Some ((- n)%Z, after)
      else None
  | String c _ =>
      if isDigit c then Some (parseDigits 0 s) else None
  | EmptyString => None
  end.

Definition expect (word : string) (v : value) (s : string)
  : option (value * string) :=
  if String.prefix word s
  then Some (v, substring (String.length word) (String.length s) s)
  else None.

(** A later duplicate of a key overwrites the earlier value in place. *)
Fixpoint define (k : string) (v : value) (props : list (string * value))
  : list (string * value) :=
  match props with
  | [] => [(k, v)]
  | (k', v') :: rest =>
      if String.eqb k k' then (k, v) :: rest else (k', v') :: define k v rest
  end.

Fixpoint parseValue (fuel : nat) (s : string) : option (value * string) :=
  match fuel with
  | O => None
  | S fuel' =>
      let elements :=
        fix elements (n : nat) (acc : list value) (s : string)
          : option (value * string) :=
          match n with
          | O => None
          | S n' =>
              match parseValue fuel' s with
              | Some (v, after) =>
                  match skipSpace after with
                  | String "," more => elements n' (acc ++ [v])%list more
                  | String "]" more => Some (VArr (acc ++ [v])%list, more)
                  | _ => None
                  end
              | None => None
              end
          end in
      let members :=
        fix members (n : nat) (acc : list (string * value)) (s : string)
          : option (value * string) :=
          match n with
          | O => None
          | S n' =>
              match skipSpace s with
              | String q keyOn =>
                  if Ascii.eqb q dquote then
                    match parseChars keyOn with
                    | Some (k, after) =>
                        match skipSpace after with
                        | String ":" valueOn =>
                            match parseValue fuel' valueOn with
                            | Some (v, after') =>
                                match skipSpace after' with
                                | String "," more => members n' (define k v acc) more
                                | String "}" more => Some (VObj (define k v acc), more)
                                | _ => None
                                end
                            | None => None
                            end
                        | _ => None
                        end
                    | None => None
                    end
                  else None
              | EmptyString => None
              end
          end in
      match skipSpace s with
      | EmptyString => None
      | String c rest =>
          if Ascii.eqb c "n" then expect "null" VNull (String c rest)
          else if Ascii.eqb c "t" then expect "true" (VBool true) (String c rest)
          else if Ascii.eqb c "f" then expect "false" (VBool false) (String c rest)
          else if Ascii.eqb c dquote then
            match parseChars rest with
            | Some (body, after) => Some (VStr body, after)
            | None => None
            end
          else if Ascii.eqb c "[" then
            match skipSpace rest with
            | String "]" more => Some (VArr [], more)
            | _ => elements (String.length rest) [] rest
            end
          else if Ascii.eqb c "{" then
            match skipSpace rest with
            | String "}" more => Some (VObj [], more)
            | _ => members (String.length rest) [] rest
            end
          else
            match parseNumber (String c rest) with
            | Some (n, after) => Some (VNum n, after)
            | None => None
            end
      end
  end.

Definition parse (s : string) : option value :=
  match parseValue (S (String.length s)) s with
  | Some (v, after) =>
      match skipSpace after with
      | EmptyString => Some v
      | _ => None
      end
  | None => None
  end.

(** ** new URL(s).origin *)

Definition lower (c : ascii) : ascii :=
  let n := N_of_ascii c in
  if (65 <=? n)%N && (n <=? 90)%N then ascii_of_N (n + 32) else c.

Fixpoint lowercase (s : string) : string :=
  match s with
  | EmptyString => EmptyString
  | String c rest => String (lower c) (lowercase rest)
  end.

Definition isAlpha (c : ascii) : bool :=
  let n := N_of_ascii (lower c) in (97 <=? n)%N && (n <=? 122)%N.

Definition isSchemeChar (c : ascii) : bool :=
  isAlpha c || isDigit c || Ascii.eqb c "+" || Ascii.eqb c "-" || Ascii.eqb c ".".

Definition isHostChar (c : ascii) : bool :=
  isAlpha c || isDigit c || Ascii.eqb c "-" || Ascii.eqb c "." || Ascii.eqb c "_".

(** [s] cut at the first character that satisfies [stop]. *)
Fixpoint break (stop : ascii -> bool) (s : string) : string * string :=
  match s with
  | EmptyString => (EmptyString, EmptyString)
  | String c rest =>
      if stop c then (EmptyString, s)
      else let (a, b) := break stop rest in (String c a, b)
  end.

Fixpoint all (p : ascii -> bool) (s : string) : bool :=
  match s with
  | EmptyString => true
  | String c rest => p c && all p rest
  end.

Fixpoint skipSlashes (s : string) : string :=
  match s with
  | String c rest =>
      if Ascii.eqb c "/" || Ascii.eqb c backslash then skipSlashes rest else s
  | EmptyString => s
  end.

(** What follows the last [@] of an authority (the user information goes). *)
Fixpoint afterLastAt (s : string) : string :=
  match s with
  | EmptyString => EmptyString
  | String c rest =>
      let (_, more) := break (fun x => Ascii.eqb x "@") rest in
      match more with
      | EmptyString => if Ascii.eqb c "@" then rest else s
      | _ => afterLastAt rest
      end
  end.

Definition defaultPort (scheme : string) : option Z :=
  if String.eqb scheme "http" || String.eqb scheme "ws" then Some 80%Z
  else if String.eqb scheme "https" || String.eqb scheme "wss" then Some 443%Z
  else if String.eqb scheme "ftp" then Some 21%Z
  else None.

Definition origin (s : string) : option string :=
  let (scheme, rest) := break (fun c => negb (isSchemeChar c)) s in
  match scheme, rest with
  | String c0 _, String ":" more =>
      if isAlpha c0 then
        let scheme := lowercase scheme in
        match defaultPort scheme with
        | None => Some "null"%string
        | Some dflt =>
            let (authority, _) :=
              break (fun c => Ascii.eqb c "/" || Ascii.eqb c backslash ||
                              Ascii.eqb c "?" || Ascii.eqb c "#")
                    (skipSlashes more) in
            let hostport := afterLastAt authority in
            let (host, portPart) := break (fun c => Ascii.eqb c ":") hostport in
            if String.eqb host EmptyString || negb (all isHostChar host) then None
            else
              let base := (scheme ++ "://" ++ lowercase host)%string in
              match portPart with
              | EmptyString | String _ EmptyString => Some base
              | String _ ds =>
                  if all isDigit ds then
                    let (p, _) := parseDigits 0 ds in
                    if (p >? 65535)%Z then None
                    else if (p =? dflt)%Z then Some base
                    else Some (base ++ ":" ++ showZ p)%string
                  else None
              end
        end
      else None
  | _, _ => None
  end.

(** ** Number.prototype.toString(36) *)

Definition digit36 (d : N) : ascii :=
  if (d <? 10)%N then ascii_of_N (48 + d) else ascii_of_N (87 + d).

(** The base-36 digits of the fraction [num / den], while they last. *)
Fixpoint fraction36 (fuel : nat) (num den : N) : string :=
  match fuel with
  | O => EmptyString
  | S fuel' =>
      if N.eqb num 0 then EmptyString
      else
        let x := (num * 36)%N in
        String (digit36 (x / den)) (fraction36 fuel' (x mod den) den)
  end.

(** [x.toString(36)] for a number [x = num / den] in [0, 1) whose base-36
    expansion ends within a few digits, so that it is printed in full. *)
Definition toString36 (num den : N) : string :=
  if N.eqb num 0 then "0"%string
  else ("0." ++ fraction36 8 num den)%string.

#[export] Instance builtins : Builtins :=
  {| JSON_parse := parse; JSON_stringify := stringify; URL_origin := origin |}.

(** Test fixtures are written with [']; this turns them into double quotes. *)
Fixpoint json (s : string) : string :=
  match s with
  | EmptyString => EmptyString
  | String c rest => String (if Ascii.eqb c "'" then dquote else c) (json rest)
  end.

End Ref.

(* ===================================================================== *)
(** * Runs of a channel, and the fixtures of the test suite *)
(* ===================================================================== *)

Module Run.
Import Js Ipc.

(** What can happen to a channel: a message comes in at a time
    [Date.now()] reports, or the host registers or removes a handler. *)
Inductive action : Type :=
| Incoming (now : Z) (raw sourceUrl : string)
| On (type : string) (h : handler)
| Off (type : string) (h : handler).

Section WithBuiltins.
Context {B : Builtins}.

(** The effects of each incoming message of a run, with its arrival time. *)
Fixpoint run (ch : Channel) (st : ChannelState) (acts : list action)
  : list (Z * list effect) :=
  match acts with
  | [] => []
  | Incoming now raw sourceUrl :: rest =>
      let (st', es) := onMessage ch st now raw sourceUrl in
      (now, es) :: run ch st' rest
  | On type h :: rest => run ch (on ch st type h) rest
  | Off type h :: rest => run ch (off st type h) rest
  end.

End WithBuiltins.

Fixpoint arrivals (acts : list action) : list Z :=
  match acts with
  | [] => []
  | Incoming now _ _ :: rest => now :: arrivals rest
  | _ :: rest => arrivals rest
  end.

Fixpoint nondecreasing (ts : list Z) : Prop :=
  match ts with
  | [] => True
  | t :: rest => (forall u, In u rest -> (t <= u)%Z) /\ nondecreasing rest
  end.

(** The arrival times that the rate limiter lets through, out of the
    arrival times [ts], starting from the window [window]. *)
Fixpoint admits (limit : option number) (window : list Z) (ts : list Z)
  : list Z :=
  match ts with
  | [] => []
  | now :: rest =>
      let (ok, window') := rateLimiter limit now window in
      ((if ok then [now] else []) ++ admits limit window' rest)%list
  end.

(** How many of the times [ts] lie in [lo, hi). *)
Definition countIn (lo hi : Z) (ts : list Z) : nat :=
  length (filter (fun a => (lo <=? a)%Z && (a <? hi)%Z) ts).

(** What the limiter keeps true from one message to the next: [history] are
    the times it has admitted, none later than [last], the time of the latest
    message; the window holds those of them younger than a second; and no
    second holds more than [r] of them. *)
Record LimiterInv (r last : Z) (history window : list Z) : Prop := {
  inv_past : forall a, In a history -> (a <= last)%Z;
  inv_sorted : nondecreasing history;
  inv_window : window = filter (fun a => (last - 1000 <? a)%Z) history;
  inv_bound : forall t, (Z.of_nat (countIn t (t + 1000) history) <= r)%Z
}.

(** The times of [ts] less than a second before [t]. *)
Definition youngerThan (t : Z) (ts : list Z) : list Z :=
  filter (fun a => (t - 1000 <? a)%Z) ts.

(** What the limiter keeps true whatever the limit: [history] are the times
    it has let through, in arrival order and none later than [last], the
    time of the latest message, and the window holds those of them that are
    less than a second older than [last]. *)
Record Recent (last : Z) (history window : list Z) : Prop := {
  recent_past : forall a, In a history -> (a <= last)%Z;
  recent_sorted : nondecreasing history;
  recent_window : window = youngerThan last history
}.

(** A message was dispatched when some handler was called for it. *)
Definition dispatched (es : list effect) : bool :=
  match calls es with
  | [] => false
  | _ :: _ => true
  end.

(** The messages of a run that arrived in [lo, hi) and were dispatched. *)
Definition dispatchedWithin (lo hi : Z) (trace : list (Z * list effect)) : nat :=
  length (filter (fun p => (lo <=? fst p)%Z && (fst p <? hi)%Z && dispatched (snd p))
                 trace).

(** The same over the closed interval [lo, hi]. *)
Definition dispatchedWithinClosed (lo hi : Z) (trace : list (Z * list effect))
  : nat :=
  length (filter (fun p => (lo <=? fst p)%Z && (fst p <=? hi)%Z && dispatched (snd p))
                 trace).

End Run.

(** The mock schemas and options of the channel's test suite. *)
Module Fixtures.
Import Js Ipc.
Local Open Scope string_scope.

Definition stringSchema : SchemaLike :=
  fun v => match v with VStr _ => Some v | _ => None end.

Definition numberSchema : SchemaLike :=
  fun v => match v with VNum _ => Some v | _ => None end.

Definition pointSchema : SchemaLike :=
  fun v =>
    match v, get "x" v, get "y" v with
    | VObj _, VNum _, VNum _ => Some v
    | _, _, _ => None
    end.

(** A schema with a transform: it trims nothing but wraps the string. *)
Definition wrappingSchema : SchemaLike :=
  fun v => match v with VStr s => Some (VObj [("value", VStr s)]) | _ => None end.

Definition testSchemas : SchemaMap :=
  [("ping", stringSchema); ("pong", numberSchema); ("data", pointSchema)].

(** [{ injectClient: false, schemas }]. *)
Definition withSchemas (schemas : SchemaMap) : ChannelOptions :=
  {| schemas := schemas; injectClient := Some false; onValidationError := false;
     trustedOrigins := None; maxMessageSize := None; rateLimit := None;
     maxListenersPerEvent := None; channelIdOpt := CidNone |}.

(** [{ injectClient: false, schemas, trustedOrigins }]. *)
Definition withOrigins (schemas : SchemaMap) (origins : list string)
  : ChannelOptions :=
  {| schemas := schemas; injectClient := Some false; onValidationError := false;
     trustedOrigins := Some origins; maxMessageSize := None; rateLimit := None;
     maxListenersPerEvent := None; channelIdOpt := CidNone |}.

(** [{ schemas, trustedOrigins }]: the client is injected. *)
Definition injecting (schemas : SchemaMap) (origins : option (list string))
  : ChannelOptions :=
  {| schemas := schemas; injectClient := None; onValidationError := false;
     trustedOrigins := origins; maxMessageSize := None; rateLimit := None;
     maxListenersPerEvent := None; channelIdOpt := CidNone |}.

(** [{ injectClient: false, schemas, maxMessageSize }]. *)
Definition withMaxSize (schemas : SchemaMap) (size : Z) : ChannelOptions :=
  {| schemas := schemas; injectClient := Some false; onValidationError := false;
     trustedOrigins := None; maxMessageSize := Some (ofZ size); rateLimit := None;
     maxListenersPerEvent := None; channelIdOpt := CidNone |}.

(** [{ injectClient: false, schemas, rateLimit }]. *)
Definition withRateLimit (schemas : SchemaMap) (limit : Z) : ChannelOptions :=
  {| schemas := schemas; injectClient := Some false; onValidationError := false;
     trustedOrigins := None; maxMessageSize := None;
     rateLimit := Some (ofZ limit);
     maxListenersPerEvent := None; channelIdOpt := CidNone |}.

(** The same with a limit that need not be a whole number. *)
Definition withLimit (schemas : SchemaMap) (limit : number) : ChannelOptions :=
  {| schemas := schemas; injectClient := Some false; onValidationError := false;
     trustedOrigins := None; maxMessageSize := None; rateLimit := Some limit;
     maxListenersPerEvent := None; channelIdOpt := CidNone |}.

(** [{ injectClient: false, schemas, channelId }]. *)
Definition withChannelId (schemas : SchemaMap) (id : ChannelIdOpt) : ChannelOptions :=
  {| schemas := schemas; injectClient := Some false; onValidationError := false;
     trustedOrigins := None; maxMessageSize := None; rateLimit := None;
     maxListenersPerEvent := None; channelIdOpt := id |}.

(** The channel that [createChannel] builds with the reference built-ins;
    its random source does not matter unless the channel id is automatic. *)
Definition channel (opts : ChannelOptions) : Channel :=
  fst (createChannel (B := Ref.builtins) opts "0.4fzyo82mvyr").

(** The raw ping message with the text [s] as its payload. *)
Definition ping (s : string) : string :=
  Ref.json ("{'$ch':'ping','p':'" ++ s ++ "'}").

End Fixtures.

(* ===================================================================== *)
(** * The state a channel is left in *)
(* ===================================================================== *)

Module Reach.
Import Js Ipc Run.

Section WithBuiltins.
Context {B : Builtins}.

(** The state of the closure after the actions [acts], starting from [st]. *)
Fixpoint stateAfter (ch : Channel) (st : ChannelState) (acts : list action)
  : ChannelState :=
  match acts with
  | [] => st
  | Incoming now raw sourceUrl :: rest =>
      stateAfter ch (fst (onMessage ch st now raw sourceUrl)) rest
  | On type h :: rest => stateAfter ch (on ch st type h) rest
  | Off type h :: rest => stateAfter ch (off st type h) rest
  end.

End WithBuiltins.


End Reach.

(* ===================================================================== *)
(** * The windows of a process (native-window) *)
(* ===================================================================== *)

Module Process.

(** [onClose(callback)]: the callback takes the place of the one before.  The
    method does not start with [_ensureOpen]; the boolean says whether
    [console.warn] was called. *)
Definition onClose (w : Win.NativeWindow) : bool * Win.NativeWindow :=
  (Win._userCloseCallback w,
   {| Win._closed := Win._closed w; Win._unsafe := Win._unsafe w;
      Win._userCloseCallback := true;
      Win._windowCount := Win._windowCount w; Win._pump := Win._pump w;
      Win.issued := Win.issued w; Win.userCloseCalls := Win.userCloseCalls w |}).

(** The module-level variables [_pump] (whether the timer is set) and
    [_windowCount], with every window constructed so far.  A window's own
    copy of the two variables is refreshed from here whenever it runs. *)
Record World : Type := {
  _pump : bool;
  _windowCount : Z;
  windows : list Win.NativeWindow
}.

(** Before any window is constructed. *)
Definition start : World :=
  {| _pump := false; _windowCount := 0%Z; windows := [] |}.

Definition enter (g : World) (w : Win.NativeWindow) : Win.NativeWindow :=
  {| Win._closed := Win._closed w; Win._unsafe := Win._unsafe w;
     Win._userCloseCallback := Win._userCloseCallback w;
     Win._windowCount := _windowCount g; Win._pump := _pump g;
     Win.issued := Win.issued w; Win.userCloseCalls := Win.userCloseCalls w |}.

Fixpoint store (A : Type) (i : nat) (x : A) (l : list A) : list A :=
  match l, i with
  | [], _ => []
  | _ :: rest, O => x :: rest
  | y :: rest, S j => y :: store j x rest
  end.

Definition leave (g : World) (i : nat) (w : Win.NativeWindow) : World :=
  {| _pump := Win._pump w; _windowCount := Win._windowCount w;
     windows := store i w (windows g) |}.

(** Run [f] on the window numbered [i], if there is one. *)
Definition onWindow (g : World) (i : nat)
           (f : Win.NativeWindow -> Win.NativeWindow) : World :=
  match nth_error (windows g) i with
  | Some w => leave g i (f (enter g w))
  | None => g
  end.

(** What the program, the user and the native layer can do. *)
Inductive event : Type :=
| New (addon : Win.Addon)                    (* [new NativeWindow(options)] *)
| Invoke (i : nat) (m : Win.Method)          (* a method of window [i] *)
| EvaluateJs (i : nat) (script : string)     (* through a cached [unsafe] *)
| OnClose (i : nat)                          (* [onClose(callback)] *)
| CloseEvent (i : nat).                      (* the native close event *)

Definition step (g : World) (e : event) : World :=
  match e with
  | New addon =>
      match Win.new addon (_pump g) (_windowCount g) with
      | Win.Built w =>
          {| _pump := Win._pump w; _windowCount := Win._windowCount w;
             windows := (windows g ++ [w])%list |}
      | Win.Failed pump windowCount =>
          {| _pump := pump; _windowCount := windowCount; windows := windows g |}
      end
  | Invoke i m => onWindow g i (fun w => snd (Win.invoke m w))
  | EvaluateJs i script =>
      onWindow g i (fun w => if Win._unsafe w
                             then snd (Win.evaluateJs script w) else w)
  | OnClose i => onWindow g i (fun w => snd (onClose w))
  | CloseEvent i => onWindow g i Win._handleClose
  end.

Definition run (es : list event) : World := fold_left step es start.

(** An addon that works, and one whose window constructor throws. *)
Definition working : Win.Addon :=
  {| Win.init := Win.Returns; Win._NativeWindow := Win.Returns |}.

Definition broken : Win.Addon :=
  {| Win.init := Win.Returns; Win._NativeWindow := Win.Throws |}.

(** By how much a construction that failed has raised the window count:
    by one where [new _NativeWindow(options)] threw, by nothing where
    [init()] did. *)
Definition leaked (g : World) (e : event) : nat :=
  match e with
  | New addon =>
      match Win.new addon (_pump g) (_windowCount g) with
      | Win.Failed _ windowCount => Z.to_nat (windowCount - _windowCount g)
      | Win.Built _ => 0
      end
  | _ => 0
  end.

(** The same over the events [es], from the state [g] on. *)
Fixpoint lost (g : World) (es : list event) : nat :=
  match es with
  | [] => 0
  | e :: rest => leaked g e + lost (step g e) rest
  end.

(** The windows that are not closed. *)
Definition openWindows (g : World) : list Win.NativeWindow :=
  filter (fun w => negb (Win._closed w)) (windows g).

(** [close()] is called somewhere in [es]. *)
Definition closesByProgram (es : list event) : bool :=
  existsb (fun e => match e with Invoke _ Win.close => true | _ => false end) es.

(** How many windows of a list are open. *)
Definition openCount (l : list Win.NativeWindow) : nat :=
  length (filter (fun w => negb (Win._closed w)) l).

Definition isOpen (w : Win.NativeWindow) : nat := if Win._closed w then 0 else 1.

(** Through [_ensureOpen], methods, [evaluateJs] and [onClose] leave the
    window count, the pump and the count of callback calls as they are, and
    never reopen a window. *)
Record Quiet (w w' : Win.NativeWindow) : Prop := {
  quiet_count : Win._windowCount w' = Win._windowCount w;
  quiet_pump : Win._pump w' = Win._pump w;
  quiet_calls : Win.userCloseCalls w' = Win.userCloseCalls w;
  quiet_closed : Win._closed w = true -> Win._closed w' = true
}.

(** The count is at least the number of open windows, the pump runs while
    the count is positive, and the close callback of a window has been called
    at most once, and not at all while the window is open. *)
Record Sound (g : World) : Prop := {
  sound_count : (Z.of_nat (openCount (windows g)) <= _windowCount g)%Z;
  sound_pump : (0 < _windowCount g)%Z -> _pump g = true;
  sound_calls : forall w, In w (windows g) ->
                          Win.userCloseCalls w <= 1 /\
                          (Win._closed w = false -> Win.userCloseCalls w = 0)
}.

(** What holds besides while the program never calls [close()]; [n] is
    what failed constructions have added to the count. *)
Record Exact (n : nat) (g : World) : Prop := {
  exact_count : _windowCount g = Z.of_nat (openCount (windows g) + n);
  exact_pump : _pump g = (0 <? openCount (windows g) + n)
}.

End Process.

(* ===================================================================== *)
(** * Cookies (native-window) *)
(* ===================================================================== *)

Module Cookies.
Local Open Scope string_scope.

Record CookieInfo : Type := {
  name : string;
  value : string;
  domain : string;
  path : string;
  httpOnly : bool;
  secure : bool;
  sameSite : string;
  expires : Z
}.

(** The body of the loop of [_validateCookies]: [None] where it goes on to
    the next item. *)
Definition checked (item : Js.value) : option CookieInfo :=
  if negb (Js.is_object item) then None
  else
    match Js.get "name" item, Js.get "value" item with
    | Js.VStr name, Js.VStr value =>
        match Js.get "domain" item, Js.get "path" item with
        | Js.VStr domain, Js.VStr path =>
            match Js.get "httpOnly" item, Js.get "secure" item with
            | Js.VBool httpOnly, Js.VBool secure =>
                match Js.get "sameSite" item, Js.get "expires" item with
                | Js.VStr sameSite, Js.VNum expires =>
                    Some {| name := name; value := value; domain := domain;
                            path := path; httpOnly := httpOnly; secure := secure;
                            sameSite := sameSite; expires := expires |}
                | _, _ => None
                end
            | _, _ => None
            end
        | _, _ => None
        end
    | _, _ => None
    end.

(** The loop: [cookies.push] for every item that passes. *)
Fixpoint collect (items : list Js.value) : list CookieInfo :=
  match items with
  | [] => []
  | item :: rest =>
      match checked item with
      | Some cookie => cookie :: collect rest
      | None => collect rest
      end
  end.

(** A cookie as an item of the reply: an object with the eight fields that
    the interface [CookieInfo] lists. *)
Definition asItem (c : CookieInfo) : Js.value :=
  Js.VObj [("name", Js.VStr (name c)); ("value", Js.VStr (value c));
           ("domain", Js.VStr (domain c)); ("path", Js.VStr (path c));
           ("httpOnly", Js.VBool (httpOnly c)); ("secure", Js.VBool (secure c));
           ("sameSite", Js.VStr (sameSite c)); ("expires", Js.VNum (expires c))].

(** How the promise of [getCookies] is settled. *)
Inductive Settled : Type :=
| Resolved (cookies : list CookieInfo)
| Rejected (message : string).

Section WithBuiltins.
Context {B : Builtins}.

Definition _validateCookies (raw : string) : option (list CookieInfo) :=
  match JSON_parse raw with
  | Some (Js.VArr parsed) => Some (collect parsed)
  | _ => None
  end.

(** The callback that [getCookies] gives to [onCookies]. *)
Definition onCookies (raw : string) : Settled :=
  match _validateCookies raw with
  | Some validated => Resolved validated
  | None => Rejected "Failed to parse cookie response"
  end.

End WithBuiltins.

End Cookies.

(* ===================================================================== *)
(** * A channel on its window *)
(* ===================================================================== *)

Module Host.
Import Js Ipc.
Import Win (bind, ret).

Section WithBuiltins.
Context {B : Builtins}.

(** What an effect of the channel asks of the window it wraps:
    [win.postMessage(m)] and [win.unsafe.evaluateJs(s)]; calls of schemas and
    handlers do not touch the window. *)
Definition perform (e : effect) : Win.M unit :=
  match e with
  | PostMessage m => bind (Win.invoke (Win.postMessage m)) (fun _ => ret tt)
  | EvaluateJs s =>
      bind (Win.invoke Win.unsafe) (fun _ =>
      bind (Win.evaluateJs s) (fun _ => ret tt))
  | _ => ret tt
  end.

Fixpoint performAll (es : list effect) : Win.M unit :=
  match es with
  | [] => ret tt
  | e :: rest => bind (perform e) (fun _ => performAll rest)
  end.

(** [createChannel(win, options)] as the window sees it: [win.onMessage],
    the injection if there is one, [win.onPageLoad] when the client is
    injected. *)
Definition createChannel (opts : ChannelOptions) (random36 : string)
  : Win.M Channel :=
  let (ch, es) := Ipc.createChannel opts random36 in
  bind (Win.invoke Win.onMessage) (fun _ =>
  bind (performAll es) (fun _ =>
  bind (if injectClientOn opts
        then bind (Win.invoke Win.onPageLoad) (fun _ => ret tt)
        else ret tt) (fun _ =>
  ret ch))).

(** [ch.send(type, payload)]. *)
Definition send (ch : Channel) (type : string) (payload : value) : Win.M unit :=
  performAll (Ipc.send ch type payload).

(** The page-load callback of the channel, run by the window. *)
Definition pageLoaded (ch : Channel) (event : PageLoadEvent) (url : string)
  : Win.M unit :=
  performAll (Ipc.onPageLoad ch event url).

(** What [createWindow] leaves: an exception out of [require] or out of the
    constructor (with the module state of [native-window] as it is then), or
    what [createChannel] returned and the window. *)
Inductive Created : Type :=
| NotLoaded
| NotConstructed (pump : bool) (windowCount : Z)
| Wired (result : Win.Error + Channel) (w : Win.NativeWindow).

(** [createWindow(windowOptions, channelOptions)]: [require] the package,
    a new window, wrapped.  [required] is how [require] ends. *)
Definition createWindow (required : Win.Outcome) (addon : Win.Addon)
           (pump : bool) (windowCount : Z) (opts : ChannelOptions)
           (random36 : string) : Created :=
  match required with
  | Win.Throws => NotLoaded
  | Win.Returns =>
      match Win.new addon pump windowCount with
      | Win.Failed pump' windowCount' => NotConstructed pump' windowCount'
      | Win.Built w =>
          let (result, w') := createChannel opts random36 w in
          Wired result w'
      end
  end.

End WithBuiltins.

End Host.

(** More options of the test suite. *)
Module MoreFixtures.
Import Js Ipc.


End MoreFixtures.

(* ===================================================================== *)
(** * sanitizeForJs in one pass, and read back *)
(* ===================================================================== *)

Module Escapes.
Import San.
Local Open Scope N_scope.

(** What the first ten [replace] calls together make of one character [c]
    that is followed by [rest]: a backslash is doubled, a quote of any kind
    gets a backslash, the [$] of [${] gets one, and the two line breaks, NUL
    and the two separators become their escapes (backslash, [u], and the
    digits [2028] or [2029] for the last two). *)
Definition escapeChar (c : N) (rest : jsstring) : jsstring :=
  if N.eqb c backslash then [backslash; backslash]
  else if isQuote c then [backslash; c]
  else if opensSubstitution c rest then [backslash; dollar]
  else if N.eqb c LF then [backslash; 110]
  else if N.eqb c CR then [backslash; 114]
  else if N.eqb c NUL then [backslash; 48]
  else if N.eqb c LS then [backslash; 117; 50; 48; 50; 56]
  else if N.eqb c PS then [backslash; 117; 50; 48; 50; 57]
  else [c].

(** The same after the first four calls, and after the first five. *)
Definition quoted (c : N) : jsstring :=
  if N.eqb c backslash then [backslash; backslash]
  else if isQuote c then [backslash; c]
  else [c].

Definition quotedOrOpening (c : N) (rest : jsstring) : jsstring :=
  if opensSubstitution c rest then [backslash; dollar] else quoted c.

(** A pass from left to right that puts a text in the place of each
    character, chosen from the character and what follows it. *)
Fixpoint pass (f : N -> jsstring -> jsstring) (s : jsstring) : jsstring :=
  match s with
  | [] => []
  | c :: rest => f c rest ++ pass f rest
  end.

(** The whole of [sanitizeForJs] as one pass: where a case variant of the
    closing tag starts, the escaped tag is written, in lower case, and the
    variant passed over; any other character is escaped on its own. *)
Fixpoint onePass (skip : nat) (s : jsstring) : jsstring :=
  match s with
  | [] => []
  | c :: rest =>
      match skip with
      | S k => onePass k rest
      | O =>
          if matchesAt gi closing s
          then closingEscaped ++ onePass (length closing - 1) rest
          else escapeChar c rest ++ onePass 0 rest
      end
  end.

(** ** The value of a literal *)

Definition isDecimalDigit (c : N) : bool := (48 <=? c) && (c <=? 57).

Definition hexDigit (c : N) : option N :=
  if (48 <=? c) && (c <=? 57) then Some (c - 48)
  else if (97 <=? c) && (c <=? 102) then Some (c - 87)
  else if (65 <=? c) && (c <=? 70) then Some (c - 55)
  else None.

Definition hex2 (a b : N) : option N :=
  match hexDigit a, hexDigit b with
  | Some x, Some y => Some (16 * x + y)
  | _, _ => None
  end.

Definition hex4 (a b c d : N) : option N :=
  match hex2 a b, hex2 c d with
  | Some x, Some y => Some (256 * x + y)
  | _, _ => None
  end.

(** The character that a backslash followed by [e] stands for, when [e] is
    not [u], [x], a digit or a line terminator: a control character for
    [b f n r t v], and [e] itself otherwise. *)
Definition characterEscape (e : N) : N :=
  if N.eqb e 110 then LF
  else if N.eqb e 114 then CR
  else if N.eqb e 116 then 9
  else if N.eqb e 98 then 8
  else if N.eqb e 118 then 11
  else if N.eqb e 102 then 12
  else e.

(** The string that a text stands for when it is the body of a string
    literal in single or double quotes or of a template literal, as
    ECMAScript reads escapes; [None] when the text is not the body of
    all three: an unescaped quote of any kind, [${] or line terminator, a
    backslash at the end, a malformed [u] or [x] escape, and the escapes
    that strict code and templates refuse (a digit other than a lone [0]).
    A backslash before a line terminator continues the line.  Escapes of the
    form [u{...}] are not read and count as malformed. *)
Fixpoint unescape (s : jsstring) : option jsstring :=
  match s with
  | [] => Some []
  | c :: rest =>
      if N.eqb c backslash then
        match rest with
        | [] => None
        | e :: after =>
            if N.eqb e 117 then
              match after with
              | h1 :: h2 :: h3 :: h4 :: more =>
                  match hex4 h1 h2 h3 h4 with
                  | Some unit => option_map (cons unit) (unescape more)
                  | None => None
                  end
              | _ => None
              end
            else if N.eqb e 120 then
              match after with
              | h1 :: h2 :: more =>
                  match hex2 h1 h2 with
                  | Some unit => option_map (cons unit) (unescape more)
                  | None => None
                  end
              | _ => None
              end
            else if isDecimalDigit e then
              if N.eqb e 48 &&
                 negb match after with
                      | d :: _ => isDecimalDigit d
                      | [] => false
                      end
              then option_map (cons NUL) (unescape after)
              else None
            else if N.eqb e CR then
              match after with
              | l :: more => if N.eqb l LF then unescape more else unescape after
              | [] => unescape after
              end
            else if lineTerminator e then unescape after
            else option_map (cons (characterEscape e)) (unescape after)
        end
      else if lineTerminator c || isQuote c || opensSubstitution c rest then None
      else option_map (cons c) (unescape rest)
  end.

(** A NUL directly before a decimal digit. *)
Fixpoint nulBeforeDigit (s : jsstring) : bool :=
  match s with
  | [] => false
  | c :: rest =>
      (N.eqb c NUL && match rest with
                      | d :: _ => isDecimalDigit d
                      | [] => false
                      end)
      || nulBeforeDigit rest
  end.

(** The characters that [sanitizeForJs] escapes wherever they stand. *)
Definition special (c : N) : bool :=
  N.eqb c backslash || isQuote c || N.eqb c LF || N.eqb c CR || N.eqb c NUL ||
  N.eqb c LS || N.eqb c PS.

(** Nothing in [s] is escaped: no special character, no [${], no case
    variant of the closing tag. *)
Fixpoint clean (s : jsstring) : bool :=
  match s with
  | [] => true
  | c :: rest =>
      negb (special c) && negb (opensSubstitution c rest) &&
      negb (matchesAt gi closing s) && clean rest
  end.

End Escapes.

(* ===================================================================== *)
(** * The bundled client (native-window-ipc/client) *)
(* ===================================================================== *)

Module Client.
Import Js.
Local Open Scope string_scope.

Record ChannelClientOptions : Type := {
  schemas : Ipc.SchemaMap;
  onValidationError : bool
}.

(** The mutable part of the closure of [createChannelClient]: the typed
    [listeners] and the [externalListeners], an array of functions. *)
Record ClientState : Type := {
  listeners : list (string * list Ipc.handler);
  externalListeners : list Ipc.handler
}.

Definition initialState : ClientState :=
  {| listeners := []; externalListeners := [] |}.

(** What the client does, in program order: the calls of the typed side,
    the calls of external listeners and of the handler that was installed
    before ([orig]), and [window.ipc.postMessage].  [ThrowTypeError] ends the
    function: [schema.safeParse] was called on a value without that
    method. *)
Inductive effect : Type :=
| SafeParse (type : string) (data : value)
| ValidationError (type : string) (payload : value)
| Call (h : Ipc.handler) (payload : value)
| External (fn : Ipc.handler) (msg : string)
| Original (msg : string)
| PostMessage (message : string)
| ThrowTypeError.

Section WithBuiltins.
Context {B : Builtins}.

Definition encode (type : string) (payload : value) : string :=
  JSON_stringify (VObj [("$ch", VStr type); ("p", payload)]).

(** [decode(raw)] of the client: the cap is the constant. *)
Definition decode (raw : string) : option value :=
  if (Z.of_nat (str_length raw) >? 1048576)%Z then None
  else
    match JSON_parse raw with
    | None => None
    | Some parsed =>
        let parsed :=
          match parsed with
          | VObj props =>
              if in_ "__proto__" props
              then VObj (delete_key "__proto__" props)
              else parsed
          | other => other
          end in
        if is_object parsed &&
           match parsed with
           | VObj props => in_ "$ch" props && is_string (get "$ch" parsed)
           | _ => false
           end
        then Some parsed
        else None
    end.

Definition send (type : string) (payload : value) : list effect :=
  [PostMessage (encode type payload)].

(** [on]: no check of the type, no cap. *)
Definition on (st : ClientState) (type : string) (h : Ipc.handler) : ClientState :=
  let (set, ls) :=
    match lookup type (listeners st) with
    | Some set => (set, listeners st)
    | None => ([], Ipc.map_set type [] (listeners st))
    end in
  {| listeners := Ipc.map_set type (Ipc.set_add h set) ls;
     externalListeners := externalListeners st |}.

Definition off (st : ClientState) (type : string) (h : Ipc.handler) : ClientState :=
  match lookup type (listeners st) with
  | Some set =>
      {| listeners := Ipc.map_set type (Ipc.set_delete h set) (listeners st);
         externalListeners := externalListeners st |}
  | None => st
  end.

(** [__native_message_listeners__.add(fn)]; [None] is an argument that is
    not a function. *)
Definition add (st : ClientState) (fn : option Ipc.handler) : ClientState :=
  match fn with
  | Some f =>
      {| listeners := listeners st;
         externalListeners := (externalListeners st ++ [f])%list |}
  | None => st
  end.

(** [splice(indexOf(fn), 1)] when [fn] is there: its first occurrence goes. *)
Fixpoint removeFirst (f : Ipc.handler) (l : list Ipc.handler) : list Ipc.handler :=
  match l with
  | [] => []
  | x :: rest => if Nat.eqb x f then rest else x :: removeFirst f rest
  end.

Definition remove (st : ClientState) (f : Ipc.handler) : ClientState :=
  {| listeners := listeners st;
     externalListeners := removeFirst f (externalListeners st) |}.

(** What is done with a message that the typed side does not take: every
    external listener in turn, then the original handler if there was one. *)
Definition forward (st : ClientState) (orig : bool) (msg : string) : list effect :=
  (map (fun fn => External fn msg) (externalListeners st) ++
   (if orig then [Original msg] else []))%list.

(** The function installed as [window.__native_message__].  As on the host,
    [env.$ch in schemas] finds inherited names too, and for one of them that
    has a listener set [validatePayload] throws. *)
Definition receive (opts : ChannelClientOptions) (orig : bool)
           (st : ClientState) (msg : string) : list effect :=
  match decode msg with
  | Some env =>
      let ch := Ipc.envelope_ch env in
      if negb (in_ ch (schemas opts)) then forward st orig msg
      else
        match lookup ch (listeners st) with
        | Some set =>
            match lookup ch (schemas opts) with
            | None => [ThrowTypeError]
            | Some schema =>
                SafeParse ch (Ipc.envelope_p env) ::
                match Ipc.validatePayload schema (Ipc.envelope_p env) with
                | None =>
                    if onValidationError opts
                    then [ValidationError ch (Ipc.envelope_p env)]
                    else []
                | Some data => map (fun fn => Call fn data) set
                end
            end
        | None => forward st orig msg
        end
  | None => forward st orig msg
  end.

End WithBuiltins.

Definition handlersOf (st : ClientState) (type : string) : list Ipc.handler :=
  match lookup type (listeners st) with
  | Some set => set
  | None => []
  end.

Definition calls (es : list effect) : list (Ipc.handler * value) :=
  flat_map (fun e => match e with Call h v => [(h, v)] | _ => [] end) es.

(** The effects that hand a message on. *)
Definition forwards (e : effect) : bool :=
  match e with
  | External _ _ | Original _ => true
  | _ => false
  end.

End Client.

(* ===================================================================== *)
(** * The data source and its collection (native-window-tsdb) *)
(* ===================================================================== *)

Module Tsdb.
Import Js.
Local Open Scope string_scope.

(** [TKey extends string | number]. *)
Inductive Key : Type :=
| KStr (s : string)
| KNum (n : Z).

Definition key_eqb (a b : Key) : bool :=
  match a, b with
  | KStr x, KStr y => String.eqb x y
  | KNum x, KNum y => Z.eqb x y
  | _, _ => false
  end.

Definition keyValue (k : Key) : value :=
  match k with
  | KStr s => VStr s
  | KNum n => VNum n
  end.

(** [items], a [Map] in insertion order. *)
Definition Items : Type := list (Key * value).

(** [items.set(k, v)]: in place for a key that is there, at the end
    otherwise; [items.delete(k)]. *)
Fixpoint Map_set (k : Key) (v : value) (m : Items) : Items :=
  match m with
  | [] => [(k, v)]
  | (k', v') :: rest =>
      if key_eqb k k' then (k, v) :: rest else (k', v') :: Map_set k v rest
  end.

Definition Map_delete (k : Key) (m : Items) : Items :=
  filter (fun kv => negb (key_eqb k (fst kv))) m.

Fixpoint Map_get (k : Key) (m : Items) : option value :=
  match m with
  | [] => None
  | (k', v) :: rest => if key_eqb k k' then Some v else Map_get k rest
  end.

(** ** The host side: createDataSource *)

(** What the callback of [batch] does with its builder. *)
Inductive BuilderCall : Type :=
| BInsert (item : value)
| BUpdate (key : Key) (item : value)
| BDelete (key : Key).

(** The methods of the data source. *)
Inductive Call : Type :=
| Insert (item : value)
| Update (key : Key) (item : value)
| Delete (key : Key)
| Batch (fn : list BuilderCall)
| Sync (newItems : option (list value)).

Section DataSource.
Context {B : Builtins}.
Variable channel : string.
Variable getKey : value -> Key.

(** [send(payload)]: the messages handed to [sender.postMessage]. *)
Definition send (payload : value) : list string :=
  [JSON_stringify (VObj [("$ch", VStr channel); ("p", payload)])].

Definition insertOp (key : Key) (item : value) : value :=
  VObj [("t", VStr "i"); ("k", keyValue key); ("v", item)].

Definition updateOp (key : Key) (item : value) : value :=
  VObj [("t", VStr "u"); ("k", keyValue key); ("v", item)].

Definition deleteOp (key : Key) : value :=
  VObj [("t", VStr "d"); ("k", keyValue key)].

Definition snapshot (items : Items) : value :=
  VObj [("t", VStr "s");
        ("items", VArr (map (fun kv => VObj [("k", keyValue (fst kv)); ("v", snd kv)])
                            items))].

Definition sendSnapshot (items : Items) : list string := send (snapshot items).

Definition insert (items : Items) (item : value) : Items * list string :=
  let key := getKey item in
  (Map_set key item items, send (insertOp key item)).

Definition update (items : Items) (key : Key) (item : value) : Items * list string :=
  (Map_set key item items, send (updateOp key item)).

Definition delete (items : Items) (key : Key) : Items * list string :=
  (Map_delete key items, send (deleteOp key)).

(** One call on the builder: the map changes at once, the operation is
    queued. *)
Definition build (st : Items * list value) (c : BuilderCall) : Items * list value :=
  match c with
  | BInsert item =>
      let key := getKey item in
      (Map_set key item (fst st), (snd st ++ [insertOp key item])%list)
  | BUpdate key item =>
      (Map_set key item (fst st), (snd st ++ [updateOp key item])%list)
  | BDelete key =>
      (Map_delete key (fst st), (snd st ++ [deleteOp key])%list)
  end.

Definition batch (items : Items) (fn : list BuilderCall) : Items * list string :=
  let (items', ops) := fold_left build fn (items, []) in
  (items',
   match ops with
   | [] => []
   | _ :: _ => send (VObj [("t", VStr "b"); ("ops", VArr ops)])
   end).

(** The map that [sync(newItems)] goes on with: cleared and filled from
    [newItems] when they are given. *)
Definition refilled (items : Items) (newItems : option (list value)) : Items :=
  match newItems with
  | Some l => fold_left (fun m item => Map_set (getKey item) item m) l []
  | None => items
  end.

Definition sync (items : Items) (newItems : option (list value))
  : Items * list string :=
  let items' := refilled items newItems in
  (items', sendSnapshot items').

Definition call (items : Items) (c : Call) : Items * list string :=
  match c with
  | Insert item => insert items item
  | Update key item => update items key item
  | Delete key => delete items key
  | Batch fn => batch items fn
  | Sync newItems => sync items newItems
  end.

(** A run of calls: the map it leaves and the messages it posts, in order. *)
Fixpoint calls (items : Items) (cs : list Call) : Items * list string :=
  match cs with
  | [] => (items, [])
  | c :: rest =>
      let (items', posted) := call items c in
      let (items'', more) := calls items' rest in
      (items'', (posted ++ more)%list)
  end.

(** The call that does on its own what a builder call does in a batch. *)
Definition single (c : BuilderCall) : Call :=
  match c with
  | BInsert item => Insert item
  | BUpdate key item => Update key item
  | BDelete key => Delete key
  end.

(** The operation that a builder call queues. *)
Definition queued (c : BuilderCall) : value :=
  match c with
  | BInsert item => insertOp (getKey item) item
  | BUpdate key item => updateOp key item
  | BDelete key => deleteOp key
  end.

(** The payload of the message that a call posts, if it posts one. *)
Definition payloadOf (items : Items) (c : Call) : option value :=
  match c with
  | Insert item => Some (insertOp (getKey item) item)
  | Update key item => Some (updateOp key item)
  | Delete key => Some (deleteOp key)
  | Batch [] => None
  | Batch fn => Some (VObj [("t", VStr "b"); ("ops", VArr (map queued fn))])
  | Sync newItems => Some (snapshot (refilled items newItems))
  end.

End DataSource.

(** ** The webview side: nativeWindowCollectionOptions *)

(** The argument of [write]. *)
Inductive WriteMessage : Type :=
| WInsert (value : value)
| WUpdate (value : value)
| WDelete (key : value).

(** The calls on the sync parameters of the collection. *)
Inductive SyncCall : Type :=
| Begin
| Write (message : WriteMessage)
| Commit
| MarkReady.

(** How a function ends: it returns, or a [TypeError] leaves it; either way
    with the calls it has made. *)
Inductive Outcome : Type :=
| Returned (made : list SyncCall)
| Threw (made : list SyncCall).

(** [x.name] throws for [null] and [undefined]. *)
Definition nullish (v : value) : bool :=
  match v with
  | VNull | VUndefined => true
  | _ => false
  end.

(** What [for (const item of v)] goes through: the elements of an array,
    the characters of a string; nothing else that JSON yields is iterable. *)
Definition iterate (v : value) : option (list value) :=
  match v with
  | VArr xs => Some xs
  | VStr s => Some (map (fun c => VStr (String c EmptyString)) (list_ascii_of_string s))
  | _ => None
  end.

(** The loop over the items of a snapshot: the writes made, and whether an
    item that is [null] stopped it. *)
Fixpoint writeItems (items : list value) : list SyncCall * bool :=
  match items with
  | [] => ([], false)
  | item :: rest =>
      if nullish item then ([], true)
      else
        let (made, threw) := writeItems rest in
        (Write (WInsert (get "v" item)) :: made, threw)
  end.

(** The inner [switch] of a batch, for one operation. *)
Definition writeOp (op : value) : list SyncCall :=
  match get "t" op with
  | VStr t =>
      if String.eqb t "i" then [Write (WInsert (get "v" op))]
      else if String.eqb t "u" then [Write (WUpdate (get "v" op))]
      else if String.eqb t "d" then [Write (WDelete (get "k" op))]
      else []
  | _ => []
  end.

Fixpoint writeOps (ops : list value) : list SyncCall * bool :=
  match ops with
  | [] => ([], false)
  | op :: rest =>
      if nullish op then ([], true)
      else
        let (made, threw) := writeOps rest in
        ((writeOp op ++ made)%list, threw)
  end.

(** [processPayload(payload)], for a payload whose [t] is the string [t]. *)
Definition processPayload (t : string) (payload : value) : Outcome :=
  if String.eqb t "i" then
    Returned [Begin; Write (WInsert (get "v" payload)); Commit]
  else if String.eqb t "u" then
    Returned [Begin; Write (WUpdate (get "v" payload)); Commit]
  else if String.eqb t "d" then
    Returned [Begin; Write (WDelete (get "k" payload)); Commit]
  else if String.eqb t "s" then
    match iterate (get "items" payload) with
    | None => Threw [Begin]
    | Some items =>
        let (made, threw) := writeItems items in
        if threw then Threw (Begin :: made)
        else Returned (Begin :: made ++ [Commit; MarkReady])
    end
  else if String.eqb t "b" then
    match iterate (get "ops" payload) with
    | None => Threw [Begin]
    | Some ops =>
        let (made, threw) := writeOps ops in
        if threw then Threw (Begin :: made)
        else Returned (Begin :: made ++ [Commit])
    end
  else Returned [].

(** [!payload]. *)
Definition falsy (v : value) : bool :=
  match v with
  | VUndefined | VNull | VBool false => true
  | VNum n => Z.eqb n 0
  | VStr s => String.eqb s EmptyString
  | _ => false
  end.

Section Collection.
Context {B : Builtins}.
Variable channel : string.

(** [handler(msg)], the function given to the listener registry. *)
Definition handler (msg : string) : Outcome :=
  match JSON_parse msg with
  | None => Returned []
  | Some parsed =>
      if negb (Ipc.isEnvelope parsed) ||
         negb (String.eqb (Ipc.envelope_ch parsed) channel)
      then Returned []
      else
        let payload := get "p" parsed in
        if falsy payload then Returned []
        else
          match get "t" payload with
          | VStr t => processPayload t payload
          | _ => Returned []
          end
  end.

End Collection.

(** ** What the two sides should agree on *)

Definition told (c : BuilderCall) : SyncCall :=
  match c with
  | BInsert item => Write (WInsert item)
  | BUpdate _ item => Write (WUpdate item)
  | BDelete key => Write (WDelete (keyValue key))
  end.

(** The calls on the collection that a call on the data source stands for,
    one transaction for each message; [items] is the map after the call. *)
Definition transaction (items : Items) (c : Call) : list SyncCall :=
  match c with
  | Insert item => [Begin; Write (WInsert item); Commit]
  | Update _ item => [Begin; Write (WUpdate item); Commit]
  | Delete key => [Begin; Write (WDelete (keyValue key)); Commit]
  | Batch fn => (Begin :: map told fn ++ [Commit])%list
  | Sync _ =>
      (Begin :: map (fun kv => Write (WInsert (snd kv))) items ++
       [Commit; MarkReady])%list
  end.

(** A transaction that was completed: one [begin], writes, one [commit],
    and [markReady] after it if at all.  One that was left open: [begin]
    and writes. *)
Definition isWrite (c : SyncCall) : bool :=
  match c with
  | Write _ => true
  | _ => false
  end.

Definition completed (made : list SyncCall) : Prop :=
  exists writes,
    forallb isWrite writes = true /\
    (made = (Begin :: writes ++ [Commit])%list \/
     made = (Begin :: writes ++ [Commit; MarkReady])%list).

Definition leftOpen (made : list SyncCall) : Prop :=
  exists writes, forallb isWrite writes = true /\ made = Begin :: writes.

End Tsdb.

(* ===================================================================== *)
(** * Facts about numbers and property names *)
(* ===================================================================== *)

Module JsFacts.
Import Js.
Local Open Scope Z_scope.

(** A whole number that is not at least [m] lies below every whole number
    that is. *)
Lemma int_ge_lt (a k : Z) (m : number) :
  int_ge a m = false -> int_ge k m = true -> a < k.
Proof.
  destruct m as [[n d]| | |]; simpl; try discriminate.
  unfold QArith_base.Qle_bool. simpl. intros Ha Hk.
  apply Z.leb_gt in Ha. apply Z.leb_le in Hk.
  apply (Z.mul_lt_mono_pos_r (Z.pos d)); lia.
Qed.

Lemma int_ge_mono (a k : Z) (m : number) :
  int_ge a m = true -> a <= k -> int_ge k m = true.
Proof.
  destruct m as [[n d]| | |]; simpl; try discriminate; auto.
  unfold QArith_base.Qle_bool. simpl. intros Ha Hk.
  apply Z.leb_le in Ha. apply Z.leb_le.
  apply Z.le_trans with (a * Z.pos d); [exact Ha|].
  apply Z.mul_le_mono_nonneg_r; lia.
Qed.

Lemma gt_zero_lt (k : Z) (m : number) :
  gt_zero m = true -> int_ge k m = true -> 0 < k.
Proof.
  intros H0 Hk. apply (@int_ge_lt 0 k m); [|exact Hk].
  destruct m; simpl in *; try discriminate.
  now destruct (QArith_base.Qle_bool q (QArith_base.inject_Z 0)).
Qed.

Lemma int_ge_ofZ (n m : Z) : int_ge n (ofZ m) = (m <=? n).
Proof.
  unfold int_ge, ofZ, QArith_base.Qle_bool. simpl. now rewrite !Z.mul_1_r.
Qed.

Lemma int_gt_ofZ (n m : Z) : int_gt n (ofZ m) = (m <? n).
Proof.
  unfold int_gt, ofZ, QArith_base.Qle_bool. simpl. rewrite !Z.mul_1_r.
  destruct (Z.leb_spec n m), (Z.ltb_spec m n); try reflexivity; lia.
Qed.

Lemma gt_zero_ofZ (m : Z) : gt_zero (ofZ m) = (0 <? m).
Proof.
  unfold gt_zero, ofZ, QArith_base.Qle_bool. simpl. rewrite Z.mul_1_r.
  destruct (Z.leb_spec m 0), (Z.ltb_spec 0 m); try reflexivity; lia.
Qed.

(** An own key is found by [in]; a name that is neither own nor inherited
    is not. *)
Lemma in_own (A : Type) (k : string) (props : list (string * A)) (v : A) :
  lookup k props = Some v -> in_ k props = true.
Proof.
  intros H. unfold in_, has_key. rewrite H. apply orb_true_r.
Qed.

Lemma in_false (A : Type) (k : string) (props : list (string * A)) :
  in_ k props = false <-> lookup k props = None /\ inherited k = false.
Proof.
  unfold in_, has_key. destruct (lookup k props), (inherited k); simpl;
    intuition discriminate.
Qed.

End JsFacts.

(* ===================================================================== *)
(** * Facts about the typed channel *)
(* ===================================================================== *)

Module IpcFacts.
Import Js Ipc Run.
Local Open Scope string_scope.

Lemma lookup_delete_key_ne (A : Type) (k k' : string) (props : list (string * A)) :
  k <> k' -> lookup k (delete_key k' props) = lookup k props.
Proof.
  intros Hne. unfold delete_key.
  induction props as [|[k0 v] rest IH]; simpl; [reflexivity|].
  destruct (String.eqb k' k0) eqn:E'; simpl.
  - apply String.eqb_eq in E'. subst k0.
    destruct (String.eqb k k') eqn:E; [apply String.eqb_eq in E; contradiction|].
    exact IH.
  - destruct (String.eqb k k0); [reflexivity | exact IH].
Qed.

Lemma lookup_delete_key_eq (A : Type) (k : string) (props : list (string * A)) :
  lookup k (delete_key k props) = None.
Proof.
  unfold delete_key.
  induction props as [|[k0 v] rest IH]; simpl; [reflexivity|].
  destruct (String.eqb k k0) eqn:E; simpl; [exact IH|].
  rewrite E. exact IH.
Qed.

Lemma isEnvelope_hasStringCh (v : value) : isEnvelope v = hasStringCh v.
Proof.
  destruct v; try reflexivity.
  unfold isEnvelope, hasStringCh, in_, has_key, get. simpl.
  destruct (lookup "$ch" props) as [[]|]; reflexivity.
Qed.

Lemma hasStringCh_strip (props : list (string * value)) :
  hasStringCh (VObj (delete_key "__proto__" props)) = hasStringCh (VObj props).
Proof.
  unfold hasStringCh. rewrite lookup_delete_key_ne; [reflexivity | discriminate].
Qed.

Section WithBuiltins.
Context {B : Builtins}.

(** What [decode] returns, in terms of what [JSON.parse] returned. *)
Lemma decode_parsed (raw : string) (maxSize : option number) (parsed : value) :
  JSON_parse raw = Some parsed ->
  decode raw maxSize =
    if int_gt (Z.of_nat (str_length raw))
              match maxSize with Some m => m | None => ofZ MAX_MESSAGE_SIZE end
    then None
    else if hasStringCh parsed
         then Some match parsed with
                   | VObj props => VObj (delete_key "__proto__" props)
                   | other => other
                   end
         else None.
Proof.
  intros Hp. unfold decode. rewrite Hp.
  destruct (int_gt _ _); [reflexivity|].
  rewrite isEnvelope_hasStringCh.
  destruct parsed; try reflexivity.
  change (in_ "__proto__" props) with true. cbn iota.
  rewrite hasStringCh_strip. reflexivity.
Qed.

Lemma decode_unparsable (raw : string) (maxSize : option number) :
  JSON_parse raw = None -> decode raw maxSize = None.
Proof.
  intros Hp. unfold decode. rewrite Hp. destruct (int_gt _ _); reflexivity.
Qed.

(** A message that [decode] rejects has no effect at all. *)
Lemma onMessage_undecoded (ch : Channel) (st : ChannelState) (now : Z)
      (raw sourceUrl : string) :
  decode raw (maxMessageSize (options ch)) = None ->
  snd (onMessage ch st now raw sourceUrl) = [].
Proof.
  intros Hd. unfold onMessage.
  destruct (rateLimiter _ _ _) as [[] w]; simpl; [|reflexivity].
  unfold dispatch. rewrite Hd. reflexivity.
Qed.


(** ** C2: what is rejected before the schema is looked up *)

(** C2 (as amended).  For a raw message that [JSON.parse] accepts: if the
    parsed value is not an object with a string [$ch] (the key is missing,
    its value is not a string, or the value is no object), the message has no
    effect at all -- no [safeParse], no handler.  A [__proto__] key is no
    ground for rejection: when the value does have a string [$ch] and the
    message is within the size cap, [decode] returns the parsed object with
    its own top-level [__proto__] property deleted and everything else,
    nested [__proto__] keys included, as parsed.  (Within the cap: the
    test [raw.length > maxSize] is false.) *)
Theorem C2_envelope_rejection
        (ch : Channel) (st : ChannelState) (now : Z) (raw sourceUrl : string)
        (parsed : value) :
  JSON_parse raw = Some parsed ->
  (hasStringCh parsed = false ->
   snd (onMessage ch st now raw sourceUrl) = []) /\
  (hasStringCh parsed = true ->
   int_gt (Z.of_nat (str_length raw))
          match maxMessageSize (options ch) with
          | Some m => m
          | None => ofZ MAX_MESSAGE_SIZE
          end = false ->
   exists props,
     parsed = VObj props /\
     decode raw (maxMessageSize (options ch)) =
       Some (VObj (delete_key "__proto__" props)) /\
     forall k, k <> "__proto__" ->
               get k (VObj (delete_key "__proto__" props)) = get k parsed).
Proof.
  intros Hp. split.
  - intros Hch. apply onMessage_undecoded.
    rewrite (decode_parsed raw (maxMessageSize (options ch)) Hp), Hch.
    destruct (int_gt _ _); reflexivity.
  - intros Hch Hsize.
    destruct parsed as [ | | | | | |props]; try discriminate Hch.
    exists props. split; [reflexivity|]. split.
    + rewrite (decode_parsed raw (maxMessageSize (options ch)) Hp), Hch, Hsize.
      reflexivity.
    + intros k Hk. simpl. rewrite lookup_delete_key_ne by exact Hk. reflexivity.
Qed.

(** ** C4: outgoing messages *)


(** ** Channel prefixes *)

Lemma prefix_app (a b : string) : String.prefix a (a ++ b) = true.
Proof.
  induction a as [|c a IH]; simpl.
  - destruct b; reflexivity.
  - destruct (ascii_dec c c) as [_|n]; [exact IH | contradiction].
Qed.

Lemma substring_all (n : nat) (s : string) :
  String.length s <= n -> substring 0 n s = s.
Proof.
  revert n. induction s as [|c s IH]; intros n Hn; simpl.
  - destruct n; reflexivity.
  - destruct n; simpl in Hn; [lia|]. simpl. f_equal. apply IH. lia.
Qed.

Lemma slice_from_app (a b : string) :
  slice_from (String.length a) (a ++ b) = b.
Proof.
  unfold slice_from.
  induction a as [|c a IH]; simpl.
  - apply substring_all. lia.
  - exact IH.
Qed.

Lemma append_assoc (a b c : string) : (a ++ b) ++ c = a ++ b ++ c.
Proof.
  induction a as [|x a IH]; simpl; [reflexivity | now rewrite IH].
Qed.

(** [unprefixCh] undoes [prefixCh]. *)
Lemma unprefix_prefix (ch : Channel) (type : string) :
  unprefixCh ch (prefixCh ch type) = Some type.
Proof.
  unfold unprefixCh, prefixCh.
  destruct (String.eqb (channelId ch) EmptyString); [reflexivity|].
  rewrite <- append_assoc, prefix_app, slice_from_app. reflexivity.
Qed.

(** ** Origins *)

Lemma includes_In (l : list string) (x : string) :
  includes l x = true <-> In x l.
Proof.
  unfold includes. rewrite existsb_exists. split.
  - intros [y [Hy E]]. apply String.eqb_eq in E. now subst.
  - intros H. exists x. split; [exact H | apply String.eqb_refl].
Qed.

Lemma isOriginTrusted_spec (url : string) (trusted : list string) :
  isOriginTrusted url trusted = true <->
  exists o, URL_origin url = Some o /\ In o trusted.
Proof.
  unfold isOriginTrusted. destruct (URL_origin url) as [o|].
  - rewrite includes_In. split.
    + intros H. now exists o.
    + intros [o' [E H]]. now inversion E; subst.
  - split; [discriminate | intros [o [E _]]; discriminate].
Qed.

(** A source URL that does not parse is trusted by no list. *)
Lemma malformed_untrusted (url : string) (trusted : list string) :
  URL_origin url = None -> isOriginTrusted url trusted = false.
Proof.
  intros H. unfold isOriginTrusted. now rewrite H.
Qed.

Lemma normalizeAll_In (origins : list string) (o : string) :
  In o (normalizeAll origins) <->
  exists e, In e origins /\ normalizeOrigin e = Some o.
Proof.
  unfold normalizeAll. rewrite in_flat_map. split.
  - intros [e [He Ho]]. exists e. split; [exact He|].
    destruct (normalizeOrigin e) as [n|]; simpl in Ho; [|contradiction].
    destruct Ho as [->|[]]. reflexivity.
  - intros [e [He Ho]]. exists e. split; [exact He|]. rewrite Ho. now left.
Qed.

(** No opaque origin is ever in the normalized list. *)
Lemma normalizeAll_not_null (origins : list string) :
  ~ In "null" (normalizeAll origins).
Proof.
  rewrite normalizeAll_In. intros [e [_ He]]. unfold normalizeOrigin in He.
  destruct (URL_origin e) as [o|]; [|discriminate].
  destruct (String.eqb o "null") eqn:E; [discriminate|].
  inversion He; subst. discriminate E.
Qed.

(** The origin checks are on exactly when some entry of [trustedOrigins]
    normalizes. *)
Lemma originsEnforced_createChannel (opts : ChannelOptions) (random36 : string) :
  originsEnforced (fst (createChannel opts random36)) = true <->
  exists l e o,
    trustedOrigins opts = Some l /\ In e l /\ normalizeOrigin e = Some o.
Proof.
  unfold originsEnforced, createChannel. simpl.
  destruct (trustedOrigins opts) as [l|]; simpl.
  - destruct (normalizeAll l) as [|o rest] eqn:E.
    + split; [discriminate|]. intros [l' [e [o [Hl [He Ho]]]]].
      inversion Hl; subst l'.
      assert (H : In o (normalizeAll l)) by (apply normalizeAll_In; eauto).
      rewrite E in H. destruct H.
    + split; [|reflexivity]. intros _.
      assert (H : In o (normalizeAll l)) by (rewrite E; now left).
      apply normalizeAll_In in H. destruct H as [e [He Ho]].
      exists l, e, o. auto.
  - split; [discriminate|]. intros [l [e [o [Hl _]]]]. discriminate.
Qed.

(** While the origin checks are on, a message whose source is not trusted
    has no effect. *)
Lemma origin_gate (ch : Channel) (st : ChannelState) (now : Z)
      (raw sourceUrl : string) :
  originsEnforced ch = true ->
  isOriginTrusted sourceUrl (trustedList ch) = false ->
  snd (onMessage ch st now raw sourceUrl) = [].
Proof.
  intros He Hu. unfold onMessage.
  destruct (rateLimiter _ _ _) as [[] w]; simpl; [|reflexivity].
  unfold dispatch.
  destruct (decode _ _) as [env|]; [|reflexivity].
  destruct (unprefixCh _ _) as [eventType|]; [|reflexivity].
  rewrite He, Hu. reflexivity.
Qed.

(** While the origin checks are off, the source of a message plays no part
    in what happens to it. *)
Lemma origin_gate_off (ch : Channel) (st : ChannelState) (now : Z)
      (raw sourceUrl sourceUrl' : string) :
  originsEnforced ch = false ->
  onMessage ch st now raw sourceUrl = onMessage ch st now raw sourceUrl'.
Proof.
  intros He. unfold onMessage, dispatch. now rewrite He.
Qed.

(** The checks are off for a list none of whose entries normalizes, empty
    or not. *)
Lemma originsEnforced_none_normalizes (opts : ChannelOptions) (random36 : string)
      (l : list string) :
  trustedOrigins opts = Some l ->
  (forall e, In e l -> normalizeOrigin e = None) ->
  originsEnforced (fst (createChannel opts random36)) = false.
Proof.
  intros Hl Hnone.
  destruct (originsEnforced _) eqn:E; [|reflexivity].
  apply originsEnforced_createChannel in E.
  destruct E as [l' [e [o [Hl' [He Ho]]]]].
  rewrite Hl in Hl'. inversion Hl'; subst l'.
  rewrite (Hnone e He) in Ho. discriminate Ho.
Qed.

(** The gate in terms of the options: when some entry of [trustedOrigins]
    normalizes, no message is handled unless the origin of its source URL is
    the normal form of some entry. *)
Lemma origin_gate_createChannel (opts : ChannelOptions) (random36 : string)
      (st : ChannelState) (now : Z) (raw sourceUrl : string)
      (l : list string) (e o : string) :
  trustedOrigins opts = Some l -> In e l -> normalizeOrigin e = Some o ->
  (forall e' o', In e' l -> URL_origin sourceUrl = Some o' ->
                 normalizeOrigin e' <> Some o') ->
  snd (onMessage (fst (createChannel opts random36)) st now raw sourceUrl) = [].
Proof.
  intros Hl He Ho Hnone. apply origin_gate.
  - apply originsEnforced_createChannel. exists l, e, o. auto.
  - destruct (isOriginTrusted _ _) eqn:E; [|reflexivity].
    apply isOriginTrusted_spec in E. destruct E as [o' [Hu Hin]].
    unfold trustedList, createChannel in Hin. simpl in Hin. rewrite Hl in Hin.
    simpl in Hin. apply normalizeAll_In in Hin. destruct Hin as [e' [He' Hn]].
    exfalso. exact (Hnone e' o' He' Hu Hn).
Qed.

(** ** Injection of the client *)

(** While the origin checks are on, nothing is injected when the channel is
    created, and a page load injects the client only when it has finished on
    a trusted origin. *)
Lemma deferred_injection (opts : ChannelOptions) (random36 : string) :
  originsEnforced (fst (createChannel opts random36)) = true ->
  snd (createChannel opts random36) = [] /\
  forall event url,
    onPageLoad (fst (createChannel opts random36)) event url <> [] ->
    event = finished /\
    isOriginTrusted url (trustedList (fst (createChannel opts random36))) = true.
Proof.
  intros He. split.
  - unfold createChannel in *. simpl in *. rewrite He.
    destruct (injectClientOn opts); reflexivity.
  - intros event url. unfold onPageLoad. rewrite He.
    destruct (injectClientOn _); [|congruence].
    destruct event; [congruence|].
    destruct (isOriginTrusted _ _); simpl; [auto | congruence].
Qed.

(** With no trusted origins the client is injected at once and after every
    page load that finishes. *)
Lemma immediate_injection (opts : ChannelOptions) (random36 : string) :
  injectClientOn opts = true ->
  trustedOrigins opts = None \/ trustedOrigins opts = Some [] ->
  snd (createChannel opts random36) = inject (fst (createChannel opts random36)) /\
  forall url,
    onPageLoad (fst (createChannel opts random36)) finished url =
    inject (fst (createChannel opts random36)).
Proof.
  intros Hi Ht.
  assert (He : originsEnforced (fst (createChannel opts random36)) = false).
  { unfold originsEnforced, createChannel. simpl.
    destruct Ht as [-> | ->]; reflexivity. }
  split.
  - unfold createChannel in *. simpl in *. rewrite Hi, He. reflexivity.
  - intros url. unfold onPageLoad.
    change (options (fst (createChannel opts random36))) with opts.
    rewrite Hi, He. reflexivity.
Qed.

(** ** C5: the round trip of an envelope *)

(** [on] adds a new handler after the ones that are there. *)
Lemma lookup_map_set_eq (A : Type) (k : string) (v : A) (m : list (string * A)) :
  lookup k (map_set k v m) = Some v.
Proof.
  induction m as [|[k' v'] rest IH]; simpl.
  - now rewrite String.eqb_refl.
  - destruct (String.eqb k k') eqn:E; simpl.
    + now rewrite String.eqb_refl.
    + now rewrite E.
Qed.

Lemma on_appends (ch : Channel) (st : ChannelState) (type : string) (h : handler) :
  in_ type (schemas (options ch)) = true ->
  maxListenersPerEvent (options ch) = None ->
  ~ In h (handlersOf st type) ->
  handlersOf (on ch st type h) type = (handlersOf st type ++ [h])%list.
Proof.
  intros Hk Hm Hn. unfold on, handlersOf in *. rewrite Hk, Hm. simpl.
  destruct (lookup type (listeners st)) as [set|]; simpl.
  - rewrite lookup_map_set_eq. unfold set_add.
    destruct (existsb (Nat.eqb h) set) eqn:E; [|reflexivity].
    apply existsb_exists in E. destruct E as [x [Hx E]].
    apply Nat.eqb_eq in E. subst x. contradiction.
  - rewrite lookup_map_set_eq. reflexivity.
Qed.

Lemma calls_map_Call (data : value) (set : list handler) :
  calls (map (fun fn => Call fn data) set) = map (fun h => (h, data)) set.
Proof.
  induction set as [|h set IH]; simpl; [reflexivity | now rewrite <- IH].
Qed.

Lemma carried_fields (type : string) (payload : value) :
  hasStringCh (carried type payload) = true /\
  envelope_ch (carried type payload) = type /\
  envelope_p (carried type payload) = payload /\
  delete_key "__proto__"
    (("$ch", VStr type) :: match payload with
                           | VUndefined => []
                           | _ => [("p", payload)]
                           end) =
  (("$ch", VStr type) :: match payload with
                         | VUndefined => []
                         | _ => [("p", payload)]
                         end).
Proof.
  destruct payload; repeat split; reflexivity.
Qed.

(** C5 (as amended).  For a payload that JSON carries unchanged and that
    parses under [schemas[type]]: when the encoded message is within the size
    cap, decoding [encode(prefixCh(type), payload)] yields the envelope with
    [$ch = prefixCh(type)] and [p = payload]; and when moreover the rate
    limiter lets the message through and its source passes the origin check,
    delivering it calls exactly the handlers registered for [type], in the
    order of the set, each with [safeParse]'s data. *)
Theorem C5_envelope_round_trip
        (ch : Channel) (st : ChannelState) (now : Z) (sourceUrl : string)
        (type : string) (payload data : value) (schema : SchemaLike) :
  lookup type (schemas (options ch)) = Some schema ->
  schema payload = Some data ->
  JSON_parse (encode (prefixCh ch type) payload) =
    Some (carried (prefixCh ch type) payload) ->
  int_gt (Z.of_nat (str_length (encode (prefixCh ch type) payload)))
         match maxMessageSize (options ch) with
         | Some m => m
         | None => ofZ MAX_MESSAGE_SIZE
         end = false ->
  fst (rateLimiter (rateLimit (options ch)) now (_rateLimitWindow st)) = true ->
  (originsEnforced ch = true ->
   isOriginTrusted sourceUrl (trustedList ch) = true) ->
  let raw := encode (prefixCh ch type) payload in
  (exists env,
     decode raw (maxMessageSize (options ch)) = Some env /\
     envelope_ch env = prefixCh ch type /\
     envelope_p env = payload) /\
  calls (snd (onMessage ch st now raw sourceUrl)) =
    map (fun h => (h, data)) (handlersOf st type).
Proof.
  intros Hs Hd Hrt Hsize Hrate Horigin raw.
  destruct (carried_fields (prefixCh ch type) payload) as [Hc [Hch [Hp Hdel]]].
  assert (Hdec : decode raw (maxMessageSize (options ch)) =
                 Some (carried (prefixCh ch type) payload)).
  { rewrite (decode_parsed raw (maxMessageSize (options ch)) Hrt), Hc.
    unfold raw. rewrite Hsize. unfold carried. now rewrite Hdel. }
  split.
  - exists (carried (prefixCh ch type) payload). auto.
  - unfold onMessage.
    destruct (rateLimiter _ _ _) as [admitted w]. simpl in Hrate. subst admitted.
    simpl. unfold dispatch.
    rewrite Hdec, Hch, unprefix_prefix, Hp, (JsFacts.in_own _ _ Hs), Hs.
    assert (Hgate : originsEnforced ch &&
                    negb (isOriginTrusted sourceUrl (trustedList ch)) = false).
    { destruct (originsEnforced ch); [|reflexivity].
      now rewrite Horigin. }
    rewrite Hgate. unfold handlersOf, validatePayload.
    destruct (lookup type (listeners st)) as [set|]; [|reflexivity].
    rewrite Hd. simpl. apply calls_map_Call.
Qed.

End WithBuiltins.

End IpcFacts.

(* ===================================================================== *)
(** * The rate limiter *)
(* ===================================================================== *)

Module RateFacts.
Import Js Ipc Run.
Local Open Scope Z_scope.

Lemma nondecreasing_app (a : list Z) (x : Z) :
  nondecreasing a -> (forall y, In y a -> y <= x) -> nondecreasing (a ++ [x]).
Proof.
  induction a as [|y a IH]; simpl; intros Hs Hx.
  - split; [intros u []|exact I].
  - destruct Hs as [Hy Hs]. split.
    + intros u Hu. apply in_app_or in Hu. destruct Hu as [Hu|[<-|[]]]; auto.
    + apply IH; auto.
Qed.

Lemma nondecreasing_filter (f : Z -> bool) (a : list Z) :
  nondecreasing a -> nondecreasing (filter f a).
Proof.
  induction a as [|y a IH]; simpl; intros Hs; [exact I|].
  destruct Hs as [Hy Hs]. destruct (f y); simpl; auto.
  split; auto. intros u Hu. apply filter_In in Hu. apply Hy, Hu.
Qed.

Lemma filter_all (A : Type) (f : A -> bool) (l : list A) :
  (forall x, In x l -> f x = true) -> filter f l = l.
Proof.
  induction l as [|x l IH]; simpl; intros H; [reflexivity|].
  rewrite (H x) by now left. f_equal. apply IH. intros y Hy. apply H. now right.
Qed.

(** On a window in arrival order the [while] loop is a filter: it drops
    exactly the timestamps that are a second old or older. *)
Lemma shiftExpired_filter (now : Z) (w : list Z) :
  nondecreasing w ->
  shiftExpired now w = filter (fun a => now - 1000 <? a) w.
Proof.
  induction w as [|t w IH]; simpl; intros Hs; [reflexivity|].
  destruct Hs as [Ht Hs].
  destruct (t <=? now - 1000) eqn:E.
  - apply Z.leb_le in E.
    assert (E' : (now - 1000 <? t) = false) by (apply Z.ltb_ge; lia).
    rewrite E'. apply IH, Hs.
  - apply Z.leb_gt in E.
    assert (E' : (now - 1000 <? t) = true) by (apply Z.ltb_lt; lia).
    rewrite E'. f_equal. symmetry. apply filter_all.
    intros u Hu. apply Z.ltb_lt. specialize (Ht u Hu). lia.
Qed.

Lemma filter_filter_younger (last now : Z) (a : list Z) :
  last <= now ->
  filter (fun x => now - 1000 <? x) (filter (fun x => last - 1000 <? x) a) =
  filter (fun x => now - 1000 <? x) a.
Proof.
  intros Hle. induction a as [|y a IH]; simpl; [reflexivity|].
  destruct (last - 1000 <? y) eqn:E1; simpl.
  - destruct (now - 1000 <? y); [f_equal|]; exact IH.
  - apply Z.ltb_ge in E1.
    assert (E2 : (now - 1000 <? y) = false) by (apply Z.ltb_ge; lia).
    rewrite E2. exact IH.
Qed.

Lemma filter_length_le (A : Type) (f g : A -> bool) (l : list A) :
  (forall x, In x l -> f x = true -> g x = true) ->
  (length (filter f l) <= length (filter g l))%nat.
Proof.
  induction l as [|x l IH]; simpl; intros H; [lia|].
  assert (IH' : (length (filter f l) <= length (filter g l))%nat).
  { apply IH. intros y Hy. apply H. now right. }
  destruct (f x) eqn:Ef.
  - rewrite (H x (or_introl eq_refl) Ef). simpl. lia.
  - destruct (g x); simpl; lia.
Qed.

Lemma countIn_app (lo hi : Z) (a b : list Z) :
  countIn lo hi (a ++ b) = (countIn lo hi a + countIn lo hi b)%nat.
Proof.
  unfold countIn. now rewrite filter_app, length_app.
Qed.

(** Establish: a fresh channel has admitted nothing. *)
Lemma LimiterInv_initial (r last : Z) : 0 <= r -> LimiterInv r last [] [].
Proof.
  intros Hr. split; simpl; auto.
  - intros t. unfold countIn. simpl. lia.
Qed.

(** Preserve: one more message, not earlier than the latest.  The bound [r]
    is any whole number that is at least the limit. *)
Lemma LimiterInv_step (limit : number) (r last now : Z)
      (history window : list Z) :
  gt_zero limit = true -> int_ge r limit = true -> last <= now ->
  LimiterInv r last history window ->
  let (ok, window') := rateLimiter (Some limit) now window in
  LimiterInv r now (history ++ if ok then [now] else []) window'.
Proof.
  intros Hgt Hge Hle [Hpast Hsorted Hwin Hbound].
  unfold rateLimiter. rewrite Hgt.
  assert (Hshift : shiftExpired now window =
                   filter (fun a => now - 1000 <? a) history).
  { rewrite shiftExpired_filter.
    - rewrite Hwin. apply filter_filter_younger, Hle.
    - rewrite Hwin. apply nondecreasing_filter, Hsorted. }
  rewrite Hshift.
  destruct (int_ge (Z.of_nat (length (filter _ history))) limit) eqn:Efull.
  - rewrite app_nil_r. split; auto.
    intros a Ha. specialize (Hpast a Ha). lia.
  - assert (Hroom : Z.of_nat (length (filter (fun a => now - 1000 <? a) history)) < r)
      by exact (JsFacts.int_ge_lt _ _ _ Efull Hge).
    split.
    + intros a Ha. apply in_app_or in Ha.
      destruct Ha as [Ha|[<-|[]]]; [specialize (Hpast a Ha)|]; lia.
    + apply nondecreasing_app; auto.
      intros y Hy. specialize (Hpast y Hy). lia.
    + rewrite filter_app. simpl.
      assert (E : (now - 1000 <? now) = true) by (apply Z.ltb_lt; lia).
      now rewrite E.
    + intros t. rewrite countIn_app. unfold countIn at 2. simpl.
      destruct ((t <=? now) && (now <? t + 1000)) eqn:Ein; simpl.
      * apply andb_prop in Ein. destruct Ein as [E1 E2].
        apply Z.leb_le in E1. apply Z.ltb_lt in E2.
        assert (Hle' : (countIn t (t + 1000)%Z history <=
                        length (filter (fun a => (now - 1000 <? a)%Z) history))%nat).
        { apply filter_length_le. intros x _ Hx.
          apply andb_prop in Hx. destruct Hx as [Hx _].
          apply Z.leb_le in Hx. apply Z.ltb_lt. lia. }
        lia.
      * specialize (Hbound t). lia.
Qed.

(** Use: whatever arrives afterwards, in arrival order, no second holds more
    than [r] admitted messages. *)
Lemma admits_bound (limit : number) (r : Z) (ts : list Z) :
  gt_zero limit = true -> int_ge r limit = true ->
  forall last history window,
    LimiterInv r last history window ->
    nondecreasing ts ->
    (forall u, In u ts -> last <= u) ->
    forall t,
      Z.of_nat (countIn t (t + 1000) (history ++ admits (Some limit) window ts))
      <= r.
Proof.
  intros Hgt Hge.
  induction ts as [|now rest IH]; intros last history window Hinv Hs Hlast t.
  - simpl. rewrite app_nil_r. apply (inv_bound Hinv).
  - destruct Hs as [Hnow Hs].
    assert (Hstep := @LimiterInv_step limit r last now history window Hgt Hge
                       (Hlast now (or_introl eq_refl)) Hinv).
    cbn [admits].
    destruct (rateLimiter (Some limit) now window) as [ok window'].
    rewrite app_assoc. apply (IH now _ window' Hstep Hs). exact Hnow.
Qed.

Lemma rateLimitWindow_on `{Builtins} (ch : Channel) (st : ChannelState)
      (type : string) (h : handler) :
  _rateLimitWindow (on ch st type h) = _rateLimitWindow st.
Proof.
  unfold on. destruct (negb _); [reflexivity|].
  destruct (lookup type (listeners st)); reflexivity.
Qed.

Lemma rateLimitWindow_off (st : ChannelState) (type : string) (h : handler) :
  _rateLimitWindow (off st type h) = _rateLimitWindow st.
Proof.
  unfold off. destruct (lookup type (listeners st)); reflexivity.
Qed.

Section WithBuiltins.
Context {B : Builtins}.

(** Only admitted messages are dispatched. *)
Lemma dispatched_admitted (ch : Channel) (lo hi : Z) (acts : list action) :
  forall st,
    (dispatchedWithin lo hi (run ch st acts) <=
     countIn lo hi (admits (rateLimit (options ch)) (_rateLimitWindow st)
                           (arrivals acts)))%nat.
Proof.
  induction acts as [|[now raw src|type h|type h] rest IH]; intros st.
  - simpl. unfold dispatchedWithin, countIn. simpl. lia.
  - cbn [run arrivals admits]. unfold onMessage.
    destruct (rateLimiter _ _ _) as [ok window'].
    specialize (IH {| listeners := listeners st; _rateLimitWindow := window' |}).
    cbn [_rateLimitWindow] in IH.
    rewrite countIn_app. unfold dispatchedWithin in *. cbn [filter fst snd].
    destruct ok.
    + unfold countIn at 1. cbn [filter].
      destruct ((lo <=? now) && (now <? hi)); cbn [andb length].
      * destruct (dispatched _); cbn [length]; lia.
      * lia.
    + assert (E : dispatched [] = false) by reflexivity. rewrite E.
      rewrite andb_false_r. unfold countIn at 1. simpl. exact IH.
  - cbn [run arrivals]. rewrite <- (rateLimitWindow_on ch st type h). apply IH.
  - cbn [run arrivals]. rewrite <- (rateLimitWindow_off st type h). apply IH.
Qed.

(** What a message does once admitted depends on the listeners only. *)
Lemma dispatch_listeners (ch : Channel) (st st' : ChannelState)
      (raw src : string) :
  listeners st = listeners st' ->
  dispatch ch st raw src = dispatch ch st' raw src.
Proof.
  intros H. unfold dispatch. now rewrite H.
Qed.

(** The limiter with [r = 3] on a burst at [t0] and a straggler 1.1 s on. *)
Lemma limiter_three (t0 : Z) :
  rateLimiter (Some (ofZ 3)) t0 [] = (true, [t0]) /\
  rateLimiter (Some (ofZ 3)) t0 [t0] = (true, [t0; t0]) /\
  rateLimiter (Some (ofZ 3)) t0 [t0; t0] = (true, [t0; t0; t0]) /\
  rateLimiter (Some (ofZ 3)) t0 [t0; t0; t0] = (false, [t0; t0; t0]) /\
  rateLimiter (Some (ofZ 3)) (t0 + 1100) [t0; t0; t0] = (true, [t0 + 1100]).
Proof.
  assert (E0 : (t0 <=? t0 - 1000) = false) by (apply Z.leb_gt; lia).
  assert (E1 : (t0 <=? t0 + 1100 - 1000) = true) by (apply Z.leb_le; lia).
  unfold rateLimiter. simpl. rewrite E0, E1. simpl. repeat split; reflexivity.
Qed.

(** C6 (as amended).  For a limit [r > 0], any number, and messages whose
    arrival times do not decrease, the messages dispatched to handlers in
    any window [t, t + 1000 ms) -- any interval shorter than one second --
    are at most [k], for every whole number [k >= r]: at most [r] when [r]
    is a whole number, at most [r] rounded up when it is not, and with no
    bound for [Infinity].  A timestamp is dropped from the limiter once it
    is a full second old, so two ends of a closed one-second interval are
    not counted together.  With [r = 3] and a fresh channel, of five
    messages arriving in one millisecond the first three are handled as they
    would be without a limit and the fourth and fifth are dropped, and a
    sixth arriving 1.1 s later is handled again. *)
Theorem C6_rate_limit (ch : Channel) (r : number) (acts : list action) :
  rateLimit (options ch) = Some r ->
  gt_zero r = true ->
  nondecreasing (arrivals acts) ->
  (forall (k : nat) t,
     int_ge (Z.of_nat k) r = true ->
     (dispatchedWithin t (t + 1000) (run ch initialState acts) <= k)%nat) /\
  (r = ofZ 3 ->
   forall st t0 m1 m2 m3 m4 m5 m6 src,
     _rateLimitWindow st = [] ->
     map snd (run ch st [Incoming t0 m1 src; Incoming t0 m2 src;
                         Incoming t0 m3 src; Incoming t0 m4 src;
                         Incoming t0 m5 src; Incoming (t0 + 1100) m6 src]) =
     [dispatch ch st m1 src; dispatch ch st m2 src; dispatch ch st m3 src;
      []; []; dispatch ch st m6 src]).
Proof.
  intros Hlimit Hr Hs. split.
  - intros k t Hk.
    assert (Hpos := JsFacts.gt_zero_lt _ _ Hr Hk).
    assert (Hd := dispatched_admitted ch t (t + 1000) acts initialState).
    rewrite Hlimit in Hd. cbn [_rateLimitWindow initialState] in Hd.
    destruct (arrivals acts) as [|first rest] eqn:Ets.
    + simpl in Hd. unfold countIn in Hd. simpl in Hd. lia.
    + assert (Hb := @admits_bound r (Z.of_nat k) (first :: rest) Hr Hk first [] []
                      (LimiterInv_initial first (Z.lt_le_incl _ _ Hpos)) Hs).
      assert (Hfirst : forall u, In u (first :: rest) -> first <= u).
      { intros u [<-|Hu]; [lia | apply (proj1 Hs), Hu]. }
      specialize (Hb Hfirst t). cbn [app] in Hb. lia.
  - intros -> [ls w] t0 m1 m2 m3 m4 m5 m6 src Hw.
    cbn [_rateLimitWindow] in Hw. subst w.
    destruct (limiter_three t0) as [R1 [R2 [R3 [R4 R5]]]].
    cbn [run]. unfold onMessage. rewrite Hlimit. cbn [_rateLimitWindow listeners].
    rewrite R1. cbn [_rateLimitWindow listeners]. rewrite R2.
    cbn [_rateLimitWindow listeners]. rewrite R3.
    cbn [_rateLimitWindow listeners]. rewrite R4.
    cbn [_rateLimitWindow listeners]. rewrite R4.
    cbn [_rateLimitWindow listeners]. rewrite R5.
    cbn [map snd].
    repeat (f_equal; [now apply dispatch_listeners|]). reflexivity.
Qed.

End WithBuiltins.

End RateFacts.

(* ===================================================================== *)
(** * Facts about the NativeWindow facade *)
(* ===================================================================== *)

Module WinFacts.
Import Win.
Local Open Scope string_scope.

Lemma ensureOpen_closed (w : NativeWindow) :
  _closed w = true -> _ensureOpen w = (inl WindowIsClosed, w).
Proof.
  intros H. unfold _ensureOpen. now rewrite H.
Qed.

Lemma ensureOpen_open (w : NativeWindow) :
  _closed w = false -> _ensureOpen w = (inr tt, w).
Proof.
  intros H. unfold _ensureOpen. now rewrite H.
Qed.

(** Whatever follows [_ensureOpen] is not run on a closed window. *)
Lemma guarded_closed (A : Type) (k : M A) (w : NativeWindow) :
  _closed w = true -> (_ensureOpen ;; k) w = (inl WindowIsClosed, w).
Proof.
  intros H. unfold bind. now rewrite (ensureOpen_closed w H).
Qed.

(** Both ways of closing leave the flag set. *)
Lemma closed_after_handleClose (w : NativeWindow) : _closed (_handleClose w) = true.
Proof.
  unfold _handleClose. destruct (_closed w) eqn:E; [exact E | reflexivity].
Qed.

Lemma closed_after_close (w : NativeWindow) : _closed (snd (invoke close w)) = true.
Proof.
  unfold invoke, bind, _ensureOpen.
  destruct (_closed w) eqn:E; [exact E | reflexivity].
Qed.

(** C9.  On a window whose [_closed] flag is set -- by [close()] or by the
    native close event, both of which set it -- every method that starts
    with [_ensureOpen] ([loadUrl], [loadHtml], [postMessage], the setters,
    [show] ... [reload], [close], the [on...] registrations, [getCookies], the
    [unsafe] getter) and [evaluateJs] of an [unsafe] object obtained earlier
    throw [Window is closed] at once, leaving the window as it was: no native
    call is issued.  On an open window [close()] returns normally, issues
    exactly the native [close], and the flag is already set when that call
    is issued; a second [close()] throws, and so does [evaluateJs] through an
    [unsafe] object taken before the close. *)
Theorem C9_closed_window_fails (w w0 : NativeWindow) :
  _closed w = true ->
  _closed w0 = false ->
  (_closed (_handleClose w0) = true /\ _closed (snd (invoke close w0)) = true) /\
  message WindowIsClosed = "Window is closed" /\
  (forall m, invoke m w = (inl WindowIsClosed, w)) /\
  (forall script, evaluateJs script w = (inl WindowIsClosed, w)) /\
  (fst (invoke close w0) = inr Void /\
   issued (snd (invoke close w0)) =
     (issued w0 ++ [{| call := NClose; closedWhenIssued := true |}])%list /\
   invoke close (snd (invoke close w0)) =
     (inl WindowIsClosed, snd (invoke close w0))) /\
  (forall script,
     let after := (invoke unsafe ;; invoke close ;; evaluateJs script) w0 in
     fst after = inl WindowIsClosed /\
     nativeCalls (snd after) = (nativeCalls w0 ++ [NClose])%list).
Proof.
  intros Hclosed Hopen.
  split; [split; [apply closed_after_handleClose | apply closed_after_close]|].
  split; [reflexivity|].
  split; [intros m; destruct m; apply guarded_closed, Hclosed|].
  split; [intros script; apply guarded_closed, Hclosed|].
  split.
  - unfold invoke, bind. rewrite (ensureOpen_open w0 Hopen). simpl.
    repeat split; reflexivity.
  - intros script. unfold invoke, evaluateJs, bind.
    rewrite (ensureOpen_open w0 Hopen).
    destruct (_unsafe w0); simpl; unfold _ensureOpen; simpl; rewrite Hopen; simpl;
      unfold nativeCalls; simpl; rewrite map_app; split; reflexivity.
Qed.

End WinFacts.

(* ===================================================================== *)
(** * Facts about the injected client and the channel id *)
(* ===================================================================== *)

Module ScriptFacts.
Import Js Ipc.
Local Open Scope string_scope.

Lemma prefix_split (p s : string) :
  String.prefix p s = true -> exists after, s = p ++ after.
Proof.
  revert s. induction p as [|c p IH]; intros s H.
  - exists s. reflexivity.
  - destruct s as [|d s]; simpl in H; [discriminate|].
    destruct (ascii_dec c d) as [->|]; [|discriminate].
    destruct (IH s H) as [after ->]. exists after. reflexivity.
Qed.

Lemma occurs_Contains (part s : string) :
  occurs part s = true -> Contains part s.
Proof.
  induction s as [|c s IH]; cbn [occurs]; intros H.
  - rewrite orb_false_r in H. destruct (prefix_split _ _ H) as [after E].
    exists EmptyString, after. exact E.
  - apply orb_prop in H. destruct H as [H|H].
    + destruct (prefix_split _ _ H) as [after E].
      exists EmptyString, after. exact E.
    + destruct (IH H) as [before [after ->]].
      exists (String c before), after. reflexivity.
Qed.

Lemma Contains_app_l (part a b : string) :
  Contains part a -> Contains part (a ++ b).
Proof.
  intros [before [after ->]]. exists before, (after ++ b).
  now rewrite !IpcFacts.append_assoc.
Qed.

Lemma Contains_app_r (part a b : string) :
  Contains part b -> Contains part (a ++ b).
Proof.
  intros [before [after ->]]. exists (a ++ before), after.
  now rewrite !IpcFacts.append_assoc.
Qed.

Ltac by_computation := vm_compute; reflexivity.
Ltac found := apply occurs_Contains; by_computation.
Ltac in_rest := apply Contains_app_r, Contains_app_r; found.

(** C7 (as amended).  For every [channelId] the script is the same text
    around the prefix literal.  Its top saves [Array.prototype.slice],
    [filter], [push], [indexOf] and [splice] into locals and names neither
    [JSON] nor [Object].  The dispatcher snapshots with the saved [slice],
    [off] filters with the saved [filter], the listener registry uses the
    saved [push], [indexOf] and [splice], and neither the dispatcher nor the
    registry calls one of these methods on an array.  [JSON.stringify],
    [JSON.parse], [Object.defineProperty], [Object.freeze] and
    [Object.create] are not saved: after the top each of them is only ever
    called through the global -- [_e] and [_d], [_l], the three installs --
    and [on] pushes with the array's own [push].  The hardening literals are
    there: the three [defineProperty] descriptors with
    [writable:false,configurable:false], the size limit [1048576] and the
    [__proto__] strip. *)
Theorem C7_client_script `{Builtins} (channelId : option string) :
  let script := getClientScript channelId in
  let prefix := match channelId with Some c => c | None => EmptyString end in
  script = clientScriptTop ++ JSON_stringify (VStr prefix) ++
           clientState ++ clientCodec ++ clientChannel ++
           clientDispatcher ++ clientRegistry ++ clientInstall /\
  (Contains "var _slice=Array.prototype.slice;" clientScriptTop /\
   Contains "var _filter=Array.prototype.filter;" clientScriptTop /\
   Contains "var _push=Array.prototype.push;" clientScriptTop /\
   Contains "var _indexOf=Array.prototype.indexOf;" clientScriptTop /\
   Contains "var _splice=Array.prototype.splice;" clientScriptTop) /\
  (occurs "JSON" clientScriptTop = false /\
   occurs "Object" clientScriptTop = false) /\
  (Contains "var fns=_slice.call(_l[key]);" clientDispatcher /\
   Contains "_l[t]=_filter.call(_l[t],function(f){return f!==h})" clientChannel /\
   Contains "add:function(fn){if(typeof fn==='function')_push.call(_el,fn)}"
            clientRegistry /\
   Contains "remove:function(fn){var i=_indexOf.call(_el,fn);if(i!==-1)_splice.call(_el,i,1)}"
            clientRegistry) /\
  (occurs ".slice(" (clientDispatcher ++ clientRegistry) = false /\
   occurs ".filter(" (clientDispatcher ++ clientRegistry) = false /\
   occurs ".push(" (clientDispatcher ++ clientRegistry) = false /\
   occurs ".indexOf(" (clientDispatcher ++ clientRegistry) = false /\
   occurs ".splice(" (clientDispatcher ++ clientRegistry) = false) /\
  (onlyCalled "JSON.stringify" clientScriptRest = true /\
   onlyCalled "JSON.parse" clientScriptRest = true /\
   onlyCalled "Object.defineProperty" clientScriptRest = true /\
   onlyCalled "Object.freeze" clientScriptRest = true /\
   onlyCalled "Object.create" clientScriptRest = true) /\
  (Contains "function _e(t,p){return JSON.stringify({$ch:" clientCodec /\
   Contains "try{var o=JSON.parse(r);" clientCodec /\
   Contains "var _l=Object.create(null);" clientState /\
   Contains "var env=_d(msg);" clientDispatcher /\
   Contains "try{Object.defineProperty(window,'__native_message__',{value:function(msg){"
            clientDispatcher /\
   Contains "try{Object.defineProperty(window,'__native_message_listeners__',{value:Object.freeze({"
            clientRegistry /\
   Contains "on:function(t,h){if(!_l[t])_l[t]=[];_l[t].push(h)}" clientChannel) /\
  (Contains "try{Object.defineProperty(window,'__native_message__',{value:function(msg){"
            script /\
   Contains "},writable:false,configurable:false})}catch(e){}" script /\
   Contains "try{Object.defineProperty(window,'__native_message_listeners__',{value:Object.freeze({"
            script /\
   Contains "}),writable:false,configurable:false})}catch(e){}" script /\
   Contains "try{Object.defineProperty(window,'__channel__',{value:Object.freeze(ch),writable:false,configurable:false})}catch(e){}"
            script /\
   Contains "function _d(r){if(r.length>1048576)return null;" script /\
   Contains " in o)delete o.__proto__;" script).
Proof.
  intros script prefix. unfold script, getClientScript. fold prefix.
  split; [reflexivity|].
  split; [repeat split; found|].
  split; [split; by_computation|].
  split; [repeat split; found|].
  split; [repeat split; by_computation|].
  split; [repeat split; by_computation|].
  split; [repeat split; found|].
  repeat split; in_rest.
Qed.

(** ** The channel id *)

(** A literal channel id is kept as it is, and none gives the empty prefix. *)
Lemma channelId_literal `{Builtins} (opts : ChannelOptions) (s random36 : string) :
  channelIdOpt opts = CidString s ->
  channelId (fst (createChannel opts random36)) = s.
Proof.
  intros E. unfold createChannel. simpl. now rewrite E.
Qed.

Lemma channelId_none `{Builtins} (opts : ChannelOptions) (random36 : string) :
  channelIdOpt opts = CidNone ->
  channelId (fst (createChannel opts random36)) = EmptyString.
Proof.
  intros E. unfold createChannel. simpl. now rewrite E.
Qed.

Lemma substring_length_le (n m : nat) (s : string) :
  String.length (substring n m s) <= m.
Proof.
  revert n m. induction s as [|c s IH]; intros n m.
  - destruct n, m; simpl; lia.
  - destruct n as [|n]; simpl.
    + destruct m as [|m]; simpl; [lia|]. specialize (IH 0 m). lia.
    + apply IH.
Qed.

Lemma substring_length (n m : nat) (s : string) :
  String.length (substring n m s) = Nat.min m (String.length s - n).
Proof.
  revert n m. induction s as [|c s IH]; intros n m.
  - destruct n, m; reflexivity.
  - destruct n as [|n]; simpl.
    + destruct m as [|m]; simpl; [reflexivity|]. rewrite (IH 0 m).
      now rewrite Nat.sub_0_r.
    + apply IH.
Qed.

(** The automatic nonce is the third to tenth character of what the random
    number prints as: eight characters exactly when that text has at least
    ten. *)
Lemma channelId_auto_exact `{Builtins} (opts : ChannelOptions) (random36 : string) :
  channelIdOpt opts = CidAuto ->
  String.length (channelId (fst (createChannel opts random36))) =
  Nat.min 8 (String.length random36 - 2).
Proof.
  intros E. unfold createChannel. simpl. rewrite E. simpl.
  unfold slice. apply (substring_length 2 8).
Qed.

(** The automatic nonce has at most eight characters. *)
Lemma channelId_auto_length `{Builtins} (opts : ChannelOptions) (random36 : string) :
  channelIdOpt opts = CidAuto ->
  channelId (fst (createChannel opts random36)) = slice 2 10 random36 /\
  String.length (channelId (fst (createChannel opts random36))) <= 8.
Proof.
  intros E. unfold createChannel. simpl. rewrite E. simpl. split; [reflexivity|].
  unfold slice. apply (substring_length_le 2 8).
Qed.

End ScriptFacts.

(* ===================================================================== *)
(** * Facts about sanitizeForJs *)
(* ===================================================================== *)

Module SanFacts.
Import San.
Local Open Scope N_scope.

(** ** How [replace] unfolds *)

Lemma replaceFrom_skip (ic : bool) (pat repl : jsstring) (k : nat) (s : jsstring) :
  replaceFrom ic pat repl k s = replaceFrom ic pat repl 0 (skipn k s).
Proof.
  revert k. induction s as [|c s IH]; intros k.
  - destruct k; reflexivity.
  - destruct k as [|k]; [reflexivity|]. simpl. apply IH.
Qed.

Lemma replace_nil (ic : bool) (pat repl : jsstring) : replace ic pat repl [] = [].
Proof. reflexivity. Qed.

Lemma replace_match (ic : bool) (pat repl : jsstring) (c : N) (rest : jsstring) :
  matchesAt ic pat (c :: rest) = true ->
  replace ic pat repl (c :: rest) =
  repl ++ replace ic pat repl (skipn (length pat - 1) rest).
Proof.
  intros H. unfold replace. cbn [replaceFrom]. rewrite H.
  now rewrite replaceFrom_skip.
Qed.

Lemma replace_nomatch (ic : bool) (pat repl : jsstring) (c : N) (rest : jsstring) :
  matchesAt ic pat (c :: rest) = false ->
  replace ic pat repl (c :: rest) = c :: replace ic pat repl rest.
Proof.
  intros H. unfold replace. cbn [replaceFrom]. now rewrite H.
Qed.

(** A one-character pattern replaces character by character. *)
Lemma replace_single (p : N) (repl s : jsstring) :
  replace g [p] repl s = flat_map (fun c => if N.eqb p c then repl else [c]) s.
Proof.
  induction s as [|c s IH]; [reflexivity|].
  cbn [flat_map]. destruct (N.eqb p c) eqn:E.
  - rewrite replace_match by (simpl; now rewrite E). simpl. now rewrite IH.
  - rewrite replace_nomatch by (simpl; now rewrite E). simpl. now rewrite IH.
Qed.

(** ** No raw line breaks or NUL *)

Lemma In_replaceFrom (ic : bool) (pat repl : jsstring) (x : N) (s : jsstring) :
  forall k, In x (replaceFrom ic pat repl k s) -> In x repl \/ In x s.
Proof.
  induction s as [|c s IH]; intros k H; [destruct H|].
  destruct k as [|k]; cbn [replaceFrom] in H.
  - destruct (matchesAt ic pat (c :: s)).
    + apply in_app_or in H. destruct H as [H|H]; [now left|].
      destruct (IH _ H); [now left | right; now right].
    + destruct H as [->|H]; [right; now left|].
      destruct (IH _ H); [now left | right; now right].
  - destruct (IH _ H); [now left | right; now right].
Qed.

(** A character that is in neither the input nor the replacement is not in
    the output. *)
Lemma absent_kept (ic : bool) (pat repl : jsstring) (x : N) (s : jsstring) :
  ~ In x repl -> ~ In x s -> ~ In x (replace ic pat repl s).
Proof.
  intros Hr Hs H. destruct (In_replaceFrom _ _ _ _ _ _ H); contradiction.
Qed.

(** Replacing a character by a text without it removes it. *)
Lemma removed (p : N) (repl s : jsstring) :
  ~ In p repl -> ~ In p (replace g [p] repl s).
Proof.
  intros Hr. rewrite replace_single. intros H.
  apply in_flat_map in H. destruct H as [c [_ H]].
  destruct (N.eqb p c) eqn:E; [contradiction|].
  destruct H as [->|[]]. now rewrite N.eqb_refl in E.
Qed.

Ltac not_in := vm_compute; intuition discriminate.

Lemma no_line_breaks (input : jsstring) :
  ~ In LF (sanitizeForJs input) /\
  ~ In CR (sanitizeForJs input) /\
  ~ In NUL (sanitizeForJs input) /\
  ~ In LS (sanitizeForJs input) /\
  ~ In PS (sanitizeForJs input).
Proof.
  unfold sanitizeForJs. repeat split.
  - do 5 (apply absent_kept; [not_in|]). apply removed. not_in.
  - do 4 (apply absent_kept; [not_in|]). apply removed. not_in.
  - do 3 (apply absent_kept; [not_in|]). apply removed. not_in.
  - do 2 (apply absent_kept; [not_in|]). apply removed. not_in.
  - do 1 (apply absent_kept; [not_in|]). apply removed. not_in.
Qed.

(** ** No closing tag *)

(** A replaced occurrence leaves no occurrence behind. *)
Lemma matchesSomewhere_escaped (s : jsstring) :
  matchesSomewhere closing (closingEscaped ++ s) = matchesSomewhere closing s.
Proof.
  reflexivity.
Qed.

Lemma sameChar_lt (c : N) : sameChar gi 60 c = true -> c = 60.
Proof.
  unfold sameChar, gi. change (upper 60) with 60. unfold upper.
  destruct ((97 <=? c) && (c <=? 122)) eqn:E; intros H; apply N.eqb_eq in H.
  - apply andb_prop in E. destruct E as [E1 E2]. apply N.leb_le in E1. lia.
  - now symmetry.
Qed.

(** What is left alone up to the first [<] is left as it was. *)
Lemma prefix_kept (q : jsstring) :
  (forall x, In x q -> sameChar gi x 60 = false) ->
  forall s,
    matchesAt gi q (replace gi closing closingEscaped s) = true ->
    matchesAt gi q s = true.
Proof.
  induction q as [|x q IH]; intros Hq s H; [reflexivity|].
  destruct s as [|c s]; [discriminate H|].
  destruct (matchesAt gi closing (c :: s)) eqn:E.
  - rewrite replace_match in H by exact E.
    cbn [closingEscaped str app matchesAt] in H.
    change (N_of_ascii "<") with 60 in H.
    rewrite (Hq x (or_introl eq_refl)) in H. discriminate H.
  - rewrite replace_nomatch in H by exact E.
    cbn [matchesAt] in *. apply andb_prop in H. destruct H as [H1 H2].
    rewrite H1. simpl. apply IH; [|exact H2].
    intros y Hy. apply Hq. now right.
Qed.

Lemma no_closing_left (s : jsstring) :
  matchesSomewhere closing (replace gi closing closingEscaped s) = false.
Proof.
  remember (length s) as n eqn:En.
  revert s En. induction n as [n IH] using lt_wf_ind. intros s En.
  destruct s as [|c s]; [reflexivity|].
  destruct (matchesAt gi closing (c :: s)) eqn:E.
  - rewrite replace_match by exact E. rewrite matchesSomewhere_escaped.
    apply (IH (length (skipn (length closing - 1) s))); [|reflexivity].
    subst n. rewrite length_skipn. cbn [length]. lia.
  - rewrite replace_nomatch by exact E. cbn [matchesSomewhere].
    rewrite (IH (length s)) by (subst n; simpl; lia || reflexivity).
    rewrite orb_false_r.
    destruct (matchesAt gi closing (c :: replace gi closing closingEscaped s)) eqn:E'; [|reflexivity].
    exfalso. 
    change closing with (60 :: str "/script>") in E, E'.
    cbn [matchesAt] in E, E'. 
    apply andb_prop in E'. destruct E' as [E1 E2].
    rewrite E1 in E. cbn [andb] in E.
    apply prefix_kept in E2; [congruence|].
    vm_compute. intuition (subst; reflexivity).
Qed.

Lemma matchesAt_variant (pat m after : jsstring) :
  map upper m = map upper pat -> matchesAt gi pat (m ++ after) = true.
Proof.
  revert m. induction pat as [|p pat IH]; intros m H; [reflexivity|].
  destruct m as [|c m]; [discriminate H|].
  simpl in H. injection H as Hc Hm.
  cbn [app matchesAt]. rewrite (IH m Hm), andb_true_r.
  unfold sameChar, gi. rewrite Hc. apply N.eqb_refl.
Qed.

Lemma matchesSomewhere_later (pat before s : jsstring) :
  matchesAt gi pat s = true -> matchesSomewhere pat (before ++ s) = true.
Proof.
  intros H. induction before as [|c before IH].
  - destruct s; cbn [app matchesSomewhere]; now rewrite H.
  - cbn [app matchesSomewhere]. rewrite IH. apply orb_true_r.
Qed.

Lemma no_closing_tag (input : jsstring) :
  ~ containsIgnoringCase (str "</script>") (sanitizeForJs input).
Proof.
  intros [before [after [m [E Hm]]]].
  assert (H : matchesSomewhere closing (sanitizeForJs input) = true).
  { rewrite E. apply matchesSomewhere_later, matchesAt_variant, Hm. }
  unfold sanitizeForJs in H. fold closing closingEscaped in H.
  now rewrite no_closing_left in H.
Qed.

(** ** Escapes *)

Lemma scanWith_doubled (s : jsstring) :
  scanWith (afterEscaping []) false (replace g [backslash] [backslash; backslash] s) = true.
Proof.
  rewrite replace_single. induction s as [|c s IH]; [reflexivity|].
  cbn [flat_map]. destruct (N.eqb backslash c) eqn:E.
  - cbn [app scanWith]. rewrite N.eqb_refl. cbn [negb]. exact IH.
  - cbn [app scanWith]. rewrite N.eqb_sym, E. exact IH.
Qed.

Lemma existsb_cons_ne (q c : N) (quotes : list N) :
  N.eqb q c = false ->
  existsb (N.eqb c) (quotes ++ [q]) = existsb (N.eqb c) quotes.
Proof.
  intros E. rewrite existsb_app. simpl. rewrite N.eqb_sym, E. now rewrite !orb_false_r.
Qed.

(** Escaping one more kind of quote. *)
Lemma scanWith_escaped (q : N) (quotes : list N) :
  q <> backslash -> ~ In q quotes ->
  forall s odd,
    scanWith (afterEscaping quotes) odd s = true ->
    scanWith (afterEscaping (quotes ++ [q])) odd
             (replace g [q] [backslash; q] s) = true.
Proof.
  intros Hq Hnew s. rewrite replace_single.
  assert (Eq : N.eqb q backslash = false) by now apply N.eqb_neq.
  induction s as [|c s IH]; intros odd H; [exact H|].
  cbn [flat_map]. cbn [scanWith] in H.
  destruct (N.eqb q c) eqn:E.
  - apply N.eqb_eq in E. subst c. rewrite Eq in H.
    apply andb_prop in H. destruct H as [H1 H2].
    cbn [app scanWith]. rewrite N.eqb_refl, Eq.
    unfold afterEscaping in *.
    assert (Hold : existsb (N.eqb q) quotes = false).
    { destruct (existsb (N.eqb q) quotes) eqn:Ex; [|reflexivity].
      apply existsb_exists in Ex. destruct Ex as [x [Hx Ex]].
      apply N.eqb_eq in Ex. subst x. contradiction. }
    rewrite Hold in H1. destruct odd; [discriminate H1|].
    rewrite existsb_app. simpl. rewrite N.eqb_refl, orb_true_r. simpl.
    apply IH, H2.
  - cbn [app scanWith]. destruct (N.eqb c backslash); [apply IH, H|].
    apply andb_prop in H. destruct H as [H1 H2].
    unfold afterEscaping in *. rewrite existsb_cons_ne by exact E.
    rewrite H1. apply IH, H2.
Qed.

Lemma isQuote_existsb (c : N) : existsb (N.eqb c) allQuotes = isQuote c.
Proof.
  unfold isQuote, allQuotes. simpl. now rewrite orb_false_r, orb_assoc.
Qed.

Lemma matchesAt_substitution (c : N) (rest : jsstring) :
  matchesAt g substitution (c :: rest) = opensSubstitution c rest.
Proof.
  unfold substitution, opensSubstitution. cbn [matchesAt sameChar g].
  rewrite (N.eqb_sym dollar c).
  destruct rest as [|d rest]; [reflexivity|].
  now rewrite (N.eqb_sym lbrace d), andb_true_r.
Qed.

(** Escaping [${] does not bring a [{] to the front. *)
Lemma opens_after_substitution (c : N) (rest : jsstring) :
  opensSubstitution c (replace g substitution substitutionEscaped rest) =
  opensSubstitution c rest.
Proof.
  destruct rest as [|d rest]; [reflexivity|].
  destruct (matchesAt g substitution (d :: rest)) eqn:E.
  - rewrite replace_match by exact E.
    rewrite matchesAt_substitution in E. unfold opensSubstitution in *.
    apply andb_prop in E. destruct E as [E _]. apply N.eqb_eq in E. subst d.
    cbn [substitutionEscaped app]. 
    change (N.eqb backslash lbrace) with false. change (N.eqb dollar lbrace) with false.
    reflexivity.
  - rewrite replace_nomatch by exact E. reflexivity.
Qed.

Lemma scanWith_backslash (r : requirement) (odd : bool) (s : jsstring) :
  scanWith r odd (backslash :: s) = scanWith r (negb odd) s.
Proof. reflexivity. Qed.

Lemma scanWith_other (r : requirement) (odd : bool) (c : N) (s : jsstring) :
  N.eqb c backslash = false ->
  scanWith r odd (c :: s) =
  match r c s with Some parity => Bool.eqb odd parity | None => true end &&
  scanWith r false s.
Proof. intros E. cbn [scanWith]. now rewrite E. Qed.

Lemma scan_plain (odd : bool) (c : N) (s : jsstring) :
  N.eqb c backslash = false -> sensitive c s = false ->
  scan odd (c :: s) = scan false s.
Proof.
  intros E Hs. unfold scan. rewrite scanWith_other by exact E.
  unfold finally. now rewrite Hs.
Qed.

Lemma scan_sensitive (odd : bool) (c : N) (s : jsstring) :
  N.eqb c backslash = false -> sensitive c s = true ->
  scan odd (c :: s) = odd && scan false s.
Proof.
  intros E Hs. unfold scan. rewrite scanWith_other by exact E.
  unfold finally. rewrite Hs. now destruct odd.
Qed.

Lemma scan_substitution (s : jsstring) :
  forall odd,
    scanWith (afterEscaping allQuotes) odd s = true ->
    scan odd (replace g substitution substitutionEscaped s) = true.
Proof.
  remember (length s) as n eqn:En.
  revert s En. induction n as [n IH] using lt_wf_ind. intros s En odd H.
  destruct s as [|c rest]; [exact H|].
  destruct (matchesAt g substitution (c :: rest)) eqn:E.
  - rewrite replace_match by exact E.
    rewrite matchesAt_substitution in E. unfold opensSubstitution in E.
    apply andb_prop in E. destruct E as [Ec Ed]. apply N.eqb_eq in Ec. subst c.
    destruct rest as [|d rest]; [discriminate Ed|].
    apply N.eqb_eq in Ed. subst d.
    rewrite !scanWith_other in H by reflexivity.
    unfold afterEscaping in H. rewrite !isQuote_existsb in H.
    change (isQuote dollar) with false in H. change (isQuote lbrace) with false in H.
    destruct odd; [discriminate H|]. cbn [Bool.eqb andb] in H.
    cbn [substitution length Nat.sub skipn substitutionEscaped app].
    unfold scan at 1. rewrite scanWith_backslash. fold (scan (negb false)).
    rewrite scan_sensitive by reflexivity.
    rewrite scan_plain by reflexivity.
    apply (IH (length rest)); [subst n; simpl; lia | reflexivity | exact H].
  - rewrite replace_nomatch by exact E.
    destruct (N.eqb c backslash) eqn:Ec.
    + apply N.eqb_eq in Ec. subst c. rewrite scanWith_backslash in H.
      unfold scan. rewrite scanWith_backslash.
      apply (IH (length rest)); [subst n; simpl; lia | reflexivity | exact H].
    + rewrite scanWith_other in H by exact Ec.
      apply andb_prop in H. destruct H as [H1 H2].
      unfold afterEscaping in H1. rewrite isQuote_existsb in H1.
      assert (IH' := IH (length rest) ltac:(subst n; simpl; lia) rest eq_refl false H2).
      unfold scan in *. rewrite scanWith_other by exact Ec.
      rewrite IH', andb_true_r.
      unfold finally, sensitive. rewrite opens_after_substitution.
      rewrite matchesAt_substitution in E. rewrite E, orb_false_r.
      destruct (isQuote c); [exact H1 | reflexivity].
Qed.

(** Replacing a plain character by an escape sequence keeps the escapes. *)
Lemma scan_replaced (p : N) (w : jsstring) :
  N.eqb p backslash = false ->
  (forall rest, sensitive p rest = false) ->
  (forall odd rest, scan odd (w ++ rest) = scan false rest) ->
  (forall c rest, opensSubstitution c (w ++ rest) = false) ->
  (forall c rest, opensSubstitution c (p :: rest) = false) ->
  forall s odd, scan odd s = true -> scan odd (replace g [p] w s) = true.
Proof.
  intros Hp Hplain Hw Hhead Hhead' s. rewrite replace_single.
  induction s as [|c s IH]; intros odd H; [exact H|].
  cbn [flat_map]. destruct (N.eqb p c) eqn:E.
  - apply N.eqb_eq in E. subst c.
    rewrite scan_plain in H by auto. rewrite Hw. apply IH, H.
  - cbn [app]. destruct (N.eqb c backslash) eqn:Ec.
    + apply N.eqb_eq in Ec. subst c. unfold scan in *.
      rewrite scanWith_backslash in *. apply IH, H.
    + unfold scan in *. rewrite scanWith_other in * by exact Ec.
      apply andb_prop in H. destruct H as [H1 H2].
      rewrite (IH false H2), andb_true_r.
      assert (Hsame : finally c (flat_map (fun c0 => if N.eqb p c0 then w else [c0]) s) =
                      finally c s).
      { unfold finally, sensitive. f_equal. f_equal.
        destruct s as [|d s]; [reflexivity|]. cbn [flat_map].
        destruct (N.eqb p d) eqn:Ed.
        - apply N.eqb_eq in Ed. subst d. now rewrite Hhead, Hhead'.
        - reflexivity. }
      rewrite Hsame. exact H1.
Qed.

Ltac escape_stage :=
  apply scan_replaced;
  [ reflexivity
  | intros; reflexivity
  | intros; reflexivity
  | intros; unfold opensSubstitution; simpl; apply andb_false_r
  | intros; unfold opensSubstitution; simpl; apply andb_false_r
  | ].

(** ** The closing tag *)

Lemma plain_variant (p c : N) :
  In p closing -> sameChar gi p c = true -> plain c.
Proof.
  intros Hp H.
  assert (Hc : c <> backslash /\ c <> quote /\ c <> dquote /\ c <> backtick /\
               c <> dollar).
  { repeat split; intros ->; vm_compute in Hp;
      repeat (destruct Hp as [<-|Hp]; [vm_compute in H; discriminate H|]);
      exact Hp. }
  destruct Hc as [H1 [H2 [H3 [H4 H5]]]].
  apply N.eqb_neq in H1, H2, H3, H4, H5.
  split; [exact H1|]. intros rest.
  unfold sensitive, isQuote, opensSubstitution. now rewrite H2, H3, H4, H5.
Qed.

(** A matched text is made of plain characters: the scan passes over it. *)
Lemma scan_over_match (pat : jsstring) :
  (forall p c, In p pat -> sameChar gi p c = true -> plain c) ->
  forall p0 s odd,
    matchesAt gi (p0 :: pat) s = true ->
    (forall c, sameChar gi p0 c = true -> plain c) ->
    scan odd s = scan false (skipn (length (p0 :: pat)) s).
Proof.
  induction pat as [|p1 pat IH]; intros Hpat p0 s odd H H0.
  - destruct s as [|c s]; [discriminate H|].
    cbn [matchesAt] in H. rewrite andb_true_r in H.
    destruct (H0 c H) as [Hc Hs]. now rewrite scan_plain.
  - destruct s as [|c s]; [discriminate H|].
    cbn [matchesAt] in H. apply andb_prop in H. destruct H as [Hc H].
    destruct (H0 c Hc) as [Hbs Hs]. rewrite scan_plain by auto.
    change (skipn (length (p0 :: p1 :: pat)) (c :: s))
      with (skipn (length (p1 :: pat)) s).
    apply IH.
    + intros p c' Hp. apply Hpat. now right.
    + exact H.
    + intros c'. apply Hpat. now left.
Qed.

Lemma scan_escaped_closing (odd : bool) (rest : jsstring) :
  scan odd (closingEscaped ++ rest) = scan false rest.
Proof. reflexivity. Qed.

Lemma opens_after_closing (c : N) (rest : jsstring) :
  opensSubstitution c (replace gi closing closingEscaped rest) =
  opensSubstitution c rest.
Proof.
  destruct rest as [|d rest]; [reflexivity|].
  destruct (matchesAt gi closing (d :: rest)) eqn:E.
  - rewrite replace_match by exact E.
    change closing with (60 :: str "/script>") in E. cbn [matchesAt] in E.
    apply andb_prop in E. destruct E as [E _]. apply sameChar_lt in E. subst d.
    reflexivity.
  - rewrite replace_nomatch by exact E. reflexivity.
Qed.

Lemma scan_closing (s : jsstring) :
  forall odd,
    scan odd s = true ->
    scan odd (replace gi closing closingEscaped s) = true.
Proof.
  remember (length s) as n eqn:En.
  revert s En. induction n as [n IH] using lt_wf_ind. intros s En odd H.
  destruct s as [|c rest]; [exact H|].
  destruct (matchesAt gi closing (c :: rest)) eqn:E.
  - rewrite replace_match by exact E. rewrite scan_escaped_closing.
    change closing with (60 :: str "/script>") in E.
    rewrite (@scan_over_match (str "/script>")) with (p0 := 60) in H; [| |exact E|].
    + apply (IH (length (skipn (length closing - 1) rest)));
        [subst n; rewrite length_skipn; cbn [length]; lia | reflexivity | exact H].
    + intros p c' Hp. apply plain_variant. now right.
    + intros c'. apply plain_variant. now left.
  - rewrite replace_nomatch by exact E.
    destruct (N.eqb c backslash) eqn:Ec.
    + apply N.eqb_eq in Ec. subst c. unfold scan in *.
      rewrite scanWith_backslash in *.
      apply (IH (length rest)); [subst n; simpl; lia | reflexivity | exact H].
    + unfold scan in *. rewrite scanWith_other in * by exact Ec.
      apply andb_prop in H. destruct H as [H1 H2].
      rewrite (IH (length rest) ltac:(subst n; simpl; lia) rest eq_refl false H2).
      rewrite andb_true_r. unfold finally, sensitive in *.
      now rewrite opens_after_closing.
Qed.

(** ** From the scan to the statement about positions *)

Lemma trailingBackslashes_snoc (s : jsstring) (c : N) :
  trailingBackslashes (s ++ [c]) =
  if N.eqb c backslash then S (trailingBackslashes s) else 0%nat.
Proof.
  unfold trailingBackslashes. rewrite rev_app_distr. reflexivity.
Qed.

Lemma scan_sound (s : jsstring) :
  forall pre,
    scan (Nat.odd (trailingBackslashes pre)) s = true ->
    forall before c rest,
      s = before ++ c :: rest ->
      sensitive c rest = true ->
      Nat.odd (trailingBackslashes (pre ++ before)) = true.
Proof.
  induction s as [|x s IH]; intros pre H before c rest E Hs.
  - destruct before; discriminate E.
  - assert (Hnext : scan (Nat.odd (trailingBackslashes (pre ++ [x]))) s = true).
    { rewrite trailingBackslashes_snoc. unfold scan in *. cbn [scanWith] in H.
      destruct (N.eqb x backslash).
      - rewrite Nat.odd_succ, <- Nat.negb_odd. exact H.
      - apply andb_prop in H. apply H. }
    destruct before as [|y before]; cbn [app] in E; injection E as -> ->.
    + rewrite app_nil_r.
      destruct (N.eqb c backslash) eqn:Ec.
      * apply N.eqb_eq in Ec. subst c. discriminate Hs.
      * rewrite scan_sensitive in H by auto. apply andb_prop in H. apply H.
    + specialize (IH (pre ++ [y]) Hnext before c rest eq_refl Hs).
      now rewrite <- app_assoc in IH.
Qed.

(** ** The output as the body of a literal *)

Lemma sensitive_quote (q : N) (rest : jsstring) :
  isQuote q = true -> sensitive q rest = true.
Proof. intros H. unfold sensitive. now rewrite H. Qed.

(** A scanned text without line terminators is the body of a string
    literal, whichever quote opens it. *)
Lemma stringLiteral_scan (q : N) (s : jsstring) :
  isQuote q = true ->
  (forall c, In c s -> lineTerminator c = false) ->
  forall odd, scan odd s = true -> stringLiteral q odd s = Body.
Proof.
  intros Hq. induction s as [|c s IH]; intros Hlines odd H.
  - unfold scan in H. simpl in H. destruct odd; [discriminate H | reflexivity].
  - assert (Hrest : forall x, In x s -> lineTerminator x = false)
      by (intros x Hx; apply Hlines; now right).
    cbn [stringLiteral].
    destruct (N.eqb c backslash) eqn:Ec.
    + apply N.eqb_eq in Ec. subst c. unfold scan in H.
      rewrite scanWith_backslash in H.
      destruct odd; apply (IH Hrest); exact H.
    + destruct odd.
      * apply (IH Hrest). unfold scan in *.
        rewrite scanWith_other in H by exact Ec.
        apply andb_prop in H. apply H.
      * destruct (N.eqb c q) eqn:Eq.
        -- apply N.eqb_eq in Eq. subst c.
           rewrite scan_sensitive in H by (auto using sensitive_quote).
           discriminate H.
        -- rewrite (Hlines c (or_introl eq_refl)).
           apply (IH Hrest). unfold scan in *.
           rewrite scanWith_other in H by exact Ec.
           apply andb_prop in H. apply H.
Qed.

(** A scanned text is the body of a template literal. *)
Lemma templateLiteral_scan (s : jsstring) :
  forall odd, scan odd s = true -> templateLiteral odd s = Body.
Proof.
  induction s as [|c s IH]; intros odd H.
  - unfold scan in H. simpl in H. destruct odd; [discriminate H | reflexivity].
  - cbn [templateLiteral].
    destruct (N.eqb c backslash) eqn:Ec.
    + apply N.eqb_eq in Ec. subst c. unfold scan in H.
      rewrite scanWith_backslash in H.
      destruct odd; apply IH; exact H.
    + assert (Hnext : scan false s = true).
      { unfold scan in *. rewrite scanWith_other in H by exact Ec.
        apply andb_prop in H. apply H. }
      destruct odd; [apply IH, Hnext|].
      destruct (N.eqb c backtick) eqn:Eq.
      * apply N.eqb_eq in Eq. subst c.
        rewrite scan_sensitive in H by reflexivity. discriminate H.
      * destruct (opensSubstitution c s) eqn:Es.
        -- rewrite scan_sensitive in H; [discriminate H | exact Ec |].
           unfold sensitive. rewrite Es. apply orb_true_r.
        -- apply IH, Hnext.
Qed.

Lemma scan_sanitizeForJs (input : jsstring) :
  scan false (sanitizeForJs input) = true.
Proof.
  unfold sanitizeForJs. apply scan_closing. do 5 escape_stage.
  apply scan_substitution.
  apply (@scanWith_escaped backtick [quote; dquote]); [discriminate | not_in |].
  apply (@scanWith_escaped dquote [quote]); [discriminate | not_in |].
  apply (@scanWith_escaped quote []); [discriminate | not_in |].
  apply scanWith_doubled.
Qed.

Lemma no_line_terminator (input : jsstring) (c : N) :
  In c (sanitizeForJs input) -> lineTerminator c = false.
Proof.
  intros Hc. destruct (no_line_breaks input) as [H1 [H2 [_ [H4 H5]]]].
  unfold lineTerminator.
  destruct (N.eqb_spec c LF) as [->|_]; [contradiction|].
  destruct (N.eqb_spec c CR) as [->|_]; [contradiction|].
  destruct (N.eqb_spec c LS) as [->|_]; [contradiction|].
  destruct (N.eqb_spec c PS) as [->|_]; [contradiction|].
  reflexivity.
Qed.

(** What holds of the output.  For every input, the output of
    [sanitizeForJs] holds no line feed, carriage return, NUL, U+2028 or
    U+2029; holds no case variant of the nine characters [</script>]; and
    every double quote, single quote, backtick and dollar-brace pair in it
    stands after an odd number of backslashes.  So, placed between double
    quotes, single quotes or backticks, the whole output is read as the body
    of the literal: no character of it closes the literal, opens a
    substitution, breaks the line or takes the closing quote. *)
Theorem sanitizeForJs_output (input : jsstring) :
  let out := sanitizeForJs input in
  (~ In LF out /\ ~ In CR out /\ ~ In NUL out /\ ~ In LS out /\ ~ In PS out) /\
  ~ containsIgnoringCase (str "</script>") out /\
  escaped out /\
  (stringLiteral dquote false out = Body /\
   stringLiteral quote false out = Body /\
   templateLiteral false out = Body).
Proof.
  intros out. split; [apply no_line_breaks|]. split; [apply no_closing_tag|].
  assert (Hscan := scan_sanitizeForJs input). fold out in Hscan.
  split.
  - intros before c rest E Hs.
    apply (@scan_sound out []) with (c := c) (rest := rest); auto.
  - repeat split.
    + apply stringLiteral_scan; [reflexivity | apply no_line_terminator | exact Hscan].
    + apply stringLiteral_scan; [reflexivity | apply no_line_terminator | exact Hscan].
    + apply templateLiteral_scan, Hscan.
Qed.

(** C10 (the code at the failing input).  An end tag with a blank before
    its [>] is no match of [/<\/script>/gi]: the input comes back unchanged,
    and its first eight characters and the blank end the script element that
    encloses the literal, so that what follows is read as markup.  The same
    input with the tag written [</script>] has the tag escaped and ends
    nothing. *)
Theorem C10_end_tag_with_blank_passes :
  let input := str "</script ><script>alert(1)</script >" in
  sanitizeForJs input = input /\
  stringLiteral dquote false (sanitizeForJs input) = Body /\
  endsScriptElement (sanitizeForJs input) = true /\
  sanitizeForJs (str "</script><script>alert(1)</script>") =
    str "<\/script><script>alert(1)<\/script>" /\
  endsScriptElement
    (sanitizeForJs (str "</script><script>alert(1)</script>")) = false.
Proof.
  vm_compute. repeat split; reflexivity.
Qed.

End SanFacts.

(* ===================================================================== *)
(** * The channel on concrete messages *)
(* ===================================================================== *)

(** The scenarios of the test suite and of the specification, run with the
    reference built-ins. *)
Module Scenarios.
Import Js Ipc Run Fixtures.
Local Open Scope string_scope.
#[local] Existing Instance Ref.builtins.

(** ** Origins *)

(** An upper-case entry is normalized: a message from the same origin in
    lower case is handled, one from another origin or from no URL is not. *)
Lemma origins_case_insensitive :
  let ch := channel (withOrigins testSchemas ["HTTPS://APP.LOCAL"]) in
  let st := on ch initialState "ping" 1 in
  let raw := Ref.json "{'$ch':'ping','p':'hi'}" in
  normalizedOrigins ch = Some ["https://app.local"] /\
  calls (snd (onMessage ch st 0 raw "https://app.local/page")) = [(1, VStr "hi")] /\
  snd (onMessage ch st 0 raw "https://evil.com/") = [] /\
  snd (onMessage ch st 0 raw "") = [] /\
  snd (onMessage ch st 0 raw "not-a-valid-url") = [].
Proof.
  vm_compute. repeat split; reflexivity.
Qed.

(** C1 (the code at the failing input).  [trustedOrigins] is a non-empty
    list none of whose entries parses as a URL.  The normalized list is
    empty, the origin check is skipped, and a message from an origin that
    is in no list reaches the handler. *)
Theorem C1_origin_gate_off_when_no_entry_normalizes :
  let ch := channel (withOrigins testSchemas ["not-a-url"]) in
  let st := on ch initialState "ping" 1 in
  let raw := Ref.json "{'$ch':'ping','p':'evil'}" in
  trustedOrigins (options ch) = Some ["not-a-url"] /\
  normalizedOrigins ch = Some [] /\
  originsEnforced ch = false /\
  isOriginTrusted "https://evil.com/" (trustedList ch) = false /\
  calls (snd (onMessage ch st 0 raw "https://evil.com/")) = [(1, VStr "evil")].
Proof.
  vm_compute. repeat split; reflexivity.
Qed.

(** The same happens with the entry that the documentation of
    [trustedOrigins] suggests for [about:blank] pages: it does not parse. *)
Lemma origin_gate_off_for_null_entry :
  let ch := channel (withOrigins testSchemas ["null"]) in
  let st := on ch initialState "ping" 1 in
  let raw := Ref.json "{'$ch':'ping','p':'evil'}" in
  originsEnforced ch = false /\
  calls (snd (onMessage ch st 0 raw "https://evil.com/")) = [(1, VStr "evil")].
Proof.
  vm_compute. repeat split; reflexivity.
Qed.

(** ** Injection *)

(** C3 (the code at the failing input).  With [injectClient] on and the
    same list, the client is injected while the channel is created, and
    again when a page of any origin has finished loading. *)
Theorem C3_client_injected_when_no_entry_normalizes :
  let created := createChannel (injecting testSchemas (Some ["not-a-url"]))
                               "0.4fzyo82mvyr" in
  trustedOrigins (options (fst created)) = Some ["not-a-url"] /\
  injectClientOn (options (fst created)) = true /\
  evaluated (snd created) = [getClientScript None] /\
  evaluated (onPageLoad (fst created) finished "https://evil.com/phish") =
    [getClientScript None].
Proof.
  vm_compute. repeat split; reflexivity.
Qed.

(** With an entry that normalizes, injection waits for a trusted page. *)
Lemma injection_deferred :
  let created := createChannel (injecting testSchemas (Some ["HTTPS://MYAPP.COM"]))
                               "0.4fzyo82mvyr" in
  snd created = [] /\
  onPageLoad (fst created) finished "https://evil.com/phish" = [] /\
  onPageLoad (fst created) started "https://myapp.com/page" = [] /\
  evaluated (onPageLoad (fst created) finished "https://myapp.com/page") =
    [getClientScript None].
Proof.
  vm_compute. repeat split; reflexivity.
Qed.

(** ** Envelopes *)

(** C2 (counterexample).  The message of the test suite with a
    [__proto__] key nested in its payload: the parsed value has the key,
    and yet the schema is consulted and the handler called. *)
Lemma C2_proto_key_does_not_reject :
  let ch := channel (withSchemas [("ping", pointSchema)]) in
  let st := on ch initialState "ping" 1 in
  let raw :=
    Ref.json "{'$ch':'ping','p':{'x':1,'y':2,'__proto__':{'polluted':true}}}" in
  let p := VObj [("x", VNum 1); ("y", VNum 2);
                 ("__proto__", VObj [("polluted", VBool true)])] in
  (exists parsed, JSON_parse raw = Some parsed /\ has_proto_key parsed = true) /\
  safeParses (snd (onMessage ch st 0 raw "https://localhost")) = [("ping", p)] /\
  calls (snd (onMessage ch st 0 raw "https://localhost")) = [(1, p)].
Proof.
  split.
  - eexists. split; vm_compute; reflexivity.
  - vm_compute. split; reflexivity.
Qed.

(** A top-level [__proto__] key is deleted and the message handled. *)
Lemma top_level_proto_stripped :
  let ch := channel (withSchemas [("ping", pointSchema)]) in
  let st := on ch initialState "ping" 1 in
  let raw :=
    Ref.json "{'$ch':'ping','__proto__':{'polluted':true},'p':{'x':1,'y':2}}" in
  decode raw None =
    Some (VObj [("$ch", VStr "ping"); ("p", VObj [("x", VNum 1); ("y", VNum 2)])]) /\
  calls (snd (onMessage ch st 0 raw "https://localhost")) =
    [(1, VObj [("x", VNum 1); ("y", VNum 2)])].
Proof.
  vm_compute. split; reflexivity.
Qed.

(** C2 (witness): a message without [$ch]. *)
Lemma C2_envelope_rejection_witness :
  let ch := channel (withSchemas testSchemas) in
  let st := on ch initialState "ping" 1 in
  let raw := Ref.json "{'p':'hi'}" in
  JSON_parse raw = Some (VObj [("p", VStr "hi")]) /\
  snd (onMessage ch st 0 raw "https://localhost") = [].
Proof.
  intros ch st raw.
  assert (Hp : JSON_parse raw = Some (VObj [("p", VStr "hi")]))
    by (vm_compute; reflexivity).
  split; [exact Hp|].
  apply (proj1 (IpcFacts.C2_envelope_rejection ch st 0 raw "https://localhost" Hp)).
  reflexivity.
Defined.



(** What [on] does not ignore: a property name that the schemas object
    inherits.  [on("toString", h)] registers the handler although
    [toString] is no schema key, and a [toString] message then ends the
    message callback with a [TypeError], before any handler is called. *)
Lemma on_registers_inherited_name :
  let ch := channel (withSchemas [("ping", stringSchema)]) in
  let st := on ch initialState "toString" 1 in
  lookup "toString" (schemas (options ch)) = None /\
  handlersOf st "toString" = [1] /\
  snd (onMessage ch st 0 (Ref.json "{'$ch':'toString','p':'x'}") "") =
    [ThrowTypeError].
Proof.
  vm_compute. repeat split; reflexivity.
Qed.

(** C5 (counterexample): a payload that parses under its schema, a
    handler registered, and a size cap below the length of the encoded
    message: it does not decode, and no handler is called. *)
Lemma C5_round_trip_stops_at_size_cap :
  let ch := channel (withMaxSize [("ping", stringSchema)] 10) in
  let st := on ch initialState "ping" 1 in
  let raw := encode (prefixCh ch "ping") (VStr "hello") in
  stringSchema (VStr "hello") = Some (VStr "hello") /\
  handlersOf st "ping" = [1] /\
  str_length raw = 26 /\
  decode raw (maxMessageSize (options ch)) = None /\
  calls (snd (onMessage ch st 0 raw "https://localhost")) = [].
Proof.
  vm_compute. repeat split; reflexivity.
Qed.

(** The cap counts UTF-16 code units, as [raw.length] does: the euro sign,
    three bytes in UTF-8, is one of them.  The message below has 22, and a
    cap of 22 lets it through. *)
Lemma size_counts_code_units :
  let euro := String (ascii_of_nat 226) (String (ascii_of_nat 130)
                (String (ascii_of_nat 172) EmptyString)) in
  let ch := channel (withMaxSize [("ping", stringSchema)] 22) in
  let st := on ch initialState "ping" 1 in
  let raw := ping euro in
  String.length raw = 24 /\
  str_length raw = 22 /\
  calls (snd (onMessage ch st 0 raw "https://localhost")) = [(1, VStr euro)].
Proof.
  vm_compute. repeat split; reflexivity.
Qed.

(** The other two guards stop the same message as well: a rate limit that
    is used up, and a source that is not trusted. *)
Lemma round_trip_stops_at_other_guards :
  let raw := Ref.json "{'$ch':'ping','p':'hello'}" in
  let limited := channel (withRateLimit [("ping", stringSchema)] 1) in
  let gated := channel (withOrigins [("ping", stringSchema)] ["https://app.local"]) in
  map (fun p => calls (snd p))
      (run limited initialState
           [On "ping" 1; Incoming 0 raw "https://localhost";
            Incoming 0 raw "https://localhost"]) =
    [[(1, VStr "hello")]; []] /\
  calls (snd (onMessage gated (on gated initialState "ping" 1) 0 raw
                        "https://evil.com/")) = [].
Proof.
  vm_compute. split; reflexivity.
Qed.

(** C5 (witness): a namespaced channel with two handlers and a schema
    that transforms. *)
Lemma C5_envelope_round_trip_witness :
  let ch := channel (withChannelId [("ping", wrappingSchema)] (CidString "ns1")) in
  let st := on ch (on ch initialState "ping" 2) "ping" 1 in
  let raw := encode (prefixCh ch "ping") (VStr "hello") in
  raw = Ref.json "{'$ch':'ns1:ping','p':'hello'}" /\
  (exists env,
     decode raw (maxMessageSize (options ch)) = Some env /\
     envelope_ch env = "ns1:ping" /\ envelope_p env = VStr "hello") /\
  calls (snd (onMessage ch st 0 raw "https://localhost")) =
    [(2, VObj [("value", VStr "hello")]); (1, VObj [("value", VStr "hello")])].
Proof.
  intros ch st raw. split; [vm_compute; reflexivity|].
  apply (IpcFacts.C5_envelope_round_trip ch st 0 "https://localhost" "ping"
           (payload := VStr "hello") (data := VObj [("value", VStr "hello")])
           (schema := wrappingSchema)).
  - reflexivity.
  - reflexivity.
  - vm_compute. reflexivity.
  - vm_compute. reflexivity.
  - reflexivity.
  - discriminate.
Defined.

(** ** The rate limiter *)

(** C6 (counterexample).  With [rateLimit = 1], a message at 0 ms and one
    at 1000 ms are both handled: two in the closed interval [0, 1000],
    whose duration is one second. *)
Lemma C6_two_within_one_second :
  let ch := channel (withRateLimit [("ping", stringSchema)] 1) in
  let acts := [On "ping" 7; Incoming 0 (ping "a") ""; Incoming 1000 (ping "b") ""] in
  nondecreasing (arrivals acts) /\
  (1000 - 0 <= 1000)%Z /\
  map (fun p => calls (snd p)) (run ch initialState acts) =
    [[(7, VStr "a")]; [(7, VStr "b")]] /\
  dispatchedWithinClosed 0 1000 (run ch initialState acts) = 2.
Proof.
  split; [simpl; intuition lia|].
  split; [lia|].
  vm_compute. split; reflexivity.
Qed.

(** The bound needs arrival times that do not decrease.  With
    [rateLimit = 2] and a clock that is set back twice, messages stamped 0,
    500 and 600 ms are all handled. *)
Lemma clock_set_back_admits_more :
  let ch := channel (withRateLimit [("ping", stringSchema)] 2) in
  let acts := [On "ping" 7;
               Incoming 0 (ping "a") ""; Incoming 1000 (ping "b") "";
               Incoming 500 (ping "c") ""; Incoming 2000 (ping "d") "";
               Incoming 600 (ping "e") ""] in
  dispatchedWithin 0 1000 (run ch initialState acts) = 3.
Proof.
  vm_compute. reflexivity.
Qed.

(** C6 (witness): the scenario of the specification. *)
Lemma C6_rate_limit_witness :
  let ch := channel (withRateLimit [("ping", stringSchema)] 3) in
  let acts := [On "ping" 7;
               Incoming 5 (ping "msg0") ""; Incoming 5 (ping "msg1") "";
               Incoming 5 (ping "msg2") ""; Incoming 5 (ping "msg3") "";
               Incoming 5 (ping "msg4") ""; Incoming 1105 (ping "msg5") ""] in
  map (fun p => calls (snd p)) (run ch initialState acts) =
    [[(7, VStr "msg0")]; [(7, VStr "msg1")]; [(7, VStr "msg2")]; []; [];
     [(7, VStr "msg5")]] /\
  forall t, dispatchedWithin t (t + 1000) (run ch initialState acts) <= 3.
Proof.
  intros ch acts. split; [vm_compute; reflexivity|].
  assert (Hs : nondecreasing (arrivals acts)) by (simpl; intuition lia).
  intros t.
  exact (proj1 (RateFacts.C6_rate_limit ch (r := ofZ 3) acts eq_refl eq_refl Hs)
               3 t eq_refl).
Defined.

(** A limit that is no whole number is rounded up: with [rateLimit = 2.5]
    the test [length >= rateLimit] fails at length 2, and three messages of
    one millisecond are handled. *)
Lemma fractional_limit_rounds_up :
  let ch := channel (withLimit [("ping", stringSchema)]
                               (Finite (QArith_base.Qmake 5 2))) in
  let acts := [On "ping" 7;
               Incoming 5 (ping "a") ""; Incoming 5 (ping "b") "";
               Incoming 5 (ping "c") ""; Incoming 5 (ping "d") ""] in
  map (fun p => calls (snd p)) (run ch initialState acts) =
    [[(7, VStr "a")]; [(7, VStr "b")]; [(7, VStr "c")]; []] /\
  dispatchedWithin 5 6 (run ch initialState acts) = 3.
Proof.
  vm_compute. split; reflexivity.
Qed.

(** ** The injected client *)

(** C7 (counterexample).  In the script for no channel id, [JSON.stringify],
    [JSON.parse], [Object.defineProperty], [Object.freeze] and
    [Object.create] are each used, and wherever one of them stands it is
    called through the global: none is saved into a local.  [on] pushes with
    the array's own [push]. *)
Lemma C7_globals_not_captured :
  let script := getClientScript None in
  (occurs "JSON.stringify" script = true /\ onlyCalled "JSON.stringify" script = true) /\
  (occurs "JSON.parse" script = true /\ onlyCalled "JSON.parse" script = true) /\
  (occurs "Object.defineProperty" script = true /\
   onlyCalled "Object.defineProperty" script = true) /\
  (occurs "Object.freeze" script = true /\ onlyCalled "Object.freeze" script = true) /\
  (occurs "Object.create" script = true /\ onlyCalled "Object.create" script = true) /\
  occurs "_l[t].push(h)" script = true.
Proof.
  vm_compute. repeat split; reflexivity.
Qed.

(** ** The channel id *)

(** C8 (the code at the failing input).  [Math.random()] returns [0.5],
    which prints as [0.i] in base 36: the nonce is the one character [i].
    It returns [0], which prints as [0]: the nonce is empty, and the channel
    has no prefix at all. *)
Theorem C8_auto_nonce_shorter_than_eight :
  let opts := withChannelId [("ping", stringSchema)] CidAuto in
  Ref.toString36 1 2 = "0.i" /\
  channelId (fst (createChannel opts (Ref.toString36 1 2))) = "i" /\
  Ref.toString36 0 1 = "0" /\
  channelId (fst (createChannel opts (Ref.toString36 0 1))) = EmptyString /\
  prefixCh (fst (createChannel opts (Ref.toString36 0 1))) "ping" = "ping" /\
  channelId (fst (createChannel opts "0.4fzyo82mvyr")) = "4fzyo82m".
Proof.
  vm_compute. repeat split; reflexivity.
Qed.

End Scenarios.

(** * The window facade, run *)

Module WinScenarios.
Import Win.
Local Open Scope string_scope.

(** C9 (witness): a window that was closed, and a fresh one. *)
Lemma C9_closed_window_fails_witness :
  let w0 := construct 0 in
  let w := snd (invoke close w0) in
  invoke (loadUrl "https://example.com") w = (inl WindowIsClosed, w) /\
  invoke (getCookies None) w = (inl WindowIsClosed, w) /\
  evaluateJs "alert(1)" w = (inl WindowIsClosed, w) /\
  nativeCalls w = [NOnClose; NClose].
Proof.
  intros w0 w.
  destruct (@WinFacts.C9_closed_window_fails w w0 eq_refl eq_refl)
    as [_ [_ [Hm [He _]]]].
  split; [apply Hm|]. split; [apply Hm|]. split; [apply He|]. reflexivity.
Defined.

End WinScenarios.

(* ===================================================================== *)
(** * More about the typed channel: listeners, guards and injection *)
(* ===================================================================== *)

Module ChannelFacts.
Import Js Ipc Run Reach.
Local Open Scope string_scope.

(** ** The listener map *)

Lemma lookup_map_set_ne (A : Type) (k k' : string) (v : A) (m : list (string * A)) :
  k' <> k -> lookup k' (map_set k v m) = lookup k' m.
Proof.
  intros Hne. induction m as [|[k0 v0] rest IH]; simpl.
  - destruct (String.eqb k' k) eqn:E; [|reflexivity].
    apply String.eqb_eq in E. contradiction.
  - destruct (String.eqb k k0) eqn:E; simpl.
    + apply String.eqb_eq in E. subst k0.
      destruct (String.eqb k' k) eqn:E'; [|reflexivity].
      apply String.eqb_eq in E'. contradiction.
    + destruct (String.eqb k' k0); [reflexivity | exact IH].
Qed.

Lemma lookup_map_set (A : Type) (k k' : string) (v : A) (m : list (string * A)) :
  lookup k' (map_set k v m) = if String.eqb k' k then Some v else lookup k' m.
Proof.
  destruct (String.eqb k' k) eqn:E.
  - apply String.eqb_eq in E. subst k'. apply IpcFacts.lookup_map_set_eq.
  - apply lookup_map_set_ne. intros ->. now rewrite String.eqb_refl in E.
Qed.

Lemma In_set_add (h x : handler) (set : list handler) :
  In x (set_add h set) <-> x = h \/ In x set.
Proof.
  unfold set_add. destruct (existsb (Nat.eqb h) set) eqn:E.
  - apply existsb_exists in E. destruct E as [y [Hy E]].
    apply Nat.eqb_eq in E. subst y. intuition (subst; auto).
  - rewrite in_app_iff. simpl. intuition.
Qed.



Lemma In_set_delete (h x : handler) (set : list handler) :
  In x (set_delete h set) <-> x <> h /\ In x set.
Proof.
  unfold set_delete. rewrite filter_In. split.
  - intros [Hin E]. split; [|exact Hin]. intros ->.
    now rewrite Nat.eqb_refl in E.
  - intros [Hne Hin]. split; [exact Hin|].
    destruct (Nat.eqb h x) eqn:E; [|reflexivity].
    apply Nat.eqb_eq in E. congruence.
Qed.

Lemma set_delete_absent (h : handler) (set : list handler) :
  ~ In h set -> set_delete h set = set.
Proof.
  intros Hn. unfold set_delete. induction set as [|x l IH]; simpl; [reflexivity|].
  destruct (Nat.eqb h x) eqn:E.
  - apply Nat.eqb_eq in E. subst x. exfalso. apply Hn. now left.
  - simpl. rewrite IH; [reflexivity|]. intros H. apply Hn. now right.
Qed.

Lemma set_delete_added (h : handler) (set : list handler) :
  ~ In h set -> set_delete h (set_add h set) = set.
Proof.
  intros Hn. unfold set_add.
  destruct (existsb (Nat.eqb h) set) eqn:E.
  - now apply set_delete_absent.
  - unfold set_delete. rewrite filter_app. simpl. rewrite Nat.eqb_refl. simpl.
    rewrite app_nil_r. now apply set_delete_absent.
Qed.


Section WithBuiltins.
Context {B : Builtins}.

(** The handlers of a type after [on], in terms of those before. *)
Lemma handlersOf_on (ch : Channel) (st : ChannelState) (type type' : string)
      (h : handler) :
  handlersOf (on ch st type h) type' =
  if String.eqb type' type && in_ type (schemas (options ch)) &&
     negb match maxListenersPerEvent (options ch) with
          | Some m => int_ge (Z.of_nat (length (handlersOf st type))) m
          | None => false
          end
  then set_add h (handlersOf st type)
  else handlersOf st type'.
Proof.
  unfold on, handlersOf.
  destruct (in_ type (schemas (options ch))); simpl;
    [|rewrite andb_false_r; reflexivity].
  rewrite andb_true_r.
  destruct (lookup type (listeners st)) as [set|] eqn:El; simpl.
  - destruct (match maxListenersPerEvent (options ch) with
              | Some m => _ | None => false end); simpl.
    + rewrite andb_false_r. reflexivity.
    + rewrite andb_true_r, lookup_map_set.
      destruct (String.eqb type' type); reflexivity.
  - destruct (match maxListenersPerEvent (options ch) with
              | Some m => _ | None => false end); simpl.
    + rewrite andb_false_r, lookup_map_set.
      destruct (String.eqb type' type) eqn:E; [|reflexivity].
      apply String.eqb_eq in E. subst type'. now rewrite El.
    + rewrite andb_true_r, !lookup_map_set.
      destruct (String.eqb type' type) eqn:E; reflexivity.
Qed.

(** The handlers of a type after [off]. *)
Lemma handlersOf_off (st : ChannelState) (type type' : string) (h : handler) :
  handlersOf (off st type h) type' =
  if String.eqb type' type then set_delete h (handlersOf st type)
  else handlersOf st type'.
Proof.
  unfold off, handlersOf.
  destruct (lookup type (listeners st)) as [set|] eqn:El; simpl.
  - rewrite lookup_map_set. destruct (String.eqb type' type); reflexivity.
  - destruct (String.eqb type' type) eqn:E; [|reflexivity].
    apply String.eqb_eq in E. subst type'. now rewrite El.
Qed.







(** ** What a message does *)

(** Either a message does nothing, or it ends the callback with a
    [TypeError] (its type is an inherited name for which a listener set
    exists), or it got past every guard: then the schema of its event type
    is asked once, and what follows is the report of a failure or a call of
    each handler. *)
Lemma dispatch_cases (ch : Channel) (st : ChannelState) (raw sourceUrl : string) :
  dispatch ch st raw sourceUrl = [] \/
  (dispatch ch st raw sourceUrl = [ThrowTypeError] /\
   exists env type,
     decode raw (maxMessageSize (options ch)) = Some env /\
     unprefixCh ch (envelope_ch env) = Some type /\
     lookup type (schemas (options ch)) = None /\
     inherited type = true /\
     lookup type (listeners st) <> None) \/
  exists env type schema,
    decode raw (maxMessageSize (options ch)) = Some env /\
    unprefixCh ch (envelope_ch env) = Some type /\
    (originsEnforced ch = true ->
     isOriginTrusted sourceUrl (trustedList ch) = true) /\
    lookup type (schemas (options ch)) = Some schema /\
    dispatch ch st raw sourceUrl =
      SafeParse type (envelope_p env) ::
      match schema (envelope_p env) with
      | None => if onValidationError (options ch)
                then [ValidationError type (envelope_p env)] else []
      | Some data => map (fun fn => Call fn data) (handlersOf st type)
      end.
Proof.
  unfold dispatch, handlersOf.
  destruct (decode raw _) as [env|] eqn:Ed; [|now left].
  destruct (unprefixCh ch _) as [type|] eqn:Eu; [|now left].
  destruct (originsEnforced ch && negb (isOriginTrusted sourceUrl (trustedList ch)))
    eqn:Eg; [now left|].
  destruct (lookup type (listeners st)) as [set|] eqn:El; [|now left].
  destruct (in_ type (schemas (options ch))) eqn:Ein; simpl; [|now left].
  destruct (lookup type (schemas (options ch))) as [schema|] eqn:Es.
  2:{ right. left. split; [reflexivity|]. exists env, type.
      unfold in_, has_key in Ein. rewrite Es, orb_false_r in Ein.
      rewrite El. repeat split; auto. discriminate. }
  right. right. exists env, type, schema. rewrite El.
  split; [reflexivity|]. split; [exact Eu|]. split; [|split; [exact Es|reflexivity]].
  intros He. rewrite He in Eg. simpl in Eg.
  now destruct (isOriginTrusted _ _).
Qed.

Lemma onMessage_cases (ch : Channel) (st : ChannelState) (now : Z)
      (raw sourceUrl : string) :
  snd (onMessage ch st now raw sourceUrl) = [] \/
  snd (onMessage ch st now raw sourceUrl) = dispatch ch st raw sourceUrl.
Proof.
  unfold onMessage. destruct (rateLimiter _ _ _) as [[] w]; simpl; auto.
Qed.

Lemma calls_Call (data : value) (set : list handler) (h : handler) (v : value) :
  In (h, v) (calls (map (fun fn => Call fn data) set)) <-> v = data /\ In h set.
Proof.
  rewrite IpcFacts.calls_map_Call, in_map_iff. split.
  - intros [x [E Hx]]. inversion E; subst. auto.
  - intros [-> Hh]. now exists h.
Qed.

(** The handlers a message calls: none, or all those of its event type,
    each with the data its schema returned. *)
Lemma calls_onMessage (ch : Channel) (st : ChannelState) (now : Z)
      (raw sourceUrl : string) :
  calls (snd (onMessage ch st now raw sourceUrl)) = [] \/
  exists env type schema data,
    decode raw (maxMessageSize (options ch)) = Some env /\
    unprefixCh ch (envelope_ch env) = Some type /\
    lookup type (schemas (options ch)) = Some schema /\
    schema (envelope_p env) = Some data /\
    calls (snd (onMessage ch st now raw sourceUrl)) =
      map (fun h => (h, data)) (handlersOf st type).
Proof.
  destruct (onMessage_cases ch st now raw sourceUrl) as [-> | ->]; [now left|].
  destruct (dispatch_cases ch st raw sourceUrl)
    as [-> | [[-> _] | [env [type [schema [Hd [Hu [_ [Hs ->]]]]]]]]];
    [now left | now left |].
  destruct (schema (envelope_p env)) as [data|] eqn:Ev.
  - right. exists env, type, schema, data.
    repeat (split; [assumption|]). simpl. apply IpcFacts.calls_map_Call.
  - left. now destruct (onValidationError (options ch)).
Qed.

(** ** Handlers see validated data only *)

(** X1.  Whatever a handler is called with is what the schema of the
    message's event type returned for the payload of the envelope, and the
    handler is one of those registered for that type: nothing reaches a
    handler unvalidated, or a handler of another type. *)
Theorem handlers_receive_validated_data
        (ch : Channel) (st : ChannelState) (now : Z) (raw sourceUrl : string)
        (h : handler) (v : value) :
  In (h, v) (calls (snd (onMessage ch st now raw sourceUrl))) ->
  exists env type schema,
    decode raw (maxMessageSize (options ch)) = Some env /\
    unprefixCh ch (envelope_ch env) = Some type /\
    lookup type (schemas (options ch)) = Some schema /\
    schema (envelope_p env) = Some v /\
    In h (handlersOf st type).
Proof.
  intros Hin.
  destruct (calls_onMessage ch st now raw sourceUrl)
    as [E | [env [type [schema [data [Hd [Hu [Hs [Hv E]]]]]]]]];
    rewrite E in Hin; [destruct Hin|].
  apply in_map_iff in Hin. destruct Hin as [x [Hx Hin]]. inversion Hx; subst.
  exists env, type, schema. auto.
Qed.

(** X2.  A payload that the schema of its event type rejects reaches no
    handler.  The message then has no effect at all (it was dropped by an
    earlier guard, or nobody ever listened to the type), or the schema was
    asked once and [onValidationError], when the option is given, was called
    once with the event type and the payload as it arrived. *)
Theorem invalid_payload_not_delivered
        (ch : Channel) (st : ChannelState) (now : Z) (raw sourceUrl : string)
        (env : value) (type : string) (schema : SchemaLike) :
  decode raw (maxMessageSize (options ch)) = Some env ->
  unprefixCh ch (envelope_ch env) = Some type ->
  lookup type (schemas (options ch)) = Some schema ->
  schema (envelope_p env) = None ->
  calls (snd (onMessage ch st now raw sourceUrl)) = [] /\
  (snd (onMessage ch st now raw sourceUrl) = [] \/
   snd (onMessage ch st now raw sourceUrl) =
     SafeParse type (envelope_p env) ::
     if onValidationError (options ch)
     then [ValidationError type (envelope_p env)] else []).
Proof.
  intros Hd Hu Hs Hv.
  destruct (onMessage_cases ch st now raw sourceUrl) as [-> | ->];
    [split; [reflexivity | now left]|].
  destruct (dispatch_cases ch st raw sourceUrl)
    as [-> | [[_ [env' [type' [Hd' [Hu' [Hs' _]]]]]]
             | [env' [type' [schema' [Hd' [Hu' [_ [Hs' ->]]]]]]]]];
    [split; [reflexivity | now left] | congruence |].
  rewrite Hd in Hd'. inversion Hd'; subst env'.
  rewrite Hu in Hu'. inversion Hu'; subst type'.
  rewrite Hs in Hs'. inversion Hs'; subst schema'.
  rewrite Hv. split; [|now right].
  now destruct (onValidationError (options ch)).
Qed.

(** ** The listener sets *)



(** X5.  After [off(type, h)] the handler [h] is no longer among the
    handlers of [type], and no message validated as a [type] message calls
    it; the other handlers of [type] and the handlers of other types stay as
    they were. *)
Theorem off_removes
        (ch : Channel) (st : ChannelState) (type : string) (h : handler) :
  ~ In h (handlersOf (off st type h) type) /\
  (forall type' h', type' <> type \/ h' <> h ->
     (In h' (handlersOf (off st type h) type') <-> In h' (handlersOf st type'))) /\
  (forall now raw sourceUrl p v,
     safeParses (snd (onMessage ch (off st type h) now raw sourceUrl)) = [(type, p)] ->
     ~ In (h, v) (calls (snd (onMessage ch (off st type h) now raw sourceUrl)))).
Proof.
  assert (Hgone : ~ In h (handlersOf (off st type h) type)).
  { rewrite handlersOf_off, String.eqb_refl, In_set_delete. now intros [Hne _]. }
  split; [exact Hgone|]. split.
  - intros type' h' Hor. rewrite handlersOf_off.
    destruct (String.eqb type' type) eqn:E; [|reflexivity].
    apply String.eqb_eq in E. subst type'. rewrite In_set_delete.
    destruct Hor as [Hne | Hne]; [now contradiction Hne|]. tauto.
  - intros now raw sourceUrl p v Hsp Hin.
    destruct (onMessage_cases ch (off st type h) now raw sourceUrl) as [E | E];
      rewrite E in Hsp, Hin; [destruct Hin|].
    destruct (dispatch_cases ch (off st type h) raw sourceUrl)
      as [E' | [[E' _] | [env [type' [schema [_ [_ [_ [_ E']]]]]]]]];
      rewrite E' in Hsp, Hin; [destruct Hin | destruct Hin |].
    assert (type' = type).
    { destruct (schema (envelope_p env)) as [data|].
      - simpl in Hsp.
        destruct (safeParses (map (fun fn => Call fn data)
                                  (handlersOf (off st type h) type')));
          now inversion Hsp.
      - destruct (onValidationError (options ch)); now inversion Hsp. }
    subst type'.
    destruct (schema (envelope_p env)) as [data|].
    + simpl in Hin. apply calls_Call in Hin. now apply Hgone.
    + now destruct (onValidationError (options ch)).
Qed.

(** X6.  Registering a handler that is not yet registered and removing it
    again leaves the handlers of the type as they were, whether or not the
    registration took effect; and it does take effect, putting the handler
    last, when [type in schemas] holds (the type is a schema key, or a name
    that the schemas object inherits) and the cap is not reached. *)
Theorem on_then_off
        (ch : Channel) (st : ChannelState) (type : string) (h : handler) :
  ~ In h (handlersOf st type) ->
  handlersOf (off (on ch st type h) type h) type = handlersOf st type /\
  (in_ type (schemas (options ch)) = true ->
   (forall m, maxListenersPerEvent (options ch) = Some m ->
              int_ge (Z.of_nat (length (handlersOf st type))) m = false) ->
   handlersOf (on ch st type h) type = (handlersOf st type ++ [h])%list).
Proof.
  intros Hn. split.
  - rewrite handlersOf_off, String.eqb_refl, handlersOf_on, String.eqb_refl.
    destruct (_ && _ && _).
    + now apply set_delete_added.
    + now apply set_delete_absent.
  - intros Hk Hroom. rewrite handlersOf_on, String.eqb_refl, Hk. simpl.
    assert (Hfull : match maxListenersPerEvent (options ch) with
                    | Some m => int_ge (Z.of_nat (length (handlersOf st type))) m
                    | None => false
                    end = false).
    { destruct (maxListenersPerEvent (options ch)) as [m|]; [|reflexivity].
      exact (Hroom m eq_refl). }
    rewrite Hfull. simpl. unfold set_add.
    destruct (existsb (Nat.eqb h) (handlersOf st type)) eqn:E; [|reflexivity].
    apply existsb_exists in E. destruct E as [x [Hx E]].
    apply Nat.eqb_eq in E. subst x. contradiction.
Qed.

(** ** Guards before the schema *)

(** X8.  On a channel with a channel id, an envelope whose [$ch] does not
    start with the id and a colon has no effect, whatever follows in it;
    one that does is taken for the event type that follows the colon. *)
Theorem wrong_prefix_dropped
        (ch : Channel) (st : ChannelState) (now : Z) (raw sourceUrl : string)
        (env : value) :
  channelId ch <> "" ->
  decode raw (maxMessageSize (options ch)) = Some env ->
  (String.prefix (channelId ch ++ ":") (envelope_ch env) = false ->
   snd (onMessage ch st now raw sourceUrl) = []) /\
  (forall type, envelope_ch env = channelId ch ++ ":" ++ type ->
                unprefixCh ch (envelope_ch env) = Some type).
Proof.
  intros Hid Hd.
  assert (Hne : String.eqb (channelId ch) "" = false).
  { destruct (String.eqb (channelId ch) "") eqn:E; [|reflexivity].
    apply String.eqb_eq in E. contradiction. }
  split.
  - intros Hp.
    destruct (onMessage_cases ch st now raw sourceUrl) as [-> | ->];
      [reflexivity|].
    unfold dispatch. rewrite Hd. unfold unprefixCh. now rewrite Hne, Hp.
  - intros type ->. unfold unprefixCh. rewrite Hne.
    rewrite <- IpcFacts.append_assoc, IpcFacts.prefix_app, IpcFacts.slice_from_app.
    reflexivity.
Qed.

(** ** The budget of the rate limiter *)

(** What the window holds is what was let through less than a second
    before the latest arrival. *)
Lemma Recent_step (limit : number) (last now : Z) (history window : list Z) :
  gt_zero limit = true -> (last <= now)%Z ->
  Recent last history window ->
  let (ok, window') := rateLimiter (Some limit) now window in
  Recent now (history ++ if ok then [now] else []) window'.
Proof.
  intros Hgt Hle [Hpast Hsorted Hwin].
  unfold rateLimiter. rewrite Hgt.
  assert (Hshift : shiftExpired now window = youngerThan now history).
  { rewrite RateFacts.shiftExpired_filter.
    - rewrite Hwin. apply RateFacts.filter_filter_younger, Hle.
    - rewrite Hwin. apply RateFacts.nondecreasing_filter, Hsorted. }
  rewrite Hshift.
  destruct (int_ge _ limit).
  - rewrite app_nil_r. split; auto.
    intros a Ha. specialize (Hpast a Ha). lia.
  - split.
    + intros a Ha. apply in_app_or in Ha.
      destruct Ha as [Ha|[<-|[]]]; [specialize (Hpast a Ha)|]; lia.
    + apply RateFacts.nondecreasing_app; auto.
      intros y Hy. specialize (Hpast y Hy). lia.
    + unfold youngerThan. rewrite filter_app. simpl.
      assert (E : (now - 1000 <? now)%Z = true) by (apply Z.ltb_lt; lia).
      now rewrite E.
Qed.

Lemma Recent_stateAfter (ch : Channel) (limit : number) (acts : list action) :
  rateLimit (options ch) = Some limit ->
  gt_zero limit = true ->
  forall st last history,
    Recent last history (_rateLimitWindow st) ->
    nondecreasing (arrivals acts) ->
    (forall u, In u (arrivals acts) -> (last <= u)%Z) ->
    exists last',
      (last' = last \/ In last' (arrivals acts)) /\
      Recent last'
             (history ++ admits (Some limit) (_rateLimitWindow st) (arrivals acts))
             (_rateLimitWindow (stateAfter ch st acts)).
Proof.
  intros Hl Hgt.
  induction acts as [|[now raw src|type h|type h] rest IH];
    intros st last history Hinv Hs Hlast.
  - exists last. simpl. rewrite app_nil_r. auto.
  - cbn [stateAfter arrivals admits] in *. destruct Hs as [Hnow Hs].
    assert (Hstep := @Recent_step limit last now history (_rateLimitWindow st)
                       Hgt (Hlast now (or_introl eq_refl)) Hinv).
    unfold onMessage. rewrite Hl.
    destruct (rateLimiter (Some limit) now (_rateLimitWindow st)) as [ok window'].
    cbn [fst].
    destruct (IH {| listeners := listeners st; _rateLimitWindow := window' |}
                 now _ Hstep Hs Hnow) as [last' [Hin Hrec]].
    exists last'.
    split; [destruct Hin as [-> | Hin]; [right; now left | right; now right]|].
    cbn [_rateLimitWindow] in Hrec. now rewrite app_assoc.
  - cbn [stateAfter arrivals] in *.
    rewrite <- (RateFacts.rateLimitWindow_on ch st type h) in Hinv |- *.
    now apply IH.
  - cbn [stateAfter arrivals] in *.
    rewrite <- (RateFacts.rateLimitWindow_off st type h) in Hinv |- *.
    now apply IH.
Qed.

Lemma nondecreasing_snoc (ts : list Z) (t : Z) :
  nondecreasing (ts ++ [t]) ->
  nondecreasing ts /\ forall u, In u ts -> (u <= t)%Z.
Proof.
  induction ts as [|a ts IH]; simpl.
  - intros _. split; [exact I | intros u []].
  - intros [Ha Hs]. destruct (IH Hs) as [Hs' Hle]. split.
    + split; [|exact Hs']. intros u Hu. apply Ha, in_or_app. now left.
    + intros u [<- | Hu]; [|now apply Hle].
      apply Ha, in_or_app. right. now left.
Qed.

(** X9.  The budget of the rate limiter is used by every message that the
    limiter lets through, whatever its content and whatever becomes of it
    afterwards (too long, not an envelope, wrong prefix, untrusted source,
    invalid payload); a message that the limiter turns away does not use it.
    For arrival times that do not decrease: a message arriving at [t] has no
    effect when the messages let through less than a second before [t] are
    as many as the limit or more, and is otherwise handled as without a
    limit. *)
Theorem dropped_messages_use_the_budget
        (ch : Channel) (r : number) (t : Z) (acts : list action)
        (raw sourceUrl : string) :
  rateLimit (options ch) = Some r ->
  gt_zero r = true ->
  nondecreasing (arrivals acts ++ [t]) ->
  let through := admits (Some r) [] (arrivals acts) in
  let st := stateAfter ch initialState acts in
  snd (onMessage ch st t raw sourceUrl) =
    if int_ge (Z.of_nat (length (youngerThan t through))) r
    then []
    else dispatch ch st raw sourceUrl.
Proof.
  intros Hr Hgt Hs through st.
  destruct (nondecreasing_snoc _ _ Hs) as [Hs' Hle].
  assert (Hstart : exists first, (first <= t)%Z /\
                     forall u, In u (arrivals acts) -> (first <= u)%Z).
  { destruct (arrivals acts) as [|a rest] eqn:E.
    - exists t. split; [lia | intros u []].
    - exists a. split; [apply Hle; now left|].
      intros u [<- | Hu]; [lia | apply (proj1 Hs'), Hu]. }
  destruct Hstart as [first [Hft Hfirst]].
  assert (H0 : Recent first [] (_rateLimitWindow initialState)).
  { split; simpl; auto. intros a []. }
  destruct (@Recent_stateAfter ch r acts Hr Hgt initialState first [] H0 Hs' Hfirst)
    as [last [Hlast [Hpast Hsorted Hwin]]].
  cbn [app initialState _rateLimitWindow] in Hpast, Hsorted, Hwin.
  fold through in Hpast, Hsorted, Hwin. fold st in Hwin.
  assert (Hlt : (last <= t)%Z) by (destruct Hlast as [-> | Hin]; auto).
  unfold onMessage, rateLimiter. rewrite Hr, Hgt.
  assert (Hshift : shiftExpired t (_rateLimitWindow st) = youngerThan t through).
  { rewrite RateFacts.shiftExpired_filter.
    - rewrite Hwin. apply RateFacts.filter_filter_younger, Hlt.
    - rewrite Hwin. apply RateFacts.nondecreasing_filter, Hsorted. }
  rewrite Hshift. now destruct (int_ge _ r).
Qed.

(** ** Origins *)

(** X10.  When some entry of [trustedOrigins] normalizes, a message has no
    effect if its source URL does not parse, if the origin of its source is
    opaque ([about:blank], [data:] pages; listing the text [null] does not
    help), or if no entry has the origin of the source. *)
Theorem untrusted_source_dropped
        (opts : ChannelOptions) (random36 : string) (st : ChannelState)
        (now : Z) (raw sourceUrl : string) (l : list string) (e o : string) :
  trustedOrigins opts = Some l ->
  In e l ->
  normalizeOrigin e = Some o ->
  URL_origin sourceUrl = None \/
  URL_origin sourceUrl = Some "null" \/
  (forall e', In e' l -> URL_origin e' <> URL_origin sourceUrl) ->
  snd (onMessage (fst (createChannel opts random36)) st now raw sourceUrl) = [].
Proof.
  intros Hl He Ho Hsrc. apply IpcFacts.origin_gate.
  - apply IpcFacts.originsEnforced_createChannel. exists l, e, o. auto.
  - destruct (isOriginTrusted _ _) eqn:E; [|reflexivity]. exfalso.
    apply IpcFacts.isOriginTrusted_spec in E. destruct E as [o' [Hu Hin]].
    unfold trustedList, createChannel in Hin. simpl in Hin. rewrite Hl in Hin.
    simpl in Hin.
    destruct Hsrc as [Hnone | [Hnull | Hother]].
    + congruence.
    + rewrite Hnull in Hu. inversion Hu; subst o'.
      exact (IpcFacts.normalizeAll_not_null l Hin).
    + apply IpcFacts.normalizeAll_In in Hin. destruct Hin as [e' [He' Hn]].
      apply (Hother e' He'). rewrite Hu. unfold normalizeOrigin in Hn.
      destruct (URL_origin e') as [x|]; [|discriminate].
      destruct (String.eqb x "null"); [discriminate | exact Hn].
Qed.

(** X11.  A message whose source has the origin of some entry of
    [trustedOrigins] (compared after normalization, so the case of scheme and
    host, a default port or a path in the entry do not matter) is handled
    exactly as by the same channel without [trustedOrigins]. *)
Theorem trusted_source_passes
        (opts : ChannelOptions) (random36 : string) (st : ChannelState)
        (now : Z) (raw sourceUrl : string) (l : list string) (e o : string) :
  trustedOrigins opts = Some l ->
  In e l ->
  normalizeOrigin e = Some o ->
  URL_origin sourceUrl = Some o ->
  onMessage (fst (createChannel opts random36)) st now raw sourceUrl =
  onMessage {| options := opts;
               channelId := channelId (fst (createChannel opts random36));
               normalizedOrigins := None |} st now raw sourceUrl.
Proof.
  intros Hl He Ho Hu.
  assert (Ht : isOriginTrusted sourceUrl
                 (trustedList (fst (createChannel opts random36))) = true).
  { apply IpcFacts.isOriginTrusted_spec. exists o. split; [exact Hu|].
    unfold trustedList, createChannel. simpl. rewrite Hl. simpl.
    apply IpcFacts.normalizeAll_In. now exists e. }
  unfold onMessage, dispatch. rewrite Ht. simpl.
  rewrite andb_false_r. reflexivity.
Qed.

(** ** Injection *)

(** X12.  The only thing a channel ever evaluates in the webview is the
    client script for its own channel id, the same text at creation and after
    every page load.  With [injectClient: false] it evaluates nothing, neither
    at creation nor on any page load; and a page load that has only started
    injects nothing. *)
Theorem injection_is_the_client_script (opts : ChannelOptions) (random36 : string) :
  let ch := fst (createChannel opts random36) in
  let script := getClientScript (if String.eqb (channelId ch) ""
                                 then None else Some (channelId ch)) in
  (forall event url e,
     In e (snd (createChannel opts random36) ++ onPageLoad ch event url) ->
     e = EvaluateJs script) /\
  (injectClient opts = Some false ->
   snd (createChannel opts random36) = [] /\
   forall event url, onPageLoad ch event url = []) /\
  (forall url, onPageLoad ch started url = []).
Proof.
  intros ch script. split; [|split].
  - intros event url e Hin. apply in_app_iff in Hin.
    destruct Hin as [Hin | Hin].
    + unfold createChannel in Hin. simpl in Hin.
      destruct (injectClientOn opts); [|destruct Hin].
      destruct (originsEnforced _); [destruct Hin|].
      destruct Hin as [<- | []]. reflexivity.
    + unfold onPageLoad in Hin.
      destruct (injectClientOn _); [|destruct Hin].
      destruct event; [destruct Hin|].
      destruct (_ && _); [destruct Hin|].
      destruct Hin as [<- | []]. reflexivity.
  - intros Hoff. split.
    + unfold createChannel, injectClientOn. simpl. now rewrite Hoff.
    + intros event url. unfold onPageLoad, injectClientOn. simpl. now rewrite Hoff.
  - intros url. unfold onPageLoad. now destruct (injectClientOn _).
Qed.

(** X13.  When some entry of [trustedOrigins] normalizes, the client is
    not injected while the channel is created, and a page load injects it
    only when the load has finished and the origin of the page is the normal
    form of some entry; such a page load does inject it when [injectClient] is
    on. *)
Theorem injection_waits_for_trusted_page
        (opts : ChannelOptions) (random36 : string) (l : list string)
        (e o : string) :
  trustedOrigins opts = Some l ->
  In e l ->
  normalizeOrigin e = Some o ->
  let ch := fst (createChannel opts random36) in
  snd (createChannel opts random36) = [] /\
  (forall event url,
     onPageLoad ch event url <> [] ->
     event = finished /\
     exists e' o', In e' l /\ normalizeOrigin e' = Some o' /\
                   URL_origin url = Some o') /\
  (forall url, injectClientOn opts = true -> URL_origin url = Some o ->
               onPageLoad ch finished url = inject ch).
Proof.
  intros Hl He Ho ch.
  assert (Hon : originsEnforced ch = true).
  { apply IpcFacts.originsEnforced_createChannel. exists l, e, o. auto. }
  destruct (IpcFacts.deferred_injection opts random36 Hon) as [Hnone Hload].
  assert (Hlist : trustedList ch = normalizeAll l).
  { unfold ch, trustedList, createChannel. simpl. now rewrite Hl. }
  split; [exact Hnone|]. split.
  - intros event url Hne. destruct (Hload event url Hne) as [-> Ht].
    split; [reflexivity|].
    apply IpcFacts.isOriginTrusted_spec in Ht. destruct Ht as [o' [Hu Hin]].
    fold ch in Hin. rewrite Hlist in Hin.
    apply IpcFacts.normalizeAll_In in Hin. destruct Hin as [e' [He' Hn]].
    now exists e', o'.
  - intros url Hinj Hu. unfold onPageLoad.
    change (options ch) with opts. rewrite Hinj, Hon.
    assert (Ht : isOriginTrusted url (trustedList ch) = true).
    { apply IpcFacts.isOriginTrusted_spec. exists o. split; [exact Hu|].
      rewrite Hlist. apply IpcFacts.normalizeAll_In. now exists e. }
    now rewrite Ht.
Qed.

(** ** The channel id *)

(** X14.  The channel id is the string given, empty when none is given,
    and for [channelId: true] the third to tenth character of the base-36
    text of the random number: as many characters as that text has after its
    first two, and eight at most. *)
Theorem channel_id_resolution (opts : ChannelOptions) (random36 : string) :
  let id := channelId (fst (createChannel opts random36)) in
  match channelIdOpt opts with
  | CidString s => id = s
  | CidNone => id = ""
  | CidAuto =>
      id = slice 2 10 random36 /\
      String.length id = Nat.min 8 (String.length random36 - 2)
  end.
Proof.
  unfold createChannel. simpl.
  destruct (channelIdOpt opts); simpl; try reflexivity.
  split; [reflexivity|]. unfold slice. apply (ScriptFacts.substring_length 2 8).
Qed.

End WithBuiltins.

End ChannelFacts.
(* ===================================================================== *)
(** * The pump, the window count and the close callback *)
(* ===================================================================== *)

Module ProcessFacts.
Import Win Process.

Lemma openCount_app (a b : list NativeWindow) :
  openCount (a ++ b) = openCount a + openCount b.
Proof.
  unfold openCount. now rewrite filter_app, length_app.
Qed.

Lemma openCount_store (i : nat) (w w' : NativeWindow) (l : list NativeWindow) :
  nth_error l i = Some w ->
  openCount (store i w' l) + isOpen w = openCount l + isOpen w'.
Proof.
  revert i. induction l as [|x l IH]; intros i Hi.
  - destruct i; discriminate Hi.
  - destruct i as [|i]; simpl in Hi.
    + inversion Hi; subst x. unfold openCount, isOpen. simpl.
      destruct (_closed w), (_closed w'); simpl; lia.
    + specialize (IH i Hi). unfold openCount in *. simpl.
      destruct (_closed x); simpl; lia.
Qed.

Lemma In_store (A : Type) (i : nat) (x y : A) (l : list A) :
  In y (store i x l) -> y = x \/ In y l.
Proof.
  revert i. induction l as [|z l IH]; intros i H; simpl in H.
  - destruct i; destruct H.
  - destruct i as [|i]; simpl in H.
    + destruct H as [<- | H]; [now left | right; now right].
    + destruct H as [<- | H]; [right; now left|].
      destruct (IH i H); [now left | right; now right].
Qed.

Lemma openCount_pos (l : list NativeWindow) (w : NativeWindow) :
  In w l -> _closed w = false -> 0 < openCount l.
Proof.
  intros Hin Ho. unfold openCount.
  assert (H : In w (filter (fun w => negb (_closed w)) l)).
  { apply filter_In. split; [exact Hin | now rewrite Ho]. }
  destruct (filter _ l); [destruct H | simpl; lia].
Qed.

(** ** What a method leaves alone *)

Lemma Quiet_refl (w : NativeWindow) : Quiet w w.
Proof. split; auto. Qed.

Lemma Quiet_invoke (m : Method) (w : NativeWindow) : Quiet w (snd (invoke m w)).
Proof.
  destruct (_closed w) eqn:E.
  - destruct m; unfold invoke, simply, bind, _ensureOpen; rewrite E; simpl;
      apply Quiet_refl.
  - destruct m; unfold invoke, simply, bind, _ensureOpen; rewrite E; simpl;
      try (split; simpl; congruence).
    destruct (_unsafe w); simpl; split; simpl; congruence.
Qed.

Lemma Quiet_evaluateJs (script : string) (w : NativeWindow) :
  Quiet w (snd (evaluateJs script w)).
Proof.
  unfold evaluateJs, bind, _ensureOpen.
  destruct (_closed w) eqn:E; simpl; [apply Quiet_refl|].
  split; simpl; congruence.
Qed.

Lemma Quiet_onClose (w : NativeWindow) : Quiet w (snd (onClose w)).
Proof. split; simpl; auto. Qed.

(** A method other than [close] does not close the window either. *)
Lemma invoke_keeps_open (m : Method) (w : NativeWindow) :
  m <> close -> _closed (snd (invoke m w)) = _closed w.
Proof.
  intros Hm. destruct (_closed w) eqn:E.
  - destruct m; unfold invoke, simply, bind, _ensureOpen; rewrite E; simpl;
      exact E.
  - destruct m; try contradiction;
      unfold invoke, simply, bind, _ensureOpen; rewrite E; simpl; try exact E.
    destruct (_unsafe w); simpl; exact E.
Qed.

(** ** What holds in every world *)

Lemma Sound_start : Sound start.
Proof.
  split; simpl; [lia | lia | intros w []].
Qed.

Lemma Sound_quiet (g : World) (i : nat) (f : NativeWindow -> NativeWindow) :
  (forall w, Quiet w (f w)) -> Sound g -> Sound (onWindow g i f).
Proof.
  intros Hf [Hc Hp Hu]. unfold onWindow.
  destruct (nth_error (windows g) i) as [w|] eqn:Ei; [|now split].
  destruct (Hf (enter g w)) as [Qc Qp Qu Qo]. simpl in *.
  pose proof (openCount_store i (f (enter g w)) (windows g) Ei) as Hs.
  assert (Hle : isOpen (f (enter g w)) <= isOpen w).
  { unfold isOpen. destruct (_closed w) eqn:E.
    - now rewrite (Qo eq_refl).
    - destruct (_closed (f (enter g w))); lia. }
  assert (Hw : In w (windows g)) by (eapply nth_error_In; eassumption).
  split; simpl.
  - rewrite Qc. lia.
  - rewrite Qc, Qp. exact Hp.
  - intros x Hx. apply In_store in Hx. destruct Hx as [-> | Hx]; [|now apply Hu].
    rewrite Qu. destruct (Hu w Hw) as [H1 H0]. split; [exact H1|].
    intros Ho. apply H0. destruct (_closed w) eqn:E; [|reflexivity].
    rewrite (Qo eq_refl) in Ho. discriminate Ho.
Qed.

Lemma Sound_closeEvent (g : World) (i : nat) :
  Sound g -> Sound (onWindow g i _handleClose).
Proof.
  intros [Hc Hp Hu]. unfold onWindow.
  destruct (nth_error (windows g) i) as [w|] eqn:Ei; [|now split].
  assert (Hw : In w (windows g)) by (eapply nth_error_In; eassumption).
  pose proof (openCount_store i (_handleClose (enter g w)) (windows g) Ei) as Hs.
  destruct (Hu w Hw) as [H1 H0].
  unfold _handleClose in *. simpl in *.
  destruct (_closed w) eqn:E; simpl in *.
  - unfold isOpen in Hs. simpl in Hs. rewrite E in Hs.
    split; simpl.
    + lia.
    + exact Hp.
    + intros x Hx. apply In_store in Hx. destruct Hx as [-> | Hx]; [|now apply Hu].
      simpl. rewrite E. split; [exact H1 | discriminate].
  - unfold isOpen in Hs. simpl in Hs. rewrite E in Hs.
    specialize (H0 eq_refl).
    split; simpl.
    + destruct (Process._windowCount g - 1 <=? 0)%Z eqn:El; [|lia].
      apply Z.leb_le in El. lia.
    + destruct (Process._windowCount g - 1 <=? 0)%Z eqn:El; [lia|].
      intros _. apply Hp. apply Z.leb_gt in El. lia.
    + intros x Hx. apply In_store in Hx. destruct Hx as [-> | Hx]; [|now apply Hu].
      simpl. rewrite H0. split; [destruct (_userCloseCallback w); lia | discriminate].
Qed.

Lemma Sound_step (g : World) (e : event) : Sound g -> Sound (step g e).
Proof.
  intros Hs. destruct e as [addon|i m|i script|i|i]; simpl.
  - destruct Hs as [Hc Hp Hu]. unfold new.
    destruct (Process._pump g) eqn:Ep, (init addon), (_NativeWindow addon);
      split; simpl; auto; try lia;
      try (rewrite openCount_app; unfold openCount at 2; simpl; lia);
      try (intros w Hw; apply in_app_iff in Hw;
           destruct Hw as [Hw | [<- | []]]; [now apply Hu | simpl; auto]).
  - apply Sound_quiet; [|exact Hs]. intros w. apply Quiet_invoke.
  - apply Sound_quiet; [|exact Hs]. intros w.
    destruct (_unsafe w); [apply Quiet_evaluateJs | apply Quiet_refl].
  - apply Sound_quiet; [|exact Hs]. intros w. apply Quiet_onClose.
  - apply Sound_closeEvent, Hs.
Qed.

Lemma Sound_fold (es : list event) (g : World) :
  Sound g -> Sound (fold_left step es g).
Proof.
  revert g. induction es as [|e es IH]; intros g Hs; simpl; [exact Hs|].
  apply IH, Sound_step, Hs.
Qed.

(** X15.  Whatever windows are constructed, used and closed, the event
    pump is running as long as some window is open. *)
Theorem pump_runs_while_a_window_is_open (es : list event) (w : NativeWindow) :
  In w (windows (run es)) ->
  _closed w = false ->
  Process._pump (run es) = true.
Proof.
  intros Hin Ho. unfold run in *.
  destruct (Sound_fold es Sound_start) as [Hc Hp _].
  apply Hp. pose proof (openCount_pos _ _ Hin Ho). lia.
Qed.

(** X16.  The close callback of a window is called at most once, and not
    before the window is closed, however often close events arrive and
    callbacks are registered. *)
Theorem close_callback_at_most_once (es : list event) :
  Forall (fun w => userCloseCalls w <= 1 /\
                   (_closed w = false -> userCloseCalls w = 0))
         (windows (run es)).
Proof.
  apply Forall_forall. intros w Hw. unfold run in *.
  destruct (Sound_fold es Sound_start) as [_ _ Hu]. now apply Hu.
Qed.

(** ** When windows are closed by the user only *)

Lemma Exact_same (n : nat) (g : World) (i : nat)
      (f : NativeWindow -> NativeWindow) :
  (forall w, Quiet w (f w) /\ _closed (f w) = _closed w) ->
  Exact n g -> Exact n (onWindow g i f).
Proof.
  intros Hf [Hc Hp]. unfold onWindow.
  destruct (nth_error (windows g) i) as [w|] eqn:Ei; [|now split].
  destruct (Hf (enter g w)) as [[Qc Qp _ _] Hk].
  pose proof (openCount_store i (f (enter g w)) (windows g) Ei) as Hs.
  unfold isOpen in Hs. rewrite Hk in Hs. simpl in Hs.
  assert (Hsame : openCount (store i (f (enter g w)) (windows g)) =
                  openCount (windows g)) by lia.
  split; unfold leave; cbn [Process._windowCount Process._pump windows];
    rewrite Hsame; [now rewrite Qc | now rewrite Qp].
Qed.

Lemma Exact_step (n : nat) (g : World) (e : event) :
  closesByProgram [e] = false -> Exact n g -> Exact (n + leaked g e) (step g e).
Proof.
  intros Hnc Hg.
  destruct e as [addon|i m|i script|i|i]; cbn [leaked step];
    rewrite ?Nat.add_0_r.
  - destruct Hg as [Hc Hp]. unfold new.
    assert (H1 : Z.to_nat (Process._windowCount g + 1 - Process._windowCount g) = 1)
      by lia.
    assert (H0 : Z.to_nat (Process._windowCount g - Process._windowCount g) = 0)
      by lia.
    assert (Ho : openCount (windows g ++ [construct (Process._windowCount g)]) =
                 openCount (windows g) + 1)
      by (rewrite openCount_app; reflexivity).
    destruct (Process._pump g) eqn:Ep, (init addon), (_NativeWindow addon);
      cbn [Win._pump Win._windowCount construct]; rewrite ?H1, ?H0;
      split; cbn [Process._windowCount Process._pump windows]; rewrite ?Ho;
      try lia; try (symmetry; apply Nat.ltb_lt; lia);
      rewrite Nat.add_0_r; exact Hp.
  - assert (Hm : m <> close).
    { intros ->. discriminate Hnc. }
    apply Exact_same; [|exact Hg]. intros w.
    split; [apply Quiet_invoke | now apply invoke_keeps_open].
  - apply Exact_same; [|exact Hg]. intros w.
    destruct (_unsafe w); [|split; [apply Quiet_refl | reflexivity]].
    split; [apply Quiet_evaluateJs|].
    unfold evaluateJs, bind, _ensureOpen.
    destruct (_closed w) eqn:E; simpl; exact E.
  - apply Exact_same; [|exact Hg]. intros w.
    split; [apply Quiet_onClose | reflexivity].
  - destruct Hg as [Hc Hp].
    unfold onWindow. destruct (nth_error (windows g) i) as [w|] eqn:Ei; [|now split].
    pose proof (openCount_store i (_handleClose (enter g w)) (windows g) Ei) as Hs.
    unfold _handleClose, isOpen in *. simpl in *.
    destruct (_closed w) eqn:E; simpl in *; rewrite ?E in Hs;
      match type of Hs with openCount ?l + _ = _ => remember l as l' end.
    + split; simpl; rewrite <- Heql'; [rewrite Hc | rewrite Hp]; f_equal; lia.
    + split; simpl; rewrite <- Heql'.
      * destruct (Process._windowCount g - 1 <=? 0)%Z eqn:El.
        -- apply Z.leb_le in El. lia.
        -- lia.
      * destruct (Process._windowCount g - 1 <=? 0)%Z eqn:El.
        -- apply Z.leb_le in El. symmetry. apply Nat.ltb_ge. lia.
        -- apply Z.leb_gt in El. rewrite Hp.
           transitivity true; [apply Nat.ltb_lt | symmetry; apply Nat.ltb_lt]; lia.
Qed.

Lemma Exact_fold (es : list event) (n : nat) (g : World) :
  closesByProgram es = false -> Exact n g ->
  Exact (n + lost g es) (fold_left step es g).
Proof.
  revert n g. induction es as [|e es IH]; intros n g Hnc Hg; cbn [lost fold_left].
  - now rewrite Nat.add_0_r.
  - unfold closesByProgram in Hnc. simpl in Hnc. apply orb_false_iff in Hnc.
    destruct Hnc as [He Hes].
    rewrite Nat.add_assoc. apply IH; [exact Hes|]. apply Exact_step; [|exact Hg].
    unfold closesByProgram. simpl. now rewrite He.
Qed.

(** Nothing is lost while [new _NativeWindow(options)] returns. *)
Lemma lost_none (es : list event) (g : World) :
  Forall (fun e => match e with
                   | New addon => _NativeWindow addon = Returns
                   | _ => True
                   end) es ->
  lost g es = 0.
Proof.
  revert g. induction es as [|e es IH]; intros g Hall; [reflexivity|].
  inversion Hall as [|? ? He Hes]; subst. cbn [lost]. rewrite (IH _ Hes).
  destruct e as [addon| | | |]; try reflexivity.
  cbn [leaked]. unfold new. rewrite He.
  destruct (Process._pump g), (init addon); cbn; rewrite ?Z.sub_diag; reflexivity.
Qed.

(** X17.  As long as the program never calls [close()], so that windows
    are closed by their close events only, [_windowCount] is the number of
    open windows plus the number of constructions in which
    [new _NativeWindow(options)] threw -- the constructor has counted the
    window by then, and nothing takes it off the count again -- and the pump
    runs exactly while that sum is positive.  So the pump is stopped when the
    last window is closed if no construction has failed in that way, and
    never again once one has. *)
Theorem count_and_pump_follow_the_open_windows (es : list event) :
  closesByProgram es = false ->
  Process._windowCount (run es) =
    Z.of_nat (length (openWindows (run es)) + lost start es) /\
  (Process._pump (run es) = true <->
   0 < length (openWindows (run es)) + lost start es) /\
  (Forall (fun e => match e with
                    | New addon => _NativeWindow addon = Returns
                    | _ => True
                    end) es ->
   lost start es = 0).
Proof.
  intros Hnc.
  assert (He : Exact 0 start) by (split; reflexivity).
  destruct (Exact_fold es Hnc He) as [Hc Hp]. cbn [Nat.add] in Hc, Hp.
  unfold run, openWindows. fold (openCount (windows (fold_left step es start))).
  split; [exact Hc|]. split; [|apply lost_none].
  rewrite Hp. apply Nat.ltb_lt.
Qed.

Lemma nth_error_store (A : Type) (i : nat) (x y : A) (l : list A) :
  nth_error l i = Some y -> nth_error (store i x l) i = Some x.
Proof.
  revert i. induction l as [|z l IH]; intros i H.
  - destruct i; discriminate H.
  - destruct i as [|i]; simpl in *; [reflexivity | now apply IH].
Qed.

Lemma map_store (A C : Type) (f : A -> C) (i : nat) (x y : A) (l : list A) :
  nth_error l i = Some y -> f x = f y -> map f (store i x l) = map f l.
Proof.
  revert i. induction l as [|z l IH]; intros i H E.
  - destruct i; discriminate H.
  - destruct i as [|i]; simpl in *.
    + inversion H; subst z. now rewrite E.
    + f_equal. now apply IH.
Qed.

(** [close()] sets the flag and nothing else of the books, and after it the
    handler of the close event does nothing. *)
Lemma close_then_event (w : NativeWindow) :
  _handleClose (snd (invoke close w)) = snd (invoke close w) /\
  Quiet w (snd (invoke close w)) /\
  _closed (snd (invoke close w)) = true.
Proof.
  split; [|split; [apply Quiet_invoke | apply WinFacts.closed_after_close]].
  unfold _handleClose. now rewrite WinFacts.closed_after_close.
Qed.

(** X18.  A window closed with [close()] is never taken off the books:
    [close()] sets the flag without touching the count, and the handler of
    the close event that follows returns at once because the flag is set.
    After [close()] and the close event the window is closed, while the
    count, the pump and the number of calls of every close callback are what
    they were before. *)
Theorem close_by_program_skips_the_bookkeeping (g : World) (i : nat) :
  let g' := step (step g (Invoke i close)) (CloseEvent i) in
  Process._windowCount g' = Process._windowCount g /\
  Process._pump g' = Process._pump g /\
  map userCloseCalls (windows g') = map userCloseCalls (windows g) /\
  (forall w, nth_error (windows g') i = Some w -> _closed w = true).
Proof.
  intros g'. subst g'.
  change (step (step g (Invoke i close)) (CloseEvent i))
    with (onWindow (onWindow g i (fun w => snd (invoke close w))) i _handleClose).
  destruct (nth_error (windows g) i) as [w|] eqn:Ei.
  - assert (H1 : onWindow g i (fun w => snd (invoke close w)) =
                 leave g i (snd (invoke close (enter g w)))).
    { unfold onWindow. now rewrite Ei. }
    rewrite H1. clear H1.
    destruct (close_then_event (enter g w)) as [Hh [[Qc Qp Qu _] Hcl]].
    remember (snd (invoke close (enter g w))) as w1 eqn:Ew1.
    unfold onWindow. cbn [leave windows].
    rewrite (nth_error_store i w1 _ Ei).
    assert (He : enter (leave g i w1) w1 = w1).
    { unfold enter, leave. simpl. now destruct w1. }
    rewrite He, Hh. unfold leave.
    cbn [Process._windowCount Process._pump windows].
    split; [exact Qc|]. split; [exact Qp|]. split.
    + rewrite (map_store userCloseCalls i w1 _ (nth_error_store i w1 _ Ei) eq_refl).
      apply (map_store userCloseCalls i w1 _ Ei). exact Qu.
    + intros x Hx.
      rewrite (nth_error_store i w1 _ (nth_error_store i w1 _ Ei)) in Hx.
      inversion Hx; subst x. exact Hcl.
  - assert (H1 : onWindow g i (fun w => snd (invoke close w)) = g).
    { unfold onWindow. now rewrite Ei. }
    rewrite H1. unfold onWindow. rewrite Ei.
    repeat split. intros w Hw. congruence.
Qed.

End ProcessFacts.
(* ===================================================================== *)
(** * Cookies and the channel on its window *)
(* ===================================================================== *)

Module CookieFacts.
Import Cookies.
Local Open Scope string_scope.

(** An item passes the checks exactly when its eight fields have their
    types; the cookie is then made of their values. *)
Lemma checked_spec (item : Js.value) (c : CookieInfo) :
  checked item = Some c <->
  Js.get "name" item = Js.VStr (name c) /\
  Js.get "value" item = Js.VStr (value c) /\
  Js.get "domain" item = Js.VStr (domain c) /\
  Js.get "path" item = Js.VStr (path c) /\
  Js.get "httpOnly" item = Js.VBool (httpOnly c) /\
  Js.get "secure" item = Js.VBool (secure c) /\
  Js.get "sameSite" item = Js.VStr (sameSite c) /\
  Js.get "expires" item = Js.VNum (expires c).
Proof.
  unfold checked. split.
  - destruct (Js.is_object item); simpl; [|discriminate].
    destruct (Js.get "name" item); try discriminate.
    destruct (Js.get "value" item); try discriminate.
    destruct (Js.get "domain" item); try discriminate.
    destruct (Js.get "path" item); try discriminate.
    destruct (Js.get "httpOnly" item); try discriminate.
    destruct (Js.get "secure" item); try discriminate.
    destruct (Js.get "sameSite" item); try discriminate.
    destruct (Js.get "expires" item); try discriminate.
    intros H. inversion H; subst c. simpl. repeat split; reflexivity.
  - intros [H1 [H2 [H3 [H4 [H5 [H6 [H7 H8]]]]]]].
    assert (Ho : Js.is_object item = true).
    { destruct item; try reflexivity; discriminate H1. }
    rewrite Ho, H1, H2, H3, H4, H5, H6, H7, H8. simpl. now destruct c.
Qed.

Lemma checked_asItem (c : CookieInfo) : checked (asItem c) = Some c.
Proof.
  apply checked_spec. repeat split; reflexivity.
Qed.



Lemma collect_app (a b : list Js.value) :
  collect (a ++ b) = (collect a ++ collect b)%list.
Proof.
  induction a as [|item rest IH]; simpl; [reflexivity|].
  destruct (checked item); simpl; now rewrite IH.
Qed.

Lemma collect_asItem (cs : list CookieInfo) : collect (map asItem cs) = cs.
Proof.
  induction cs as [|c cs IH]; [reflexivity|].
  cbn [map collect]. now rewrite checked_asItem, IH.
Qed.

Lemma collect_junk (junk : list Js.value) :
  Forall (fun item => checked item = None) junk -> collect junk = [].
Proof.
  intros Hjunk. induction Hjunk as [|item rest Hitem _ IH]; simpl; [reflexivity|].
  now rewrite Hitem.
Qed.

Section WithBuiltins.
Context {B : Builtins}.


(** X20.  A reply that lists well-formed cookies resolves the promise
    with exactly those cookies, in the order of the reply; an item that
    fails a check is left out and does not disturb the others. *)
Theorem well_formed_cookies_round_trip
        (raw : string) (before after : list CookieInfo) (junk : list Js.value) :
  Forall (fun item => checked item = None) junk ->
  JSON_parse raw = Some (Js.VArr (map asItem before ++ junk ++ map asItem after)) ->
  onCookies raw = Resolved (before ++ after).
Proof.
  intros Hjunk Hp. unfold onCookies, _validateCookies. rewrite Hp.
  now rewrite !collect_app, !collect_asItem, (collect_junk Hjunk).
Qed.

End WithBuiltins.

End CookieFacts.

Module HostFacts.
Import Js Ipc.
Import Win (NativeWindow, WindowIsClosed, NativeCall, nativeCalls, construct).
Local Open Scope string_scope.

Section WithBuiltins.
Context {B : Builtins}.

(** X21.  [createWindow] fails exactly where [require] or the constructor
    of the window throws; no channel is made then and nothing is registered,
    and where it was [new _NativeWindow(options)] that threw, the window
    count stays raised by one.  Otherwise, on the new window, after the
    close handler that the constructor registers, it registers the message
    callback, injects the client if the channel injects at creation, and
    registers the page-load callback when [injectClient] is on, in this
    order and nothing else; it returns the channel with the window open,
    and [send] then hands the window the one encoded envelope. *)
Theorem createWindow_wires_the_channel
        (required : Win.Outcome) (addon : Win.Addon) (pump : bool)
        (windowCount : Z) (opts : ChannelOptions) (random36 : string) :
  let created := Ipc.createChannel opts random36 in
  let result := Host.createWindow required addon pump windowCount opts random36 in
  let initialized := pump = true \/ Win.init addon = Win.Returns in
  (required = Win.Returns -> initialized ->
   Win._NativeWindow addon = Win.Returns ->
   exists w,
     result = Host.Wired (inr (fst created)) w /\
     nativeCalls w =
       ([Win.NOnClose; Win.NOnMessage] ++
        map Win.NEvaluateJs (evaluated (snd created)) ++
        (if injectClientOn opts then [Win.NOnPageLoad] else []))%list /\
     Win._closed w = false /\
     Win._windowCount w = (windowCount + 1)%Z /\
     Win._pump w = true /\
     forall type payload,
       fst (Host.send (fst created) type payload w) = inr tt /\
       nativeCalls (snd (Host.send (fst created) type payload w)) =
         (nativeCalls w ++
          [Win.NPostMessage (encode (prefixCh (fst created) type) payload)])%list) /\
  (required = Win.Throws -> result = Host.NotLoaded) /\
  (required = Win.Returns -> pump = false -> Win.init addon = Win.Throws ->
   result = Host.NotConstructed false windowCount) /\
  (required = Win.Returns -> initialized ->
   Win._NativeWindow addon = Win.Throws ->
   result = Host.NotConstructed true (windowCount + 1)%Z).
Proof.
  intros created result initialized. subst created result initialized.
  unfold Host.createWindow, Win.new.
  split; [|split; [|split]].
  - intros -> Hinit ->.
    assert (E : match pump, Win.init addon with
                | false, Win.Throws => Win.Failed false windowCount
                | _, _ => Win.Built (construct windowCount)
                end = Win.Built (construct windowCount)).
    { destruct Hinit as [-> | ->]; [reflexivity | now destruct pump]. }
    rewrite E. clear E.
    unfold Host.createChannel, Ipc.createChannel. simpl.
    destruct (injectClientOn opts); [destruct (originsEnforced _)|];
      eexists; repeat split; reflexivity.
  - now intros ->.
  - now intros -> -> ->.
  - intros -> Hinit ->. destruct Hinit as [-> | ->]; [reflexivity | now destruct pump].
Qed.

(** X22.  A channel is of no use on a closed window: [createChannel]
    throws [Window is closed] before it registers anything, [send] throws
    instead of posting, and a page load that would inject the client throws
    instead; the window is left as it was. *)
Theorem channel_needs_an_open_window
        (w : NativeWindow) (opts : ChannelOptions) (random36 : string)
        (ch : Channel) (type : string) (payload : value) :
  Win._closed w = true ->
  Host.createChannel opts random36 w = (inl WindowIsClosed, w) /\
  Host.send ch type payload w = (inl WindowIsClosed, w) /\
  (forall event url,
     Ipc.onPageLoad ch event url <> [] ->
     Host.pageLoaded ch event url w = (inl WindowIsClosed, w)).
Proof.
  intros Hc. split; [|split].
  - unfold Host.createChannel.
    destruct (Ipc.createChannel opts random36) as [c es].
    unfold Win.invoke, Win.simply, Win.bind, Win._ensureOpen.
    now rewrite Hc.
  - unfold Host.send, Ipc.send. simpl.
    unfold Win.invoke, Win.simply, Win.bind, Win._ensureOpen.
    now rewrite Hc.
  - intros event url Hne. unfold Host.pageLoaded.
    unfold Ipc.onPageLoad in *.
    destruct (injectClientOn _); [|contradiction].
    destruct event; [contradiction|].
    destruct (_ && _); [contradiction|].
    simpl. unfold Win.invoke, Win.bind, Win._ensureOpen.
    now rewrite Hc.
Qed.

End WithBuiltins.

End HostFacts.
(* ===================================================================== *)
(** * sanitizeForJs: one pass, and the value of its output *)
(* ===================================================================== *)

Module EscapeFacts.
Import San SanFacts Escapes.
Local Open Scope N_scope.

(** ** Passes *)

Lemma flat_map_pass (f : N -> jsstring) (ch : N -> jsstring -> jsstring)
      (s : jsstring) :
  flat_map f (pass ch s) = pass (fun c rest => flat_map f (ch c rest)) s.
Proof.
  induction s as [|c s IH]; [reflexivity|].
  cbn [pass]. now rewrite flat_map_app, IH.
Qed.

Lemma pass_ext (f h : N -> jsstring -> jsstring) (s : jsstring) :
  (forall c rest, f c rest = h c rest) -> pass f s = pass h s.
Proof.
  intros E. induction s as [|c s IH]; [reflexivity|].
  cbn [pass]. now rewrite E, IH.
Qed.

Lemma flat_map_as_pass (f : N -> jsstring) (s : jsstring) :
  flat_map f s = pass (fun c _ => f c) s.
Proof.
  induction s as [|c s IH]; [reflexivity|]. cbn [flat_map pass]. now rewrite IH.
Qed.

(** ** The first four calls: backslashes and quotes *)

Lemma quotes_escaped (input : jsstring) :
  replace g [backtick] [backslash; backtick]
    (replace g [dquote] [backslash; dquote]
       (replace g [quote] [backslash; quote]
          (replace g [backslash] [backslash; backslash] input))) =
  pass (fun c _ => quoted c) input.
Proof.
  rewrite !replace_single, (flat_map_as_pass _ input), !flat_map_pass.
  apply pass_ext. intros c _. unfold quoted, isQuote.
  cbn [flat_map app].
  destruct (N.eqb_spec backslash c) as [<-|H1]; [reflexivity|].
  cbn [flat_map app].
  destruct (N.eqb_spec quote c) as [<-|H2]; [reflexivity|].
  cbn [flat_map app].
  destruct (N.eqb_spec dquote c) as [<-|H3]; [reflexivity|].
  cbn [flat_map app].
  destruct (N.eqb_spec backtick c) as [<-|H4]; [reflexivity|].
  destruct (N.eqb_spec c backslash); [congruence|].
  destruct (N.eqb_spec c quote); [congruence|].
  destruct (N.eqb_spec c dquote); [congruence|].
  destruct (N.eqb_spec c backtick); [congruence|].
  reflexivity.
Qed.

(** ** The fifth call: substitutions *)

(** The text for a character starts with the character or a backslash. *)
Lemma quoted_head (c : N) :
  quoted c = [c] \/ exists t, quoted c = backslash :: t.
Proof.
  unfold quoted. destruct (N.eqb c backslash); [right; eauto|].
  destruct (isQuote c); [right; eauto | now left].
Qed.

Lemma dollar_before_quoted (rest : jsstring) :
  matchesAt g substitution (dollar :: pass (fun c _ => quoted c) rest) =
  match rest with
  | d :: _ => N.eqb d lbrace
  | [] => false
  end.
Proof.
  destruct rest as [|d rest]; [reflexivity|].
  cbn [pass]. unfold quoted.
  destruct (N.eqb_spec d backslash) as [->|H1]; [reflexivity|].
  unfold isQuote.
  destruct (N.eqb_spec d quote) as [->|H2]; [reflexivity|].
  destruct (N.eqb_spec d dquote) as [->|H3]; [reflexivity|].
  destruct (N.eqb_spec d backtick) as [->|H4]; [reflexivity|].
  cbn [orb app substitution matchesAt sameChar g].
  rewrite N.eqb_refl, andb_true_r. cbn [andb]. apply N.eqb_sym.
Qed.

Lemma substitutions_escaped (s : jsstring) :
  replace g substitution substitutionEscaped (pass (fun c _ => quoted c) s) =
  pass quotedOrOpening s.
Proof.
  remember (length s) as n eqn:En.
  revert s En. induction n as [n IH] using lt_wf_ind. intros s En.
  destruct s as [|c rest]; [reflexivity|].
  assert (IHrest : replace g substitution substitutionEscaped
                     (pass (fun c _ => quoted c) rest) = pass quotedOrOpening rest).
  { apply (IH (length rest)); [subst n; simpl; lia | reflexivity]. }
  cbn [pass]. unfold quotedOrOpening at 1, opensSubstitution.
  destruct (N.eqb_spec c dollar) as [->|Hd].
  - cbn [andb]. change (quoted dollar) with [dollar]. cbn [app].
    destruct rest as [|d rest'].
    + reflexivity.
    + destruct (N.eqb_spec d lbrace) as [->|Hl].
      * rewrite replace_match
          by (rewrite dollar_before_quoted; apply N.eqb_refl).
        change (pass (fun c _ => quoted c) (lbrace :: rest'))
          with (lbrace :: pass (fun c _ => quoted c) rest').
        cbn [substitution length Nat.sub skipn].
        rewrite (IH (length rest'))
          by (subst n; simpl; lia || reflexivity).
        reflexivity.
      * rewrite replace_nomatch.
        -- now rewrite IHrest.
        -- rewrite dollar_before_quoted. now apply N.eqb_neq.
  - cbn [andb].
    assert (Hno : forall t, matchesAt g substitution (c :: t) = false).
    { intros t. cbn [substitution matchesAt sameChar g].
      destruct (N.eqb_spec dollar c); [congruence | reflexivity]. }
    destruct (N.eqb_spec c backslash) as [->|H1].
    + change (quoted backslash) with [backslash; backslash]. cbn [app].
      rewrite replace_nomatch by reflexivity.
      rewrite replace_nomatch by reflexivity. now rewrite IHrest.
    + apply N.eqb_neq in H1. destruct (isQuote c) eqn:Eq.
      * assert (Hq : quoted c = [backslash; c])
          by (unfold quoted; now rewrite H1, Eq).
        rewrite Hq. cbn [app]. rewrite replace_nomatch by reflexivity.
        rewrite replace_nomatch by apply Hno. now rewrite IHrest.
      * assert (Hq : quoted c = [c]) by (unfold quoted; now rewrite H1, Eq).
        rewrite Hq. cbn [app]. rewrite replace_nomatch by apply Hno.
        now rewrite IHrest.
Qed.

(** ** The next five calls: line breaks, NUL and the separators *)

Lemma controls_escaped (s : jsstring) :
  replace g [PS] [backslash; 117; 50; 48; 50; 57]
    (replace g [LS] [backslash; 117; 50; 48; 50; 56]
       (replace g [NUL] [backslash; 48]
          (replace g [CR] [backslash; 114]
             (replace g [LF] [backslash; 110] (pass quotedOrOpening s))))) =
  pass escapeChar s.
Proof.
  rewrite !replace_single, !flat_map_pass.
  apply pass_ext. intros c rest.
  destruct (N.eqb_spec c backslash) as [->|H1]; [reflexivity|].
  destruct (N.eqb_spec c quote) as [->|H2]; [reflexivity|].
  destruct (N.eqb_spec c dquote) as [->|H3]; [reflexivity|].
  destruct (N.eqb_spec c backtick) as [->|H4]; [reflexivity|].
  destruct (N.eqb_spec c dollar) as [->|H5].
  { destruct rest as [|d r]; [reflexivity|].
    unfold escapeChar, quotedOrOpening, opensSubstitution. cbn [N.eqb andb isQuote orb].
    change (dollar =? dollar) with true. cbn [andb].
    destruct (d =? lbrace); reflexivity. }
  destruct (N.eqb_spec c LF) as [->|H6]; [reflexivity|].
  destruct (N.eqb_spec c CR) as [->|H7]; [reflexivity|].
  destruct (N.eqb_spec c NUL) as [->|H8]; [reflexivity|].
  destruct (N.eqb_spec c LS) as [->|H9]; [reflexivity|].
  destruct (N.eqb_spec c PS) as [->|H10]; [reflexivity|].
  assert (Hq : quotedOrOpening c rest = [c]).
  { unfold quotedOrOpening, opensSubstitution, quoted, isQuote.
    apply N.eqb_neq in H1, H2, H3, H4, H5. now rewrite H1, H2, H3, H4, H5. }
  assert (He : escapeChar c rest = [c]).
  { unfold escapeChar, opensSubstitution, isQuote.
    apply N.eqb_neq in H1, H2, H3, H4, H5, H6, H7, H8, H9, H10.
    now rewrite H1, H2, H3, H4, H5, H6, H7, H8, H9, H10. }
  rewrite Hq, He. cbn [flat_map app].
  destruct (N.eqb_spec LF c); [congruence|]. cbn [flat_map app].
  destruct (N.eqb_spec CR c); [congruence|]. cbn [flat_map app].
  destruct (N.eqb_spec NUL c); [congruence|]. cbn [flat_map app].
  destruct (N.eqb_spec LS c); [congruence|]. cbn [flat_map app].
  destruct (N.eqb_spec PS c); [congruence|]. reflexivity.
Qed.

(** ** The last call: the closing tag *)

Ltac no_lt :=
  let x := fresh "x" in
  let Hx := fresh "Hx" in
  intros x Hx; simpl in Hx;
  repeat (destruct Hx as [<-|Hx]; [reflexivity|]); destruct Hx.

Lemma escapeChar_head (c : N) (rest : jsstring) :
  escapeChar c rest = [c] \/
  exists t, escapeChar c rest = backslash :: t /\
            forall x, In x (backslash :: t) -> sameChar gi 60 x = false.
Proof.
  unfold escapeChar.
  destruct (N.eqb c backslash); [right; eexists; split; [reflexivity | no_lt]|].
  unfold isQuote.
  destruct (N.eqb_spec c quote) as [->|H2];
    [right; eexists; split; [reflexivity | no_lt]|].
  destruct (N.eqb_spec c dquote) as [->|H3];
    [right; eexists; split; [reflexivity | no_lt]|].
  destruct (N.eqb_spec c backtick) as [->|H4];
    [right; eexists; split; [reflexivity | no_lt]|].
  cbn [orb].
  destruct (opensSubstitution c rest);
    [right; eexists; split; [reflexivity | no_lt]|].
  destruct (N.eqb c LF); [right; eexists; split; [reflexivity | no_lt]|].
  destruct (N.eqb c CR); [right; eexists; split; [reflexivity | no_lt]|].
  destruct (N.eqb c NUL); [right; eexists; split; [reflexivity | no_lt]|].
  destruct (N.eqb c LS); [right; eexists; split; [reflexivity | no_lt]|].
  destruct (N.eqb c PS); [right; eexists; split; [reflexivity | no_lt]|].
  now left.
Qed.

(** A character that stands for a character of the tag is escaped by no
    rule. *)
Lemma variant_unescaped (p c : N) (rest : jsstring) :
  In p closing -> sameChar gi p c = true -> escapeChar c rest = [c].
Proof.
  intros Hp H. destruct (@plain_variant p c Hp H) as [Hb Hs].
  specialize (Hs rest). unfold sensitive in Hs. apply orb_false_iff in Hs.
  destruct Hs as [Hq Ho].
  assert (Hc : c <> LF /\ c <> CR /\ c <> NUL /\ c <> LS /\ c <> PS).
  { repeat split; intros ->; vm_compute in Hp;
      repeat (destruct Hp as [<-|Hp]; [vm_compute in H; discriminate H|]);
      exact Hp. }
  destruct Hc as [H1 [H2 [H3 [H4 H5]]]].
  apply N.eqb_neq in H1, H2, H3, H4, H5.
  unfold escapeChar. now rewrite Hb, Hq, Ho, H1, H2, H3, H4, H5.
Qed.

Lemma no_tag_backslash (p : N) : In p closing -> sameChar gi p backslash = false.
Proof.
  intros Hp. vm_compute in Hp.
  repeat (destruct Hp as [<-|Hp]; [reflexivity|]). destruct Hp.
Qed.

(** Where the tag matches is not changed by the first ten calls. *)
Lemma matchesAt_pass (pat : jsstring) :
  (forall p, In p pat -> In p closing) ->
  forall s, matchesAt gi pat (pass escapeChar s) = matchesAt gi pat s.
Proof.
  induction pat as [|p pat IH]; intros Hpat s; [reflexivity|].
  destruct s as [|c rest]; [reflexivity|].
  assert (Hp : In p closing) by (apply Hpat; now left).
  cbn [pass]. destruct (sameChar gi p c) eqn:E.
  - rewrite (@variant_unescaped p c rest Hp E). cbn [app matchesAt].
    rewrite E, IH; [reflexivity|]. intros q Hq. apply Hpat. now right.
  - cbn [matchesAt]. rewrite E. cbn [andb].
    destruct (escapeChar_head c rest) as [-> | [t [-> _]]]; cbn [app matchesAt].
    + now rewrite E.
    + now rewrite (@no_tag_backslash p Hp).
Qed.

Lemma pass_over_match (pat : jsstring) :
  (forall p, In p pat -> In p closing) ->
  forall s,
    matchesAt gi pat s = true ->
    pass escapeChar s =
    (firstn (length pat) s ++ pass escapeChar (skipn (length pat) s))%list.
Proof.
  induction pat as [|p pat IH]; intros Hpat s H; [reflexivity|].
  destruct s as [|c rest]; [discriminate H|].
  cbn [matchesAt] in H. apply andb_prop in H. destruct H as [Hc H].
  cbn [pass length firstn skipn app].
  rewrite (@variant_unescaped p c rest (Hpat p (or_introl eq_refl)) Hc).
  cbn [app]. f_equal. apply IH; [|exact H].
  intros q Hq. apply Hpat. now right.
Qed.

Lemma matchesAt_length (ic : bool) (pat s : jsstring) :
  matchesAt ic pat s = true -> (length pat <= length s)%nat.
Proof.
  revert s. induction pat as [|p pat IH]; intros s H; [simpl; lia|].
  destruct s as [|c s]; [discriminate H|].
  cbn [matchesAt] in H. apply andb_prop in H. destruct H as [_ H].
  specialize (IH s H). simpl. lia.
Qed.

(** A text without [<] is copied by the last call. *)
Lemma replace_closing_prefix (q rest : jsstring) :
  (forall x, In x q -> sameChar gi 60 x = false) ->
  replace gi closing closingEscaped (q ++ rest) =
  (q ++ replace gi closing closingEscaped rest)%list.
Proof.
  induction q as [|x q IH]; intros Hq; [reflexivity|].
  cbn [app]. rewrite replace_nomatch.
  - rewrite IH; [reflexivity|]. intros y Hy. apply Hq. now right.
  - change closing with (60 :: str "/script>"). cbn [matchesAt].
    now rewrite (Hq x (or_introl eq_refl)).
Qed.

Lemma onePass_skip (k : nat) (s : jsstring) :
  onePass k s = onePass 0 (skipn k s).
Proof.
  revert k. induction s as [|c s IH]; intros k.
  - destruct k; reflexivity.
  - destruct k as [|k]; [reflexivity|]. cbn [onePass skipn]. apply IH.
Qed.

Lemma tag_escaped (s : jsstring) :
  replace gi closing closingEscaped (pass escapeChar s) = onePass 0 s.
Proof.
  remember (length s) as n eqn:En.
  revert s En. induction n as [n IH] using lt_wf_ind. intros s En.
  destruct s as [|c rest]; [reflexivity|].
  cbn [onePass]. destruct (matchesAt gi closing (c :: rest)) eqn:E.
  - pose proof (@matchesAt_length _ _ _ E) as Hlen.
    change (length closing) with 9%nat in Hlen. cbn [length] in Hlen.
    assert (Hw : length (firstn 8 rest) = 8%nat) by (rewrite length_firstn; lia).
    assert (Hpass : pass escapeChar (c :: rest) =
                    c :: (firstn 8 rest ++ pass escapeChar (skipn 8 rest))%list).
    { rewrite (@pass_over_match closing (fun p H => H) (c :: rest) E).
      change (length closing) with 9%nat. now rewrite firstn_cons, skipn_cons. }
    rewrite Hpass, replace_match.
    + change (length closing - 1)%nat with 8%nat.
      rewrite skipn_app, Hw, Nat.sub_diag, skipn_all2 by lia.
      cbn [skipn app]. rewrite onePass_skip. f_equal.
      apply (IH (length (skipn 8 rest))); [|reflexivity].
      subst n. rewrite length_skipn. simpl. lia.
    + rewrite <- Hpass. now rewrite matchesAt_pass.
  - cbn [pass].
    assert (IHrest : replace gi closing closingEscaped (pass escapeChar rest) =
                     onePass 0 rest).
    { apply (IH (length rest)); [subst n; simpl; lia | reflexivity]. }
    destruct (escapeChar_head c rest) as [-> | [t [-> Ht]]].
    + cbn [app]. rewrite replace_nomatch; [now rewrite IHrest|].
      change closing with (60 :: str "/script>") in *. cbn [matchesAt] in *.
      rewrite matchesAt_pass; [exact E|].
      intros p Hp. now right.
    + rewrite replace_closing_prefix by exact Ht. now rewrite IHrest.
Qed.

(** ** The eleven calls are one pass *)

Lemma chain_is_onePass (input : jsstring) :
  sanitizeForJs input = onePass 0 input.
Proof.
  change (sanitizeForJs input) with
    (replace gi closing closingEscaped
       (replace g [PS] [backslash; 117; 50; 48; 50; 57]
          (replace g [LS] [backslash; 117; 50; 48; 50; 56]
             (replace g [NUL] [backslash; 48]
                (replace g [CR] [backslash; 114]
                   (replace g [LF] [backslash; 110]
                      (replace g substitution substitutionEscaped
                         (replace g [backtick] [backslash; backtick]
                            (replace g [dquote] [backslash; dquote]
                               (replace g [quote] [backslash; quote]
                                  (replace g [backslash] [backslash; backslash]
                                           input))))))))))).
  now rewrite quotes_escaped, substitutions_escaped, controls_escaped, tag_escaped.
Qed.

(** X23.  The eleven chained [replace] calls of [sanitizeForJs] amount to
    one pass from left to right over the input: where a case variant of
    the closing script tag starts, the escaped tag is written in lower case
    and the variant passed over; any other character is written with its
    own escape (a doubled backslash, a backslash before a quote of any kind
    and before the [$] of [${], the escapes of LF, CR, NUL, U+2028 and
    U+2029), or as it is.  No call undoes or doubles the work of another. *)
Theorem sanitizeForJs_is_one_pass (input : jsstring) :
  sanitizeForJs input = onePass 0 input.
Proof.
  exact (chain_is_onePass input).
Qed.

(** ** The value of the output *)

(** The output of the pass starts with the first character of the input or
    with a backslash. *)
Lemma onePass_head (d : N) (rest : jsstring) :
  exists t, onePass 0 (d :: rest) = d :: t \/ onePass 0 (d :: rest) = backslash :: t.
Proof.
  cbn [onePass]. destruct (matchesAt gi closing (d :: rest)) eqn:E.
  - change closing with (60 :: str "/script>") in E. cbn [matchesAt] in E.
    apply andb_prop in E. destruct E as [E _]. apply sameChar_lt in E. subst d.
    eexists. left. reflexivity.
  - destruct (escapeChar_head d rest) as [-> | [t [-> _]]]; eexists;
      [left | right]; reflexivity.
Qed.

Lemma unescape_closingEscaped (rest : jsstring) :
  unescape (closingEscaped ++ rest) = option_map (app closing) (unescape rest).
Proof.
  change closingEscaped with [60; 92; 47; 115; 99; 114; 105; 112; 116; 62].
  change closing with [60; 47; 115; 99; 114; 105; 112; 116; 62].
  simpl. destruct (unescape rest); reflexivity.
Qed.

(** Reading back what one character was escaped to gives the character,
    unless a digit stands behind an escaped NUL. *)
Lemma unescape_escapeChar (c : N) (rest after : jsstring) :
  (N.eqb c NUL = true ->
   match after with d :: _ => isDecimalDigit d | [] => false end = false) ->
  (opensSubstitution c rest = false -> opensSubstitution c after = false) ->
  unescape (escapeChar c rest ++ after) = option_map (cons c) (unescape after).
Proof.
  intros Hnul Hopen. unfold escapeChar.
  destruct (N.eqb_spec c backslash) as [->|H1]; [reflexivity|].
  unfold isQuote.
  destruct (N.eqb_spec c quote) as [->|H2]; [reflexivity|].
  destruct (N.eqb_spec c dquote) as [->|H3]; [reflexivity|].
  destruct (N.eqb_spec c backtick) as [->|H4]; [reflexivity|].
  cbn [orb].
  destruct (opensSubstitution c rest) eqn:Eo.
  { unfold opensSubstitution in Eo. apply andb_prop in Eo. destruct Eo as [Eo _].
    apply N.eqb_eq in Eo. subst c. reflexivity. }
  destruct (N.eqb_spec c LF) as [->|H6]; [reflexivity|].
  destruct (N.eqb_spec c CR) as [->|H7]; [reflexivity|].
  destruct (N.eqb_spec c NUL) as [->|H8].
  { specialize (Hnul eq_refl). cbn [app unescape].
    change (backslash =? backslash) with true. cbv iota.
    change (48 =? 117) with false. change (48 =? 120) with false.
    change (isDecimalDigit 48) with true. change (48 =? 48) with true.
    cbv iota. rewrite Hnul. reflexivity. }
  destruct (N.eqb_spec c LS) as [->|H9]; [reflexivity|].
  destruct (N.eqb_spec c PS) as [->|H10]; [reflexivity|].
  cbn [app unescape].
  apply N.eqb_neq in H1, H2, H3, H4, H6, H7, H9, H10.
  unfold lineTerminator, isQuote.
  now rewrite H1, H2, H3, H4, H6, H7, H9, H10, (Hopen eq_refl).
Qed.

Lemma nulBeforeDigit_tail (c : N) (rest : jsstring) :
  nulBeforeDigit (c :: rest) = false -> nulBeforeDigit rest = false.
Proof.
  cbn [nulBeforeDigit]. intros H. now apply orb_false_iff in H.
Qed.

Lemma nulBeforeDigit_skipn (k : nat) (s : jsstring) :
  nulBeforeDigit s = false -> nulBeforeDigit (skipn k s) = false.
Proof.
  revert s. induction k as [|k IH]; intros s H; [exact H|].
  destruct s as [|c s]; [reflexivity|].
  cbn [skipn]. apply IH. exact (nulBeforeDigit_tail _ _ H).
Qed.

Lemma unescape_onePass (s : jsstring) :
  nulBeforeDigit s = false ->
  unescape (onePass 0 s) = Some (replace gi closing closing s).
Proof.
  remember (length s) as n eqn:En.
  revert s En. induction n as [n IH] using lt_wf_ind. intros s En Hnul.
  destruct s as [|c rest]; [reflexivity|].
  cbn [onePass]. destruct (matchesAt gi closing (c :: rest)) eqn:E.
  - pose proof (@matchesAt_length _ _ _ E) as Hlen.
    change (length closing) with 9%nat in Hlen. cbn [length] in Hlen.
    rewrite replace_match by exact E.
    change (length closing - 1)%nat with 8%nat.
    rewrite onePass_skip, unescape_closingEscaped.
    rewrite (IH (length (skipn 8 rest))); [reflexivity | | reflexivity |].
    + subst n. rewrite length_skipn. simpl. lia.
    + apply nulBeforeDigit_skipn. exact (nulBeforeDigit_tail _ _ Hnul).
  - rewrite replace_nomatch by exact E.
    assert (IHrest : unescape (onePass 0 rest) =
                     Some (replace gi closing closing rest)).
    { apply (IH (length rest)); [subst n; simpl; lia | reflexivity|].
      exact (nulBeforeDigit_tail _ _ Hnul). }
    rewrite unescape_escapeChar, IHrest; [reflexivity | |].
    + intros Hc. cbn [nulBeforeDigit] in Hnul. rewrite Hc in Hnul.
      apply orb_false_iff in Hnul. destruct Hnul as [Hd _].
      destruct rest as [|d rest']; [reflexivity|].
      cbn [andb] in Hd.
      destruct (onePass_head d rest') as [t [-> | ->]]; [exact Hd | reflexivity].
    + unfold opensSubstitution. destruct (N.eqb c dollar); [|reflexivity].
      cbn [andb]. destruct rest as [|d rest']; [reflexivity|].
      intros Hd.
      destruct (onePass_head d rest') as [t [-> | ->]]; [exact Hd | reflexivity].
Qed.

(** X24.  Read as the body of a string literal in single or double quotes
    or of a template literal, the output of [sanitizeForJs] stands for the
    input again, but for one thing: every case variant of the closing
    script tag in the input comes back in lower case.  This holds for every
    input in which no NUL stands directly before a decimal digit (there the
    escape of NUL and the digit read as an octal escape, which strict code
    and templates refuse). *)
Theorem output_stands_for_the_input (input : jsstring) :
  nulBeforeDigit input = false ->
  unescape (sanitizeForJs input) = Some (replace gi closing closing input).
Proof.
  intros Hnul. rewrite chain_is_onePass. now apply unescape_onePass.
Qed.

(** ** Strings with nothing to escape *)

Lemma escapeChar_clean (c : N) (rest : jsstring) :
  special c || opensSubstitution c rest = false -> escapeChar c rest = [c].
Proof.
  intros H. apply orb_false_iff in H. destruct H as [Hs Ho].
  unfold special in Hs.
  repeat (apply orb_false_iff in Hs; destruct Hs as [Hs ?]).
  unfold escapeChar.
  repeat match goal with H : _ = false |- _ => rewrite H; clear H end.
  reflexivity.
Qed.

Lemma escapeChar_longer (c : N) (rest : jsstring) :
  special c || opensSubstitution c rest = true ->
  (2 <= length (escapeChar c rest))%nat.
Proof.
  intros H. unfold escapeChar.
  repeat match goal with
         | |- context [if ?b then _ else _] => destruct b eqn:?; [simpl; lia|]
         end.
  unfold special in H.
  repeat match goal with H : _ = false |- _ => rewrite H in *; clear H end.
  discriminate H.
Qed.

Lemma length_onePass (s : jsstring) :
  (length s <= length (onePass 0 s))%nat /\
  (clean s = false -> (length s < length (onePass 0 s))%nat).
Proof.
  remember (length s) as n eqn:En.
  revert s En. induction n as [n IH] using lt_wf_ind. intros s En.
  destruct s as [|c rest]; [subst n; split; [simpl; lia | discriminate]|].
  cbn [onePass clean]. destruct (matchesAt gi closing (c :: rest)) eqn:E.
  - pose proof (@matchesAt_length _ _ _ E) as Hlen.
    change (length closing) with 9%nat in Hlen. cbn [length] in Hlen.
    change (length closing - 1)%nat with 8%nat.
    rewrite onePass_skip, length_app.
    destruct (IH (length (skipn 8 rest))) with (s := skipn 8 rest) as [Hle _];
      [subst n; rewrite length_skipn; simpl; lia | reflexivity |].
    rewrite length_skipn in Hle. subst n.
    change (length closingEscaped) with 10%nat. cbn [length].
    split; [lia | intros _; lia].
  - destruct (IH (length rest)) with (s := rest) as [Hle Hlt];
      [subst n; simpl; lia | reflexivity |].
    rewrite length_app. subst n. cbn [length].
    destruct (special c || opensSubstitution c rest) eqn:Es.
    + pose proof (escapeChar_longer c rest Es). split; [lia | intros _; lia].
    + rewrite (escapeChar_clean c rest Es). cbn [length].
      apply orb_false_iff in Es. destruct Es as [-> ->]. cbn [negb andb].
      split; [lia|]. intros Hc. specialize (Hlt Hc). lia.
Qed.

(** X25.  [sanitizeForJs] never shortens a string, and it returns its input
    unchanged exactly when there is nothing to escape in it: no backslash,
    quote of any kind, LF, CR, NUL, U+2028 or U+2029, no [${], and no case
    variant of the closing script tag. *)
Theorem unchanged_iff_nothing_to_escape (input : jsstring) :
  (length input <= length (sanitizeForJs input))%nat /\
  (sanitizeForJs input = input <-> clean input = true).
Proof.
  rewrite chain_is_onePass. split; [apply length_onePass|]. split.
  - intros E. destruct (clean input) eqn:Ec; [reflexivity|].
    destruct (length_onePass input) as [_ Hlt]. specialize (Hlt Ec).
    rewrite E in Hlt. lia.
  - induction input as [|c rest IH]; [reflexivity|].
    cbn [clean onePass]. intros H.
    apply andb_prop in H. destruct H as [H Hrest].
    apply andb_prop in H. destruct H as [H Hm].
    apply andb_prop in H. destruct H as [Hs Ho].
    apply negb_true_iff in Hs, Ho, Hm. rewrite Hm.
    rewrite escapeChar_clean by (now rewrite Hs, Ho).
    cbn [app]. now rewrite IH.
Qed.

End EscapeFacts.
(* ===================================================================== *)
(** * The bundled client *)
(* ===================================================================== *)

Module ClientFacts.
Import Js.
Local Open Scope string_scope.

Section WithBuiltins.
Context {B : Builtins}.

(** Host and client read envelopes alike, the client under the default cap. *)
Lemma decode_agrees (raw : string) : Client.decode raw = Ipc.decode raw None.
Proof.
  unfold Client.decode, Ipc.decode, Ipc.isEnvelope, Ipc.MAX_MESSAGE_SIZE.
  now rewrite JsFacts.int_gt_ofZ, Z.gtb_ltb.
Qed.

Lemma forward_forwards (st : Client.ClientState) (orig : bool) (msg : string) :
  Forall (fun e => Client.forwards e = true) (Client.forward st orig msg) /\
  Client.calls (Client.forward st orig msg) = [].
Proof.
  unfold Client.forward. split.
  - apply Forall_app. split.
    + apply Forall_forall. intros e He. apply in_map_iff in He.
      destruct He as [fn [<- _]]. reflexivity.
    + destruct orig; repeat constructor.
  - induction (Client.externalListeners st) as [|fn l IH]; simpl.
    + now destruct orig.
    + exact IH.
Qed.

Lemma client_calls_map_Call (data : value) (set : list Ipc.handler) :
  Client.calls (map (fun fn => Client.Call fn data) set) =
  map (fun h => (h, data)) set.
Proof.
  induction set as [|h set IH]; simpl; [reflexivity | now rewrite <- IH].
Qed.

(** X26.  What the host sends, the bundled client delivers, provided that
    JSON carries the envelope unchanged and the encoded message is within
    the client's cap of 1048576 characters.  [send(type, payload)] posts the
    one encoded envelope; when the host channel has no channel id, the
    client reads it as a [type] message: if [type] is a key of the client's
    schemas and its schema accepts the payload, every handler registered for
    [type] is called with the schema's data, in order, and once a listener
    set exists for [type] nothing is handed on to external listeners.  When
    the name on the wire -- the prefixed type, if the host has a channel id
    -- is not found in the client's schemas by [in] (it is no key and no
    inherited name), the client, which knows no prefixes, does not take the
    message: it hands it on. *)
Theorem host_message_reaches_the_client
        (ch : Ipc.Channel) (opts : Client.ChannelClientOptions) (orig : bool)
        (st : Client.ClientState) (type : string) (payload data : value)
        (schema : Ipc.SchemaLike) :
  let raw := Ipc.encode (Ipc.prefixCh ch type) payload in
  JSON_parse raw = Some (Ipc.carried (Ipc.prefixCh ch type) payload) ->
  (Z.of_nat (str_length raw) <= 1048576)%Z ->
  Ipc.posted (Ipc.send ch type payload) = [raw] /\
  (Ipc.channelId ch = "" ->
   lookup type (Client.schemas opts) = Some schema ->
   schema payload = Some data ->
   Client.calls (Client.receive opts orig st raw) =
     map (fun h => (h, data)) (Client.handlersOf st type) /\
   (lookup type (Client.listeners st) <> None ->
    Forall (fun e => Client.forwards e = false) (Client.receive opts orig st raw))) /\
  (in_ (Ipc.prefixCh ch type) (Client.schemas opts) = false ->
   Client.receive opts orig st raw = Client.forward st orig raw).
Proof.
  intros raw Hrt Hsize. split; [reflexivity|].
  destruct (IpcFacts.carried_fields (Ipc.prefixCh ch type) payload)
    as [Hc [Hch [Hp Hdel]]].
  assert (Hdec : Client.decode raw =
                 Some (Ipc.carried (Ipc.prefixCh ch type) payload)).
  { rewrite decode_agrees, (IpcFacts.decode_parsed raw None Hrt), Hc.
    rewrite JsFacts.int_gt_ofZ.
    destruct (_ <? _)%Z eqn:E;
      [apply Z.ltb_lt in E; unfold Ipc.MAX_MESSAGE_SIZE in E; lia|].
    unfold Ipc.carried. now rewrite Hdel. }
  split.
  - intros Hid Hs Hv.
    assert (Hpre : Ipc.prefixCh ch type = type).
    { unfold Ipc.prefixCh. now rewrite Hid. }
    unfold Client.receive.
    rewrite Hdec, Hch, Hp, Hpre, (JsFacts.in_own _ _ Hs), Hs.
    unfold Client.handlersOf, Ipc.validatePayload. rewrite Hv.
    destruct (lookup type (Client.listeners st)) as [set|].
    + split; [simpl; apply client_calls_map_Call|].
      intros _. constructor; [reflexivity|].
      apply Forall_forall. intros e He. apply in_map_iff in He.
      destruct He as [fn [<- _]]. reflexivity.
    + split; [apply forward_forwards | intros H; now contradiction H].
  - intros Hnone. unfold Client.receive. now rewrite Hdec, Hch, Hnone.
Qed.


End WithBuiltins.

End ClientFacts.
(* ===================================================================== *)
(** * The data source and its collection *)
(* ===================================================================== *)

Module TsdbFacts.
Import Js Tsdb.
Local Open Scope string_scope.

Section WithBuiltins.
Context {B : Builtins}.
Variable channel : string.
Variable getKey : value -> Key.

Lemma build_fold (fn : list BuilderCall) (items : Items) (ops : list value) :
  fold_left (build getKey) fn (items, ops) =
  (fst (calls channel getKey items (map single fn)),
   (ops ++ map (queued getKey) fn)%list).
Proof.
  revert items ops. induction fn as [|c fn IH]; intros items ops.
  - simpl. now rewrite app_nil_r.
  - cbn [fold_left map calls].
    destruct c as [item | key item | key]; cbn [build single call fst snd queued];
      rewrite IH, <- app_assoc; cbn [app];
      [unfold insert | unfold update | unfold delete];
      cbn [fst snd];
      destruct (calls channel getKey _ (map single fn)); reflexivity.
Qed.

Lemma calls_single_posted (fn : list BuilderCall) (items : Items) :
  snd (calls channel getKey items (map single fn)) =
  flat_map (fun c => send channel (queued getKey c)) fn.
Proof.
  revert items. induction fn as [|c fn IH]; intros items; [reflexivity|].
  cbn [map calls flat_map].
  destruct c as [item | key item | key]; cbn [single call queued];
    [unfold insert | unfold update | unfold delete];
    match goal with
    | |- context [calls channel getKey ?m (map single fn)] =>
        specialize (IH m); destruct (calls channel getKey m (map single fn))
    end; cbn [snd] in *; now rewrite IH.
Qed.

Lemma batch_posted (items : Items) (fn : list BuilderCall) :
  snd (batch channel getKey items fn) =
    match fn with
    | [] => []
    | _ :: _ =>
        send channel (VObj [("t", VStr "b");
                            ("ops", VArr (map (queued getKey) fn))])
    end.
Proof.
  unfold batch. rewrite build_fold. cbn [app fst snd].
  destruct fn as [|c fn]; reflexivity.
Qed.

Lemma batch_items (items : Items) (fn : list BuilderCall) :
  fst (batch channel getKey items fn) =
    fst (calls channel getKey items (map single fn)).
Proof.
  unfold batch. rewrite build_fold. cbn [app fst snd].
  now destruct (map (queued getKey) fn).
Qed.

(** X28.  [batch] changes the internal map exactly as the same insert,
    update and delete calls made one by one would, but where those post one
    message each, [batch] posts a single message that holds the same
    operations in the order of the calls -- and no message at all when the
    callback makes no call. *)
Theorem batch_does_what_the_single_calls_do
        (items : Items) (fn : list BuilderCall) :
  fst (batch channel getKey items fn) =
    fst (calls channel getKey items (map single fn)) /\
  snd (calls channel getKey items (map single fn)) =
    flat_map (fun c => send channel (queued getKey c)) fn /\
  snd (batch channel getKey items fn) =
    match fn with
    | [] => []
    | _ :: _ =>
        send channel (VObj [("t", VStr "b");
                            ("ops", VArr (map (queued getKey) fn))])
    end.
Proof.
  split; [apply batch_items|].
  split; [apply calls_single_posted|apply batch_posted].
Qed.

(** ** From the data source to the collection *)

Lemma writeItems_entries (items : Items) :
  writeItems (map (fun kv => VObj [("k", keyValue (fst kv)); ("v", snd kv)]) items) =
  (map (fun kv => Write (WInsert (snd kv))) items, false).
Proof.
  induction items as [|[k v] items IH]; [reflexivity|].
  cbn [map writeItems nullish]. now rewrite IH.
Qed.

Lemma writeOps_queued (fn : list BuilderCall) :
  writeOps (map (queued getKey) fn) = (map told fn, false).
Proof.
  induction fn as [|c fn IH]; [reflexivity|].
  cbn [map writeOps]. rewrite IH. now destruct c.
Qed.

Lemma payloadOf_posted (items : Items) (c : Call) :
  snd (call channel getKey items c) =
  match payloadOf getKey items c with
  | Some payload => send channel payload
  | None => []
  end.
Proof.
  destruct c as [item | key item | key | fn | newItems]; try reflexivity.
  cbn [call payloadOf].
  rewrite batch_posted. now destruct fn.
Qed.

(** X29.  Every message that the data source posts is understood by the
    collection as what the data source did, in one transaction: an insert,
    update or delete as one write of that kind, a batch as all its writes
    in the order of the calls, a snapshot as an insert of every item of the
    internal map in its order followed by [markReady] -- provided that JSON
    carries the envelope unchanged.  (A snapshot is inserts only: the
    collection is not told to drop what it has.) *)
Theorem collection_is_told_what_the_data_source_did
        (items : Items) (c : Call) (payload : value) :
  let envelope := VObj [("$ch", VStr channel); ("p", payload)] in
  payloadOf getKey items c = Some payload ->
  JSON_parse (JSON_stringify envelope) = Some envelope ->
  snd (call channel getKey items c) = [JSON_stringify envelope] /\
  handler channel (JSON_stringify envelope) =
    Returned (transaction (fst (call channel getKey items c)) c).
Proof.
  intros envelope Hp Hrt. split.
  - rewrite payloadOf_posted, Hp. reflexivity.
  - unfold handler. rewrite Hrt.
    change (Ipc.isEnvelope envelope) with true.
    change (Ipc.envelope_ch envelope) with channel.
    rewrite String.eqb_refl. cbn [negb orb].
    change (get "p" envelope) with payload.
    destruct c as [item | key item | key | fn | newItems]; cbn [payloadOf] in Hp.
    + inversion Hp; subst payload. reflexivity.
    + inversion Hp; subst payload. reflexivity.
    + inversion Hp; subst payload. reflexivity.
    + destruct fn as [|c0 fn]; [discriminate Hp|].
      inversion Hp; subst payload.
      cbn [falsy get lookup String.eqb Ascii.eqb Bool.eqb].
      unfold processPayload.
      cbn [String.eqb Ascii.eqb Bool.eqb get lookup iterate].
      change (queued getKey c0 :: map (queued getKey) fn)
        with (map (queued getKey) (c0 :: fn)).
      rewrite writeOps_queued. reflexivity.
    + inversion Hp; subst payload.
      cbn [falsy snapshot get lookup String.eqb Ascii.eqb Bool.eqb].
      unfold processPayload.
      cbn [String.eqb Ascii.eqb Bool.eqb].
      unfold snapshot. cbn [String.eqb Ascii.eqb Bool.eqb get lookup iterate].
      rewrite writeItems_entries. reflexivity.
Qed.

(** ** Transactions *)

Lemma writeItems_writes (items : list value) :
  forallb isWrite (fst (writeItems items)) = true.
Proof.
  induction items as [|item items IH]; [reflexivity|].
  cbn [writeItems]. destruct (nullish item); [reflexivity|].
  destruct (writeItems items). exact IH.
Qed.

Lemma writeOp_writes (op : value) : forallb isWrite (writeOp op) = true.
Proof.
  unfold writeOp. destruct (get "t" op); try reflexivity.
  repeat match goal with
         | |- context [if ?b then _ else _] => destruct b; [reflexivity|]
         end.
  reflexivity.
Qed.

Lemma writeOps_writes (ops : list value) :
  forallb isWrite (fst (writeOps ops)) = true.
Proof.
  induction ops as [|op ops IH]; [reflexivity|].
  cbn [writeOps]. destruct (nullish op); [reflexivity|].
  destruct (writeOps ops) as [made threw]. cbn [fst] in *.
  rewrite forallb_app, IH, writeOp_writes. reflexivity.
Qed.

Lemma processPayload_transaction (t : string) (payload : value) :
  match processPayload t payload with
  | Returned made => made = [] \/ completed made
  | Threw made => leftOpen made
  end.
Proof.
  unfold processPayload.
  destruct (String.eqb t "i");
    [right; exists [Write (WInsert (get "v" payload))]; split; [reflexivity | now left]|].
  destruct (String.eqb t "u");
    [right; exists [Write (WUpdate (get "v" payload))]; split; [reflexivity | now left]|].
  destruct (String.eqb t "d");
    [right; exists [Write (WDelete (get "k" payload))]; split; [reflexivity | now left]|].
  destruct (String.eqb t "s").
  { destruct (iterate (get "items" payload)) as [items|];
      [|exists []; split; reflexivity].
    pose proof (writeItems_writes items) as Hw.
    destruct (writeItems items) as [made threw]. cbn [fst] in Hw.
    destruct threw; [exists made; now split|].
    right. exists made. split; [exact Hw | now right]. }
  destruct (String.eqb t "b"); [|now left].
  destruct (iterate (get "ops" payload)) as [ops|];
    [|exists []; split; reflexivity].
  pose proof (writeOps_writes ops) as Hw.
  destruct (writeOps ops) as [made threw]. cbn [fst] in Hw.
  destruct threw; [exists made; now split|].
  right. exists made. split; [exact Hw | now left].
Qed.

(** X30.  Whatever message arrives, the handler of the collection either
    makes no call at all (the message does not parse, is no envelope, is
    for another channel, or has a payload without a string [t] or with an
    unknown one), or makes one complete transaction -- one [begin], only
    writes, one [commit], and [markReady] only after the commit -- or throws
    a [TypeError] after [begin] and some writes, without [commit]: a
    snapshot or batch whose list is not iterable or holds a [null]. *)
Theorem handler_makes_whole_transactions (msg : string) :
  match handler channel msg with
  | Returned made => made = [] \/ completed made
  | Threw made => leftOpen made
  end.
Proof.
  unfold handler.
  destruct (JSON_parse msg) as [parsed|]; [|now left].
  destruct (negb (Ipc.isEnvelope parsed) || _); [now left|].
  destruct (falsy (get "p" parsed)); [now left|].
  destruct (get "t" (get "p" parsed)); try (now left).
  apply processPayload_transaction.
Qed.

End WithBuiltins.

End TsdbFacts.
(* ===================================================================== *)
(** * The general facts at work on concrete channels and windows *)
(* ===================================================================== *)

Module Worked.
Import Js Ipc Run Reach Fixtures MoreFixtures.
Local Open Scope string_scope.
#[local] Existing Instance Ref.builtins.

(** X1 at work: the ping of the test suite reaches its handler with the
    data of the string schema. *)
Lemma handlers_receive_validated_data_witness :
  let ch := channel (withSchemas testSchemas) in
  let st := on ch initialState "ping" 1 in
  In (1, VStr "hi") (calls (snd (onMessage ch st 0 (ping "hi") "https://localhost"))) /\
  exists env type schema,
    decode (ping "hi") (maxMessageSize (options ch)) = Some env /\
    unprefixCh ch (envelope_ch env) = Some type /\
    lookup type (schemas (options ch)) = Some schema /\
    schema (envelope_p env) = Some (VStr "hi") /\
    In 1 (handlersOf st type).
Proof.
  intros ch st.
  assert (Hin : In (1, VStr "hi")
                   (calls (snd (onMessage ch st 0 (ping "hi") "https://localhost"))))
    by (vm_compute; left; reflexivity).
  split; [exact Hin|].
  exact (ChannelFacts.handlers_receive_validated_data
           ch st 0 (ping "hi") "https://localhost" 1 (VStr "hi") Hin).
Defined.

(** X2 at work: a number where the schema wants a string. *)
Lemma invalid_payload_not_delivered_witness :
  let ch := channel (withSchemas testSchemas) in
  let st := on ch initialState "ping" 1 in
  let raw := Ref.json "{'$ch':'ping','p':42}" in
  let env := VObj [("$ch", VStr "ping"); ("p", VNum 42)] in
  decode raw (maxMessageSize (options ch)) = Some env /\
  stringSchema (envelope_p env) = None /\
  calls (snd (onMessage ch st 0 raw "https://localhost")) = [].
Proof.
  intros ch st raw env.
  assert (Hd : decode raw (maxMessageSize (options ch)) = Some env)
    by (vm_compute; reflexivity).
  assert (Hv : stringSchema (envelope_p env) = None) by reflexivity.
  split; [exact Hd|]. split; [exact Hv|].
  exact (proj1 (@ChannelFacts.invalid_payload_not_delivered
                  _ ch st 0 raw "https://localhost" env "ping" stringSchema
                  Hd eq_refl eq_refl Hv)).
Defined.


(** X6 at work. *)
Lemma on_then_off_witness :
  let ch := channel (withSchemas testSchemas) in
  let st := on ch initialState "ping" 1 in
  ~ In 2 (handlersOf st "ping") /\
  handlersOf (off (on ch st "ping" 2) "ping" 2) "ping" = handlersOf st "ping" /\
  handlersOf (on ch st "ping" 2) "ping" = [1; 2].
Proof.
  intros ch st.
  assert (Hn : ~ In 2 (handlersOf st "ping")).
  { vm_compute. intros [H | []]. discriminate H. }
  destruct (@ChannelFacts.on_then_off ch st "ping" 2 Hn) as [Hround Hadd].
  split; [exact Hn|]. split; [exact Hround|].
  apply Hadd; [reflexivity | discriminate].
Defined.

(** X8 at work: the test of the suite, a bare [ping] on the channel
    [test-ns]. *)
Lemma wrong_prefix_dropped_witness :
  let ch := channel (withChannelId testSchemas (CidString "test-ns")) in
  let st := on ch initialState "ping" 1 in
  let env := VObj [("$ch", VStr "ping"); ("p", VStr "hi")] in
  channelId ch <> "" /\
  decode (ping "hi") (maxMessageSize (options ch)) = Some env /\
  snd (onMessage ch st 0 (ping "hi") "https://localhost") = [].
Proof.
  intros ch st env.
  assert (Hid : channelId ch <> "") by (vm_compute; discriminate).
  assert (Hd : decode (ping "hi") (maxMessageSize (options ch)) = Some env)
    by (vm_compute; reflexivity).
  split; [exact Hid|]. split; [exact Hd|].
  apply (proj1 (@ChannelFacts.wrong_prefix_dropped
                  _ ch st 0 (ping "hi") "https://localhost" env Hid Hd)).
  vm_compute. reflexivity.
Defined.

(** X9 at work: two messages that are no JSON use up a limit of two. *)
Lemma dropped_messages_use_the_budget_witness :
  let ch := channel (withRateLimit testSchemas 2) in
  let acts := [On "ping" 1; Incoming 0 "junk" ""; Incoming 5 "{" ""] in
  rateLimit (options ch) = Some (ofZ 2) /\
  nondecreasing (arrivals acts ++ [10%Z]) /\
  admits (Some (ofZ 2)) [] (arrivals acts) = [0%Z; 5%Z] /\
  snd (onMessage ch (stateAfter ch initialState acts) 10 (ping "hi")
                 "https://localhost") = [].
Proof.
  intros ch acts.
  assert (Hs : nondecreasing (arrivals acts ++ [10%Z])).
  { simpl. repeat split; intros u Hu; simpl in Hu; intuition lia. }
  split; [reflexivity|]. split; [exact Hs|]. split; [reflexivity|].
  rewrite (@ChannelFacts.dropped_messages_use_the_budget
             _ ch (ofZ 2) 10%Z acts (ping "hi") "https://localhost"
             eq_refl eq_refl Hs).
  reflexivity.
Defined.

(** What the limiter turns away is not counted.  With a limit of two, two
    messages at 0 ms fill the window and one at 999 ms is turned away; the
    message at 1000 ms is let through, and so is one at 1500 ms, although
    two messages arrived in the second before it. *)
Lemma turned_away_messages_are_not_counted :
  let ch := channel (withRateLimit testSchemas 2) in
  let acts := [On "ping" 1;
               Incoming 0 (ping "a") ""; Incoming 0 (ping "b") "";
               Incoming 999 (ping "c") ""; Incoming 1000 (ping "d") "";
               Incoming 1500 (ping "e") ""] in
  admits (Some (ofZ 2)) [] (arrivals acts) = [0%Z; 0%Z; 1000%Z; 1500%Z] /\
  map (fun p => calls (snd p)) (run ch initialState acts) =
    [[(1, VStr "a")]; [(1, VStr "b")]; []; [(1, VStr "d")]; [(1, VStr "e")]].
Proof.
  vm_compute. split; reflexivity.
Qed.

(** X10 at work: an [about:blank] page on a channel that trusts one origin. *)
Lemma untrusted_source_dropped_witness :
  let opts := withOrigins testSchemas ["https://app.local"] in
  let st := on (channel opts) initialState "ping" 1 in
  normalizeOrigin "https://app.local" = Some "https://app.local" /\
  URL_origin "about:blank" = Some "null" /\
  snd (onMessage (fst (createChannel opts "0.4fzyo82mvyr")) st 0 (ping "hi")
                 "about:blank") = [].
Proof.
  intros opts st.
  assert (Hn : normalizeOrigin "https://app.local" = Some "https://app.local")
    by (vm_compute; reflexivity).
  assert (Hs : URL_origin "about:blank" = Some "null") by (vm_compute; reflexivity).
  split; [exact Hn|]. split; [exact Hs|].
  exact (@ChannelFacts.untrusted_source_dropped
           _ opts "0.4fzyo82mvyr" st 0 (ping "hi") "about:blank"
           ["https://app.local"] "https://app.local" "https://app.local"
           eq_refl (or_introl eq_refl) Hn (or_intror (or_introl Hs))).
Defined.

(** X11 at work: an entry in upper case with the default port, a page of the
    same origin. *)
Lemma trusted_source_passes_witness :
  let opts := withOrigins testSchemas ["HTTPS://APP.LOCAL:443"] in
  let st := on (channel opts) initialState "ping" 1 in
  normalizeOrigin "HTTPS://APP.LOCAL:443" = Some "https://app.local" /\
  URL_origin "https://app.local/page?x=1" = Some "https://app.local" /\
  calls (snd (onMessage (fst (createChannel opts "0.4fzyo82mvyr")) st 0 (ping "hi")
                        "https://app.local/page?x=1")) = [(1, VStr "hi")].
Proof.
  intros opts st.
  assert (Hn : normalizeOrigin "HTTPS://APP.LOCAL:443" = Some "https://app.local")
    by (vm_compute; reflexivity).
  assert (Hs : URL_origin "https://app.local/page?x=1" = Some "https://app.local")
    by (vm_compute; reflexivity).
  split; [exact Hn|]. split; [exact Hs|].
  rewrite (@ChannelFacts.trusted_source_passes
             _ opts "0.4fzyo82mvyr" st 0 (ping "hi") "https://app.local/page?x=1"
             ["HTTPS://APP.LOCAL:443"] "HTTPS://APP.LOCAL:443" "https://app.local"
             eq_refl (or_introl eq_refl) Hn Hs).
  vm_compute. reflexivity.
Defined.

(** X13 at work. *)
Lemma injection_waits_for_trusted_page_witness :
  let opts := injecting testSchemas (Some ["https://myapp.com"]) in
  let ch := fst (createChannel opts "0.4fzyo82mvyr") in
  normalizeOrigin "https://myapp.com" = Some "https://myapp.com" /\
  snd (createChannel opts "0.4fzyo82mvyr") = [] /\
  onPageLoad ch finished "https://myapp.com/index.html" = inject ch.
Proof.
  intros opts ch.
  assert (Hn : normalizeOrigin "https://myapp.com" = Some "https://myapp.com")
    by (vm_compute; reflexivity).
  destruct (@ChannelFacts.injection_waits_for_trusted_page
              _ opts "0.4fzyo82mvyr" ["https://myapp.com"] "https://myapp.com"
              "https://myapp.com" eq_refl (or_introl eq_refl) Hn)
    as [Hnone [_ Hload]].
  split; [exact Hn|]. split; [exact Hnone|].
  apply Hload; [reflexivity | vm_compute; reflexivity].
Defined.

End Worked.

Module WorkedWindows.
Import Win Process.
Local Open Scope string_scope.
#[local] Existing Instance Ref.builtins.

(** X15 at work: two windows, the first closed by the user. *)
Lemma pump_runs_while_a_window_is_open_witness :
  let es := [New working; New working; OnClose 0; CloseEvent 0] in
  let w := nth 1 (windows (run es)) (construct 0) in
  In w (windows (run es)) /\
  _closed w = false /\
  map _closed (windows (run es)) = [true; false] /\
  Process._pump (run es) = true.
Proof.
  intros es w.
  assert (Hin : In w (windows (run es))) by (vm_compute; right; left; reflexivity).
  assert (Ho : _closed w = false) by reflexivity.
  split; [exact Hin|]. split; [exact Ho|]. split; [reflexivity|].
  exact (@ProcessFacts.pump_runs_while_a_window_is_open es w Hin Ho).
Defined.

(** X17 at work: one window made and closed, one that could not be made;
    no window is open, the count stays at one and the pump goes on. *)
Lemma count_and_pump_follow_the_open_windows_witness :
  let es := [New working; New broken; Invoke 0 (setTitle "x"); CloseEvent 0] in
  closesByProgram es = false /\
  openWindows (run es) = [] /\
  lost start es = 1 /\
  Process._windowCount (run es) = 1%Z /\
  Process._pump (run es) = true.
Proof.
  intros es.
  destruct (@ProcessFacts.count_and_pump_follow_the_open_windows es eq_refl)
    as [Hcount [Hpump _]].
  split; [reflexivity|]. split; [reflexivity|]. split; [reflexivity|].
  split; [exact Hcount|]. apply Hpump. vm_compute. constructor.
Defined.

(** Without a failed construction the pump stops with the last window. *)
Lemma pump_stops_with_the_last_window :
  let es := [New working; New working; CloseEvent 0; Invoke 1 (setTitle "x");
             CloseEvent 1] in
  lost start es = 0 /\
  openWindows (run es) = [] /\
  Process._windowCount (run es) = 0%Z /\
  Process._pump (run es) = false.
Proof.
  vm_compute. repeat split; reflexivity.
Qed.

(** X20 at work: a session cookie, and an item without a name. *)
Lemma well_formed_cookies_round_trip_witness :
  let raw := Ref.json
    ("[{'name':'sid','value':'abc','domain':'example.com','path':'/'," ++
     "'httpOnly':true,'secure':true,'sameSite':'lax','expires':-1}," ++
     "{'value':'orphan'}]") in
  let sid := {| Cookies.name := "sid"; Cookies.value := "abc";
                Cookies.domain := "example.com"; Cookies.path := "/";
                Cookies.httpOnly := true; Cookies.secure := true;
                Cookies.sameSite := "lax"; Cookies.expires := (-1)%Z |} in
  let orphan := Js.VObj [("value", Js.VStr "orphan")] in
  JSON_parse raw = Some (Js.VArr (map Cookies.asItem [sid] ++ [orphan] ++ [])) /\
  Cookies.onCookies raw = Cookies.Resolved [sid].
Proof.
  intros raw sid orphan.
  assert (Hp : JSON_parse raw =
               Some (Js.VArr (map Cookies.asItem [sid] ++ [orphan] ++ [])))
    by (vm_compute; reflexivity).
  split; [exact Hp|].
  apply (@CookieFacts.well_formed_cookies_round_trip _ raw [sid] [] [orphan]);
    [|exact Hp].
  constructor; [reflexivity | constructor].
Defined.

(** X22 at work: a window closed by the user. *)
Lemma channel_needs_an_open_window_witness :
  let w := _handleClose (construct 0) in
  let opts := Fixtures.withSchemas Fixtures.testSchemas in
  let ch := Fixtures.channel opts in
  _closed w = true /\
  Host.createChannel opts "0.4fzyo82mvyr" w = (inl WindowIsClosed, w) /\
  Host.send ch "ping" (Js.VStr "hi") w = (inl WindowIsClosed, w).
Proof.
  intros w opts ch.
  destruct (@HostFacts.channel_needs_an_open_window
              _ w opts "0.4fzyo82mvyr" ch "ping" (Js.VStr "hi") eq_refl)
    as [Hcreate [Hsend _]].
  split; [reflexivity|]. split; [exact Hcreate | exact Hsend].
Defined.

End WorkedWindows.

Module WorkedWebview.
Local Open Scope string_scope.
#[local] Existing Instance Ref.builtins.

(** X24 at work: quotes, a line break and a closing tag in capitals. *)
Lemma output_stands_for_the_input_witness :
  let input := (San.str "say 'hi' </SCRIPT>" ++ [San.LF])%list in
  Escapes.nulBeforeDigit input = false /\
  Escapes.unescape (San.sanitizeForJs input) =
    Some (San.str "say 'hi' </script>" ++ [San.LF])%list.
Proof.
  intros input.
  assert (Hnul : Escapes.nulBeforeDigit input = false) by reflexivity.
  split; [exact Hnul|].
  rewrite (@EscapeFacts.output_stands_for_the_input input Hnul).
  vm_compute. reflexivity.
Defined.

(** Where X24 stops: the escape of NUL and a digit after it make an octal
    escape. *)
Lemma nul_before_digit_is_not_read_back :
  San.sanitizeForJs [San.NUL; 49%N] = San.str "\01" /\
  Escapes.unescape (San.sanitizeForJs [San.NUL; 49%N]) = None.
Proof.
  split; vm_compute; reflexivity.
Qed.

(** X26 at work: a ping from the host of the test suite. *)
Lemma host_message_reaches_the_client_witness :
  let ch := Fixtures.channel (Fixtures.withSchemas Fixtures.testSchemas) in
  let opts := {| Client.schemas := Fixtures.testSchemas;
                 Client.onValidationError := false |} in
  let st := Client.on Client.initialState "ping" 1 in
  let raw := Ipc.encode (Ipc.prefixCh ch "ping") (Js.VStr "hi") in
  JSON_parse raw = Some (Ipc.carried (Ipc.prefixCh ch "ping") (Js.VStr "hi")) /\
  (Z.of_nat (Js.str_length raw) <= 1048576)%Z /\
  Client.calls (Client.receive opts true st raw) = [(1, Js.VStr "hi")].
Proof.
  intros ch opts st raw.
  assert (Hrt : JSON_parse raw =
                Some (Ipc.carried (Ipc.prefixCh ch "ping") (Js.VStr "hi")))
    by (vm_compute; reflexivity).
  assert (Hsize : (Z.of_nat (Js.str_length raw) <= 1048576)%Z)
    by (vm_compute; discriminate).
  split; [exact Hrt|]. split; [exact Hsize|].
  destruct (@ClientFacts.host_message_reaches_the_client
              _ ch opts true st "ping" (Js.VStr "hi") (Js.VStr "hi")
              Fixtures.stringSchema Hrt Hsize) as [_ [Hgo _]].
  destruct (Hgo eq_refl eq_refl eq_refl) as [Hcalls _].
  exact Hcalls.
Defined.

(** X29 at work: the first todo of the sample. *)
Lemma collection_is_told_what_the_data_source_did_witness :
  let getKey := fun item => match Js.get "id" item with
                            | Js.VStr s => Tsdb.KStr s
                            | _ => Tsdb.KStr ""
                            end in
  let todo := Js.VObj [("id", Js.VStr "1"); ("text", Js.VStr "Buy milk");
                       ("done", Js.VBool false)] in
  let payload := Tsdb.insertOp (Tsdb.KStr "1") todo in
  let envelope := Js.VObj [("$ch", Js.VStr "tsdb:todos"); ("p", payload)] in
  JSON_parse (JSON_stringify envelope) = Some envelope /\
  Tsdb.handler "tsdb:todos" (JSON_stringify envelope) =
    Tsdb.Returned [Tsdb.Begin; Tsdb.Write (Tsdb.WInsert todo); Tsdb.Commit].
Proof.
  intros getKey todo payload envelope.
  assert (Hrt : JSON_parse (JSON_stringify envelope) = Some envelope)
    by (vm_compute; reflexivity).
  split; [exact Hrt|].
  exact (proj2 (@TsdbFacts.collection_is_told_what_the_data_source_did
                  _ "tsdb:todos" getKey [] (Tsdb.Insert todo) payload
                  eq_refl Hrt)).
Defined.

End WorkedWebview.
